(** * fast-sin: range reduction and polynomial sine on batches of four doubles

    A shallow embedding of [assignment_3/fast-sin.cpp].  The C [double] is
    IEEE-754 binary64 with round-to-nearest-even, which is exactly the
    arithmetic of Rocq's primitive [float]; every operation of the source is
    written with the corresponding primitive operation, in the order in which
    the source performs it. *)

From Stdlib Require Import Floats ZArith Bool List Lia.
Import ListNotations.
Local Open Scope float_scope.

(** ** Outcomes

    A call either returns, or runs for longer than the fuel it was given, or
    steps outside what C defines (a read or write past a buffer, a null
    pointer dereferenced). *)

Inductive res (A : Type) : Type :=
| Ok (a : A)
| OutOfFuel
| Undefined.
Arguments Ok {A} a.
Arguments OutOfFuel {A}.
Arguments Undefined {A}.

Definition bind {A B : Type} (m : res A) (k : A -> res B) : res B :=
  match m with
  | Ok a => k a
  | OutOfFuel => OutOfFuel
  | Undefined => Undefined
  end.

Notation "x <- m ;; k" := (bind m (fun x => k))
  (at level 61, m at next level, right associativity).

Definition defined {A : Type} (o : option A) : res A :=
  match o with
  | Some a => Ok a
  | None => Undefined
  end.

(** ** Buffers

    A [double*] (or [bool*]) argument points at a buffer; the buffer is the
    list of its cells.  Alignment is a property of addresses and is not part
    of this model. *)

Definition load {A : Type} (p : list A) (i : nat) : res A :=
  defined (nth_error p i).

Fixpoint store {A : Type} (p : list A) (i : nat) (v : A) : res (list A) :=
  match p, i with
  | [], _ => Undefined
  | _ :: t, O => Ok (v :: t)
  | h :: t, S j => t' <- store t j v ;; Ok (h :: t')
  end.

(** [for (i = lo; i < lo + n * stride; i += stride) body], on a state [S]. *)
Fixpoint for_loop {S : Type} (n : nat) (lo stride : nat)
    (body : nat -> S -> res S) (s : S) : res S :=
  match n with
  | O => Ok s
  | Datatypes.S n' => s' <- body lo s ;; for_loop n' (lo + stride)%nat stride body s'
  end.

(** ** Constants *)

(** [M_PI] of <math.h>: the double nearest to pi. *)
Definition M_PI : float := 0x1.921fb54442d18p+1.

(** Coefficients of the Taylor expansions, lines 19 to 28. *)
Definition c3  : float := -1 / (2 * 3).
Definition c5  : float :=  1 / (2 * 3 * 4 * 5).
Definition c7  : float := -1 / (2 * 3 * 4 * 5 * 6 * 7).
Definition c9  : float :=  1 / (2 * 3 * 4 * 5 * 6 * 7 * 8 * 9).
Definition c11 : float := -1 / (2 * 3 * 4 * 5 * 6 * 7 * 8 * 9 * 10 * 11).
Definition c2  : float := -1 / 2.
Definition c4  : float :=  1 / (2 * 3 * 4).
Definition c6  : float := -1 / (2 * 3 * 4 * 5 * 6).
Definition c8  : float :=  1 / (2 * 3 * 4 * 5 * 6 * 7 * 8).
Definition c10 : float := -1 / (2 * 3 * 4 * 5 * 6 * 7 * 8 * 9 * 10).

(** ** Scalar strategies *)

Section Reference.

(** The sine of the platform's C library; it is not part of the repository. *)
Variable sin : float -> float.

Definition sin4_reference (sinx x : list float) : res (list float) :=
  for_loop 4 0 1
    (fun i sinx => xi <- load x i ;; store sinx i (sin xi)) sinx.

End Reference.

(** [p != nullptr && p[i] == false] *)
Definition set_and_false (p : option (list bool)) (i : nat) : res bool :=
  match p with
  | None => Ok false
  | Some v => b <- load v i ;; Ok (negb b)
  end.

(** [p[i]] for a pointer that may be null. *)
Definition deref (p : option (list bool)) (i : nat) : res bool :=
  match p with
  | None => Undefined
  | Some v => load v i
  end.

(** Lines 39 to 51: the even ladder and the cosine sum. *)
Definition taylor_cos (x1 : float) : float :=
  let x0 := 1 in
  let x2 := x1 * x1 in
  let x4 := x2 * x2 in
  let x6 := x2 * x4 in
  let x8 := x2 * x6 in
  let x10 := x2 * x8 in
  let s := x0 in
  let s := s + x2 * c2 in
  let s := s + x4 * c4 in
  let s := s + x6 * c6 in
  let s := s + x8 * c8 in
  let s := s + x10 * c10 in
  s.

(** Lines 55 to 68: the odd ladder and the sine sum. *)
Definition taylor_sin (x1 : float) : float :=
  let x2 := x1 * x1 in
  let x3 := x1 * x2 in
  let x5 := x3 * x2 in
  let x7 := x5 * x2 in
  let x9 := x7 * x2 in
  let x11 := x9 * x2 in
  let s := x1 in
  let s := s + x3 * c3 in
  let s := s + x5 * c5 in
  let s := s + x7 * c7 in
  let s := s + x9 * c9 in
  let s := s + x11 * c11 in
  s.

Definition sin4_taylor (sinx x : list float)
    (sign_vec sin_cos_vec : option (list bool)) : res (list float) :=
  for_loop 4 0 1
    (fun i sinx =>
       cosine <- set_and_false sin_cos_vec i ;;
       if cosine then
         x1 <- load x i ;;
         let s := taylor_cos x1 in
         sg <- deref sign_vec i ;;
         let s := s * (if sg then 1 else -1) in
         store sinx i s
       else
         x1 <- load x i ;;
         let s := taylor_sin x1 in
         neg <- match sin_cos_vec with
                | None => Ok false
                | Some _ => sg <- deref sign_vec i ;; Ok (negb sg)
                end ;;
         let s := s * (if neg then -1 else 1) in
         store sinx i s)
    sinx.

(** ** Range reduction *)

(** The three cells [angle_transform] reads and writes through its pointers. *)
Record reduction : Type := Reduction {
  angle : float;
  sign : bool;
  sin_cos : bool
}.

(** The loop condition, line 155. *)
Definition outside (a : float) : bool :=
  (M_PI / 4 <? a) || (a <? (- M_PI) / 4).

(** Lines 157, 158 and 164. *)
Definition step_add (st : reduction) : reduction :=
  {| angle := angle st + M_PI / 2;
     sign := if sin_cos st then negb (sign st) else sign st;
     sin_cos := negb (sin_cos st) |}.

(** Lines 161, 162 and 164. *)
Definition step_sub (st : reduction) : reduction :=
  {| angle := angle st - M_PI / 2;
     sign := if sin_cos st then sign st else negb (sign st);
     sin_cos := negb (sin_cos st) |}.

Definition body (st : reduction) : reduction :=
  if angle st <? (- M_PI) / 4 then step_add st else step_sub st.

(** The while loop; [fuel] bounds the number of times the body runs. *)
Fixpoint while (fuel : nat) (st : reduction) : res reduction :=
  if outside (angle st) then
    match fuel with
    | O => OutOfFuel
    | S n => while n (body st)
    end
  else Ok st.

(** Lines 153 and 154: both flags are set to true before the loop. *)
Definition start (a : float) : reduction :=
  {| angle := a; sign := true; sin_cos := true |}.

Definition angle_transform (fuel : nat) (a : float) : res reduction :=
  while fuel (start a).

(** The closed interval from -M_PI/4 to M_PI/4, in binary64. *)
Definition in_range (a : float) : bool :=
  ((- M_PI) / 4 <=? a) && (a <=? M_PI / 4).

(** Two inputs of interest.  10^17 is a double, and the doubles next to it
    are 16 apart.  3 * M_PI / 4 is written as C computes it; both of its
    operations are exact. *)
Definition huge : float := 1e17.
Definition three_quarter_pi : float := 3 * M_PI / 4.

(** Lines 179 to 184 of [main] for one batch: every cell of [x] is reduced in
    place and its two flags are recorded. *)
Fixpoint reduce_batch (fuel : nat) (x : list float)
    : res (list float * list bool * list bool) :=
  match x with
  | [] => Ok ([], [], [])
  | a :: t =>
      st <- angle_transform fuel a ;;
      r <- reduce_batch fuel t ;;
      let '(xs, sign_vec, sin_cos_vec) := r in
      Ok (angle st :: xs, sign st :: sign_vec, sin_cos st :: sin_cos_vec)
  end.

(** Range reduction followed by the Taylor strategy with the flags supplied. *)
Definition reconstruct (fuel : nat) (sinx x : list float) : res (list float) :=
  r <- reduce_batch fuel x ;;
  let '(xs, sign_vec, sin_cos_vec) := r in
  sin4_taylor sinx xs (Some sign_vec) (Some sin_cos_vec).

(** ** Data-parallel registers

    A register of [w] doubles is the list of its lanes.  The load, store and
    arithmetic instructions of <immintrin.h> and <emmintrin.h> act on every
    lane separately, each lane with the binary64 operation. *)

Definition lanes : Type := list float.

Fixpoint load_lanes (w : nat) (p : list float) (off : nat) : res lanes :=
  match w with
  | O => Ok []
  | S w' => a <- load p off ;; r <- load_lanes w' p (S off) ;; Ok (a :: r)
  end.

Fixpoint store_lanes (p : list float) (off : nat) (v : lanes) : res (list float) :=
  match v with
  | [] => Ok p
  | a :: r => p' <- store p off a ;; store_lanes p' (S off) r
  end.

Definition lanewise (op : float -> float -> float) (a b : lanes) : lanes :=
  map (fun ab => op (fst ab) (snd ab)) (combine a b).

Definition _mm256_load_pd (p : list float) : res lanes := load_lanes 4 p 0.
Definition _mm256_mul_pd : lanes -> lanes -> lanes := lanewise mul.
Definition _mm256_add_pd : lanes -> lanes -> lanes := lanewise add.
Definition _mm256_set1_pd (c : float) : lanes := repeat c 4.
Definition _mm256_store_pd (p : list float) (v : lanes) : res (list float) :=
  store_lanes p 0 v.

(** The 128-bit instructions are given the offset [i] of [x+i] and [sinx+i]. *)
Definition _mm_load_pd (p : list float) (i : nat) : res lanes := load_lanes 2 p i.
Definition _mm_mul_pd : lanes -> lanes -> lanes := lanewise mul.
Definition _mm_add_pd : lanes -> lanes -> lanes := lanewise add.
Definition _mm_set1_pd (c : float) : lanes := repeat c 2.
Definition _mm_store_pd (p : list float) (i : nat) (v : lanes) : res (list float) :=
  store_lanes p i v.

(** Which branch of the preprocessor conditional of [sin4_intrin] is compiled. *)
Inductive isa : Type := AVX | SSE2 | NoSIMD.

Section Intrin.

Variable sin : float -> float.

Definition sin4_intrin (hw : isa) (sinx x : list float) : res (list float) :=
  match hw with
  | AVX =>
      x1 <- _mm256_load_pd x ;;
      let x2 := _mm256_mul_pd x1 x1 in
      let x3 := _mm256_mul_pd x1 x2 in
      let s := x1 in
      let s := _mm256_add_pd s (_mm256_mul_pd x3 (_mm256_set1_pd c3)) in
      _mm256_store_pd sinx s
  | SSE2 =>
      let sse_length := 2%nat in
      for_loop 2 0 sse_length
        (fun i sinx =>
           x1 <- _mm_load_pd x i ;;
           let x2 := _mm_mul_pd x1 x1 in
           let x3 := _mm_mul_pd x1 x2 in
           let s := x1 in
           let s := _mm_add_pd s (_mm_mul_pd x3 (_mm_set1_pd c3)) in
           _mm_store_pd sinx i s)
        sinx
  | NoSIMD => sin4_reference sin sinx x
  end.

End Intrin.

(** ** The vector wrapper *)

Module Vec4.

(** Modelled from the spec: [Vec<double,4>] of intrin-wrapper.h, which is not
    among the sources.  The spec describes it as a data-parallel abstraction
    with load-aligned, store-aligned, broadcast-constant and elementwise
    arithmetic; a value is the list of its four lanes. *)
Definition t : Type := lanes.

(** Modelled from the spec: the load-aligned operation of the wrapper. *)
Definition LoadAligned (p : list float) : res t := load_lanes 4 p 0.

(** Modelled from the spec: the store-aligned operation of the wrapper. *)
Definition StoreAligned (v : t) (p : list float) : res (list float) :=
  store_lanes p 0 v.

(** Modelled from the spec: the broadcast of a constant, which is how a
    [double] operand of [*] becomes a vector. *)
Definition broadcast (c : float) : t := repeat c 4.

(** Modelled from the spec: elementwise multiplication of the wrapper. *)
Definition mul : t -> t -> t := lanewise PrimFloat.mul.

(** Modelled from the spec: elementwise addition of the wrapper. *)
Definition add : t -> t -> t := lanewise PrimFloat.add.

End Vec4.

Definition sin4_vector (sinx x : list float) : res (list float) :=
  x1 <- Vec4.LoadAligned x ;;
  let x2 := Vec4.mul x1 x1 in
  let x3 := Vec4.mul x1 x2 in
  let x5 := Vec4.mul x2 x3 in
  let x7 := Vec4.mul x2 x5 in
  let x9 := Vec4.mul x2 x7 in
  let x11 := Vec4.mul x2 x9 in
  let s := x1 in
  let s := Vec4.add s (Vec4.mul x3 (Vec4.broadcast c3)) in
  let s := Vec4.add s (Vec4.mul x5 (Vec4.broadcast c5)) in
  let s := Vec4.add s (Vec4.mul x7 (Vec4.broadcast c7)) in
  let s := Vec4.add s (Vec4.mul x9 (Vec4.broadcast c9)) in
  let s := Vec4.add s (Vec4.mul x11 (Vec4.broadcast c11)) in
  Vec4.StoreAligned s sinx.

Definition cos4_vector (cosx x : list float) : res (list float) :=
  let one : list float := [1; 1; 1; 1] in
  x0 <- Vec4.LoadAligned one ;;
  x1 <- Vec4.LoadAligned x ;;
  let x2 := Vec4.mul x1 x1 in
  let x4 := Vec4.mul x2 x2 in
  let x6 := Vec4.mul x2 x4 in
  let x8 := Vec4.mul x2 x6 in
  let x10 := Vec4.mul x2 x8 in
  let x12 := Vec4.mul x2 x10 in
  let s := x0 in
  let s :=
    Vec4.add s
      (Vec4.add
         (Vec4.add
            (Vec4.add
               (Vec4.add
                  (Vec4.add x0 (Vec4.mul x2 (Vec4.broadcast c2)))
                  (Vec4.mul x4 (Vec4.broadcast c4)))
               (Vec4.mul x6 (Vec4.broadcast c6)))
            (Vec4.mul x8 (Vec4.broadcast c8)))
         (Vec4.mul x10 (Vec4.broadcast c10))) in
  Vec4.StoreAligned s cosx.

(** ** The polynomials as the specification writes them *)

Module Spec.

(** 1 + c2 x^2 + c4 x^4 + c6 x^6 + c8 x^8 + c10 x^10, the powers by the
    ladder x^2, x^4 = x^2 x^2, x^6 = x^2 x^4, x^8 = x^2 x^6, x^10 = x^2 x^8. *)
Definition cos_poly (x : float) : float :=
  let x2 := x * x in
  let x4 := x2 * x2 in
  let x6 := x2 * x4 in
  let x8 := x2 * x6 in
  let x10 := x2 * x8 in
  1 + c2 * x2 + c4 * x4 + c6 * x6 + c8 * x8 + c10 * x10.

(** x + c3 x^3 + c5 x^5 + c7 x^7 + c9 x^9 + c11 x^11, the powers by the odd
    ladder x^3 = x^2 x, x^5 = x^2 x^3, and so on. *)
Definition sin_poly (x : float) : float :=
  let x2 := x * x in
  let x3 := x2 * x in
  let x5 := x2 * x3 in
  let x7 := x2 * x5 in
  let x9 := x2 * x7 in
  let x11 := x2 * x9 in
  x + c3 * x3 + c5 * x5 + c7 * x7 + c9 * x9 + c11 * x11.

(** x + c3 x^3, the truncation at degree 3. *)
Definition sin_deg3 (x : float) : float :=
  let x2 := x * x in
  let x3 := x2 * x in
  x + c3 * x3.

End Spec.

(** ** Error measure, lines 146 to 150 *)

(** [std::max]: the second argument when the first is less, else the first. *)
Definition fmax (a b : float) : float := if a <? b then b else a.

Definition err (x y : list float) (N : nat) : res float :=
  for_loop N 0 1
    (fun i error =>
       xi <- load x i ;; yi <- load y i ;; Ok (fmax error (abs (xi - yi))))
    0.

(** ** A predicate on specification floats *)

Definition is_nan_sf (x : spec_float) : bool :=
  match x with
  | S754_nan => true
  | _ => false
  end.

(** ** Specification floats as integers

    A finite binary64 number is an integer multiple of 2^-1074; [Zval] is
    that multiple.  It is used to measure the progress of the reduction
    loop. *)

Local Open Scope Z_scope.

Definition Zval (x : spec_float) : Z :=
  match x with
  | S754_finite s m e => cond_Zopp s (Z.pos m * 2 ^ (e + 1074))
  | _ => 0
  end.

Definition is_finite_sf (x : spec_float) : bool :=
  match x with
  | S754_finite _ _ _ | S754_zero _ => true
  | _ => false
  end.

(** [shr_fexp] on a nonnegative significand: the shift count is
    [Z.max 0 (fexp (digits + e) - e)], the significand is divided by that
    power of two and the exponent raised by it. *)
Definition shift_count (m e : Z) : Z :=
  Z.max 0 (fexp prec emax (Zdigits2 m + e) - e).

Definition FV (a : float) : Z := Zval (Prim2SF a).

(** M_PI/4 and M_PI/2 as multiples of 2^-1074, and M_PI/2 as a
    specification float. *)
Definition Zq : Z := 7074237752028440 * 2 ^ 1021.
Definition Zp : Z := 7074237752028440 * 2 ^ 1022.
Definition half_pi_sf : spec_float := S754_finite false 7074237752028440 (-52).

Local Close Scope Z_scope.

(** ** One cell of the Taylor strategy when both flag arrays are given

    The polynomial the selector picks, negated when the sign flag is false;
    the statements about [sin4_taylor] with flags compare its cells with
    this. *)
Definition taylor_lane (x : float) (functionSelector signFlag : bool) : float :=
  let v := if functionSelector then Spec.sin_poly x else Spec.cos_poly x in
  if signFlag then v else - v.

(** What [sin4_intrin] stores in a cell: the truncated series when compiled
    for AVX or SSE2, the platform sine otherwise. *)
Definition intrin_lane (sin : float -> float) (hw : isa) : float -> float :=
  match hw with
  | AVX | SSE2 => Spec.sin_deg3
  | NoSIMD => sin
  end.

(** ** The driver, lines 168 to 228 *)

(** [strategy (out + i, x + i)]: the callee sees both buffers from cell [i]
    on; what it returns replaces that part of [out]. *)
Definition offset_call (strategy : list float -> list float -> res (list float))
    (i : nat) (out x : list float) : res (list float) :=
  if ((i <=? length out) && (i <=? length x))%nat then
    r <- strategy (skipn i out) (skipn i x) ;; Ok (firstn i out ++ r)
  else Undefined.

(** [for (long i = 0; i < N; i+=4) strategy (out + i, x + i)], lines 193 to
    195 and the three loops like it. *)
Definition pass (strategy : list float -> list float -> res (list float))
    (N : nat) (out x : list float) : res (list float) :=
  for_loop ((N + 3) / 4) 0 4 (fun i out => offset_call strategy i out x) out.

(** [for (long rep = 0; rep < 1000; rep++)] around one pass. *)
Definition repeated (strategy : list float -> list float -> res (list float))
    (N : nat) (out x : list float) : res (list float) :=
  for_loop 1000 0 1 (fun _ out => pass strategy N out x) out.

Section Main.

Variable sin : float -> float.
Variable hw : isa.

(** [drand48 i] is the value the call of drand48 for cell [i] returns. *)
Variable drand48 : nat -> float.

(** Line 180 for every cell. *)
Definition generate (N : nat) : list float :=
  map (fun i => (drand48 i - 0.5) * M_PI / 2) (seq 0 N).

(** [main] on [N] cells, the timer left out: the three errors it prints.
    The Taylor pass hands every batch the start of the two flag arrays,
    lines 201 to 203. *)
Definition benchmark (N fuel : nat) : res (float * float * float) :=
  r <- reduce_batch fuel (generate N) ;;
  let '(x, sign_vec, sin_cos_vec) := r in
  let zeros := repeat 0 N in
  sinx_ref <- repeated (sin4_reference sin) N zeros x ;;
  sinx_taylor <-
    repeated (fun out xi => sin4_taylor out xi (Some sign_vec) (Some sin_cos_vec))
      N zeros x ;;
  err_taylor <- err sinx_ref sinx_taylor N ;;
  sinx_intrin <- repeated (sin4_intrin sin hw) N zeros x ;;
  err_intrin <- err sinx_ref sinx_intrin N ;;
  sinx_vector <- repeated sin4_vector N zeros x ;;
  err_vector <- err sinx_ref sinx_vector N ;;
  Ok (err_taylor, err_intrin, err_vector).

End Main.

(** ** One batch of [main] *)

(** Lines 179 to 221 of [main] for one batch of four angles, the timer and
    the repetitions left out: the angles are reduced, the four strategies
    fill their buffers, and the three errors against the reference buffer
    are returned in the order in which [main] prints them. *)
Definition batch_errors (sin : float -> float) (hw : isa) (fuel : nat)
    (a : list float) : res (float * float * float) :=
  r <- reduce_batch fuel a ;;
  let '(x, sign_vec, sin_cos_vec) := r in
  let zeros := repeat 0 4 in
  sinx_ref <- sin4_reference sin zeros x ;;
  sinx_taylor <- sin4_taylor zeros x (Some sign_vec) (Some sin_cos_vec) ;;
  err_taylor <- err sinx_ref sinx_taylor 4 ;;
  sinx_intrin <- sin4_intrin sin hw zeros x ;;
  err_intrin <- err sinx_ref sinx_intrin 4 ;;
  sinx_vector <- sin4_vector zeros x ;;
  err_vector <- err sinx_ref sinx_vector 4 ;;
  Ok (err_taylor, err_intrin, err_vector).

(** The order of the three errors as the specification states it, section 8:
    the error of [sin4_intrin] is at least that of [sin4_taylor] and at
    least that of [sin4_vector]. *)
Definition stated_error_order (sin : float -> float) (hw : isa) (fuel : nat)
    (a : list float) : Prop :=
  exists err_taylor err_intrin err_vector,
    batch_errors sin hw fuel a = Ok (err_taylor, err_intrin, err_vector)
    /\ (err_taylor <=? err_intrin) = true
    /\ (err_vector <=? err_intrin) = true.

(** An angle at which x + c3 x^3 is the double nearest to the real sine. *)
Definition small_angle : float := 0x1.4df1658f56e6fp-12.

(** The sine of the C library at two angles, correctly rounded as glibc
    returns it: the double nearest to the real sine of [M_PI / 4] and the
    double nearest to the real sine of [small_angle].  No other argument is
    looked up. *)
Definition sin_sample (v : float) : float :=
  if v =? M_PI / 4 then 0x1.6a09e667f3bccp-1
  else if v =? small_angle then 0x1.4df16530a1b59p-12
  else nan.

(** Four functions applied in turn to the cells of a buffer, batch by batch. *)
Fixpoint lanes4 (f0 f1 f2 f3 : float -> float) (x : list float) : list float :=
  match x with
  | x0 :: x1 :: x2 :: x3 :: t =>
      f0 x0 :: f1 x1 :: f2 x2 :: f3 x3 :: lanes4 f0 f1 f2 f3 t
  | _ => []
  end.

(** ** The loop of the error measure *)

(** The body of the loop of [err], line 148. *)
Definition err_body (x y : list float) (i : nat) (error : float) : res float :=
  xi <- load x i ;; yi <- load y i ;; Ok (fmax error (abs (xi - yi))).

(** What the accumulator of [err] satisfies at every iteration. *)
Definition sound_error (e : float) : Prop :=
  is_nan e = false /\ (0 <=? e) = true.

(** ** Negation up to the sign of zero

    Binary64 addition gives +0 for x + (-x) and for (-x) + x, so negating the
    operands of a sum negates the result except when the result is a zero. *)

Definition is_zero_sf (x : spec_float) : bool :=
  match x with
  | S754_zero _ => true
  | _ => false
  end.

(** [v] is the negation of [u], or both are zeros. *)
Definition mirrored_sf (u v : spec_float) : Prop :=
  v = SFopp u \/ (is_zero_sf u = true /\ is_zero_sf v = true).

Definition mirrored (u v : float) : Prop :=
  v = - u \/ (is_zero u = true /\ is_zero v = true).

(** Two runs of the loop of [angle_transform], the second on the negated
    angle: the selectors agree, the angles are mirrored, and the signs agree
    when the sine is selected and differ when the cosine is. *)
Definition mirror_state (st st' : reduction) : Prop :=
  sin_cos st' = sin_cos st
  /\ sign st' = (if sin_cos st then sign st else negb (sign st))
  /\ mirrored (angle st) (angle st').

Definition mirror_res (r r' : res reduction) : Prop :=
  match r, r' with
  | Ok st, Ok st' => mirror_state st st'
  | OutOfFuel, OutOfFuel => True
  | _, _ => False
  end.

(** ** The flags as a trigonometric identity

    In exact arithmetic the loop of [angle_transform] keeps
    sin a = +/- sin or cos (angle); the real sine and cosine are those of
    the Standard Library. *)

From Stdlib Require Import Rbase Rtrigo_def.
From Stdlib Require Cos_plus Rtrigo1.

(** The value the flags stand for at the real angle [r]: plus or minus the
    sine or the cosine of [r]. *)
Definition ideal (st : reduction) (r : R) : R :=
  ((if sign st then 1 else -1) * (if sin_cos st then sin r else cos r))%R.

(** The quarter turns the loop adds, less those it subtracts. *)
Fixpoint turns (fuel : nat) (st : reduction) : Z :=
  if outside (angle st) then
    match fuel with
    | O => 0%Z
    | S n =>
        Z.add (if angle st <? (- M_PI) / 4 then 1%Z else (-1)%Z) (turns n (body st))
    end
  else 0%Z.

(** ** An order-preserving integer key *)

Local Open Scope Z_scope.

(** [Zval] extended to the infinities, which lie beyond every finite value. *)
Definition Zkey (x : spec_float) : Z :=
  match x with
  | S754_infinity s => cond_Zopp s (2 ^ 2100)
  | _ => Zval x
  end.

(** The significand of M_PI, of M_PI/2 and of M_PI/4. *)
Definition pi_m : Z := 7074237752028440.

(** After [k] right shifts of the significand M: twice M is
    2^k (2 m + r) + t with t below 2^k, and the sticky bit says whether t
    is positive. *)
Definition shr_inv (M k : Z) (mrs : shr_record) : Prop :=
  0 <= shr_m mrs
  /\ exists t, 0 <= t < 2 ^ k
       /\ 2 * M = 2 ^ k * (2 * shr_m mrs + Z.b2z (shr_r mrs)) + t
       /\ shr_s mrs = (0 <? t).

(** A finite double whose magnitude, in multiples of 2^-1074, is at most
    [B]. *)
Definition small (x : float) (B : Z) : Prop :=
  is_finite_sf (Prim2SF x) = true /\ (Z.abs (FV x) <= B)%Z.

Local Close Scope Z_scope.


(** * Facts about binary64 arithmetic

    The primitive operations are specified by [SpecFloat]; the facts below
    are read off that specification. *)

Section Binary64.

Local Open Scope Z_scope.

Lemma SFmul_comm (x y : spec_float) : SF64mul x y = SF64mul y x.
Proof.
  unfold SF64mul, SFmul.
  destruct x as [sx|sx| |sx mx ex], y as [sy|sy| |sy my ey];
    try reflexivity; try (now rewrite xorb_comm).
  now rewrite xorb_comm, Pos.mul_comm, Z.add_comm.
Qed.

Lemma SFcompare_antisym (x y : spec_float) :
  SFcompare y x = option_map CompOpp (SFcompare x y).
Proof.
  destruct x as [sx|sx| |sx mx ex], y as [sy|sy| |sy my ey]; simpl;
    try reflexivity;
    try (destruct sx; reflexivity); try (destruct sy; reflexivity);
    try (destruct sx, sy; reflexivity).
  destruct sx, sy; simpl; try reflexivity;
    rewrite (Z.compare_antisym ex ey);
    destruct (ex ?= ey); simpl; try reflexivity;
    now rewrite (Pos.compare_cont_antisym mx my Eq).
Qed.

Lemma SFcompare_nan (x y : spec_float) :
  is_nan_sf x = false -> is_nan_sf y = false -> SFcompare x y <> None.
Proof.
  destruct x, y; simpl; intros; congruence.
Qed.

Lemma SFcompare_some (x y : spec_float) (c : comparison) :
  SFcompare x y = Some c -> is_nan_sf x = false /\ is_nan_sf y = false.
Proof.
  destruct x, y; simpl; intros; split; congruence.
Qed.

(** Rounding never produces a NaN from a nonnegative significand. *)

Lemma shr_1_nonneg (mrs : shr_record) :
  0 <= shr_m mrs -> 0 <= shr_m (shr_1 mrs).
Proof.
  destruct mrs as [m r s]; simpl.
  destruct m as [|p|p]; [ | destruct p | ]; simpl; lia.
Qed.

Lemma iter_pos_invariant {A : Type} (P : A -> Prop) (f : A -> A) :
  (forall a, P a -> P (f a)) ->
  forall (n : positive) (a : A), P a -> P (SpecFloat.iter_pos f n a).
Proof.
  intros Hf; induction n as [n IH|n IH| ]; intros a Ha; simpl; auto.
Qed.

Lemma shr_fexp_nonneg (m e : Z) (l : location) :
  0 <= m -> 0 <= shr_m (fst (shr_fexp prec emax m e l)).
Proof.
  intros Hm; unfold shr_fexp, shr.
  assert (H0 : 0 <= shr_m (shr_record_of_loc m l))
    by (destruct l as [|[ | | ]]; exact Hm).
  destruct (fexp prec emax (Zdigits2 m + e) - e) as [|p|p]; simpl; auto.
  now apply (iter_pos_invariant (fun r => 0 <= shr_m r)), H0; apply shr_1_nonneg.
Qed.

Lemma round_nearest_even_nonneg (m : Z) (l : location) :
  0 <= m -> 0 <= round_nearest_even m l.
Proof.
  destruct l as [|[ | | ]]; simpl; try destruct (Z.even m); lia.
Qed.

Lemma binary_round_aux_not_nan (sx : bool) (mx ex : Z) (lx : location) :
  0 <= mx -> is_nan_sf (binary_round_aux prec emax sx mx ex lx) = false.
Proof.
  intros Hm; unfold binary_round_aux.
  pose proof (shr_fexp_nonneg mx ex lx Hm) as H1.
  destruct (shr_fexp prec emax mx ex lx) as [mrs' e']; simpl in H1.
  pose proof (shr_fexp_nonneg _ e' loc_Exact
                (round_nearest_even_nonneg _ (loc_of_shr_record mrs') H1)) as H2.
  destruct (shr_fexp prec emax _ e' loc_Exact) as [mrs'' e'']; simpl in H2.
  destruct (shr_m mrs'') as [|p|p]; try reflexivity; [ | lia].
  now destruct (e'' <=? emax - prec).
Qed.

Lemma binary_normalize_not_nan (m e : Z) (szero : bool) :
  is_nan_sf (binary_normalize prec emax m e szero) = false.
Proof.
  destruct m as [|p|p]; simpl; try reflexivity; unfold binary_round;
    destruct (shl_align _ _ _) as [mz ez]; now apply binary_round_aux_not_nan.
Qed.

Lemma SFadd_not_nan (x : spec_float) (sy : bool) (my : positive) (ey : Z) :
  is_nan_sf x = false -> is_nan_sf (SF64add x (S754_finite sy my ey)) = false.
Proof.
  unfold SF64add, SFadd; destruct x as [sx|sx| |sx mx ex]; intros Hx;
    try reflexivity; try discriminate.
  apply binary_normalize_not_nan.
Qed.

Lemma SFsub_not_nan (x : spec_float) (sy : bool) (my : positive) (ey : Z) :
  is_nan_sf x = false -> is_nan_sf (SF64sub x (S754_finite sy my ey)) = false.
Proof.
  unfold SF64sub, SFsub; destruct x as [sx|sx| |sx mx ex]; intros Hx;
    try reflexivity; try discriminate.
  apply binary_normalize_not_nan.
Qed.

(** Multiplying a valid number by one gives it back. *)

Lemma shr_fexp_canonical (mx : positive) (ex : Z) :
  fexp prec emax (Z.pos (digits2_pos mx) + ex) = ex ->
  shr_fexp prec emax (Z.pos mx) ex loc_Exact
  = ({| shr_m := Z.pos mx; shr_r := false; shr_s := false |}, ex).
Proof.
  intros Hc; unfold shr_fexp.
  change (Zdigits2 (Z.pos mx)) with (Z.pos (digits2_pos mx)).
  now rewrite Hc, Z.sub_diag.
Qed.

Lemma shr_fexp_times_2p52 (mx : positive) (ex : Z) :
  fexp prec emax (Z.pos (digits2_pos mx) + ex) = ex ->
  shr_fexp prec emax (Z.pos (4503599627370496 * mx)) (ex + -52) loc_Exact
  = ({| shr_m := Z.pos mx; shr_r := false; shr_s := false |}, ex).
Proof.
  intros Hc; unfold shr_fexp.
  change (Zdigits2 (Z.pos (4503599627370496 * mx)))
    with (Z.pos (digits2_pos (4503599627370496 * mx))).
  cbn [Pos.mul digits2_pos].
  match goal with
  | |- context [fexp prec emax ?a] =>
      replace a with (Z.pos (digits2_pos mx) + ex) by lia
  end.
  rewrite Hc; replace (ex - (ex + -52)) with 52 by lia.
  unfold shr; cbn [SpecFloat.iter_pos shr_1 shr_record_of_loc orb].
  f_equal; lia.
Qed.

Lemma SFmul_one (x : spec_float) :
  valid_binary x = true ->
  SF64mul x (S754_finite false 4503599627370496 (-52)) = x.
Proof.
  unfold SF64mul, SFmul; destruct x as [sx|sx| |sx mx ex]; simpl;
    try (intros _; now rewrite ?xorb_false_r).
  unfold bounded, canonical_mantissa.
  intros H; apply andb_prop in H; destruct H as [Hc He].
  apply Z.eqb_eq in Hc.
  rewrite xorb_false_r, Pos.mul_comm.
  unfold binary_round_aux.
  rewrite (shr_fexp_times_2p52 mx ex Hc).
  cbn [shr_m loc_of_shr_record round_nearest_even].
  rewrite (shr_fexp_canonical mx ex Hc).
  cbn [shr_m]. now rewrite He.
Qed.

(** ** The integer value of a specification float *)

Lemma digits2_pos_bounds (m : positive) :
  2 ^ (Z.pos (digits2_pos m) - 1) <= Z.pos m < 2 ^ Z.pos (digits2_pos m).
Proof.
  induction m as [m IH|m IH| ]; simpl digits2_pos.
  - rewrite Pos2Z.inj_succ, Z.pow_succ_r by lia.
    replace (Z.succ (Z.pos (digits2_pos m)) - 1) with (Z.succ (Z.pos (digits2_pos m) - 1)) by lia.
    rewrite Z.pow_succ_r by lia. lia.
  - rewrite Pos2Z.inj_succ, Z.pow_succ_r by lia.
    replace (Z.succ (Z.pos (digits2_pos m)) - 1) with (Z.succ (Z.pos (digits2_pos m) - 1)) by lia.
    rewrite Z.pow_succ_r by lia. lia.
  - simpl. lia.
Qed.

Lemma bounded_facts (m : positive) (e : Z) :
  bounded prec emax m e = true ->
  -1074 <= e <= 971 /\ Z.pos m < 2 ^ 53 /\ (-1074 < e -> 2 ^ 52 <= Z.pos m).
Proof.
  unfold bounded, canonical_mantissa, fexp, SpecFloat.emin, prec, emax.
  intros H; apply andb_prop in H; destruct H as [Hc He].
  apply Z.eqb_eq in Hc; apply Z.leb_le in He.
  pose proof (digits2_pos_bounds m) as [Hlo Hhi].
  assert (Hd : Z.pos (digits2_pos m) <= 53) by lia.
  split; [lia | split].
  - eapply Z.lt_le_trans; [exact Hhi | apply Z.pow_le_mono_r; lia].
  - intros Hn. assert (Z.pos (digits2_pos m) = 53) as E by lia.
    rewrite E in Hlo. exact Hlo.
Qed.

Lemma pow2_pos (k : Z) : 0 <= k -> 0 < 2 ^ k.
Proof. intros; apply Z.pow_pos_nonneg; lia. Qed.

Lemma magnitude_compare (m1 m2 : positive) (e1 e2 : Z) :
  bounded prec emax m1 e1 = true -> bounded prec emax m2 e2 = true ->
  match e1 ?= e2 with
  | Lt => Lt
  | Gt => Gt
  | Eq => Pos.compare_cont Eq m1 m2
  end = (Z.pos m1 * 2 ^ (e1 + 1074) ?= Z.pos m2 * 2 ^ (e2 + 1074)).
Proof.
  intros H1 H2.
  apply bounded_facts in H1; destruct H1 as (He1 & Hm1 & Hn1).
  apply bounded_facts in H2; destruct H2 as (He2 & Hm2 & Hn2).
  destruct (Z.compare_spec e1 e2) as [E|L|G].
  - subst e2.
    rewrite <- Zmult_compare_compat_r
      by (apply Z.lt_gt, pow2_pos; lia).
    reflexivity.
  - symmetry; apply Z.compare_lt_iff.
    replace (e2 + 1074) with ((e2 - e1) + (e1 + 1074)) by lia.
    rewrite (Z.pow_add_r 2 (e2 - e1) (e1 + 1074)) by lia.
    assert (Ht : 0 < 2 ^ (e1 + 1074)) by (apply pow2_pos; lia).
    assert (Hs : 2 ^ 1 <= 2 ^ (e2 - e1)) by (apply Z.pow_le_mono_r; lia).
    specialize (Hn2 ltac:(lia)).
    change (2 ^ 1) with 2 in Hs.
    change (2 ^ 53) with 9007199254740992 in Hm1.
    change (2 ^ 52) with 4503599627370496 in Hn2.
    set (t := 2 ^ (e1 + 1074)) in *; set (s := 2 ^ (e2 - e1)) in *.
    assert (9007199254740992 <= Z.pos m2 * s) by nia.
    nia.
  - symmetry; apply Z.compare_gt_iff.
    replace (e1 + 1074) with ((e1 - e2) + (e2 + 1074)) by lia.
    rewrite (Z.pow_add_r 2 (e1 - e2) (e2 + 1074)) by lia.
    assert (Ht : 0 < 2 ^ (e2 + 1074)) by (apply pow2_pos; lia).
    assert (Hs : 2 ^ 1 <= 2 ^ (e1 - e2)) by (apply Z.pow_le_mono_r; lia).
    specialize (Hn1 ltac:(lia)).
    change (2 ^ 1) with 2 in Hs.
    change (2 ^ 53) with 9007199254740992 in Hm2.
    change (2 ^ 52) with 4503599627370496 in Hn1.
    set (t := 2 ^ (e2 + 1074)) in *; set (s := 2 ^ (e1 - e2)) in *.
    assert (9007199254740992 <= Z.pos m1 * s) by nia.
    nia.
Qed.

Ltac value_sign :=
  cbn [cond_Zopp];
  first [ apply Z.compare_lt_iff | apply Z.compare_gt_iff | apply Z.compare_eq_iff ];
  lia.

Lemma SFcompare_Zval (x y : spec_float) :
  valid_binary x = true -> valid_binary y = true ->
  is_finite_sf x = true -> is_finite_sf y = true ->
  SFcompare x y = Some (Zval x ?= Zval y).
Proof.
  destruct x as [sx|sx| |sx mx ex], y as [sy|sy| |sy my ey];
    cbn [SFcompare Zval SpecFloat.valid_binary is_finite_sf];
    intros Vx Vy Fx Fy; try discriminate; try reflexivity.
  - pose proof (bounded_facts _ _ Vy) as (He & _ & _).
    assert (0 < Z.pos my * 2 ^ (ey + 1074))
      by (apply Z.mul_pos_pos; [lia | apply pow2_pos; lia]).
    f_equal; symmetry; destruct sy; value_sign.
  - pose proof (bounded_facts _ _ Vx) as (He & _ & _).
    assert (0 < Z.pos mx * 2 ^ (ex + 1074))
      by (apply Z.mul_pos_pos; [lia | apply pow2_pos; lia]).
    f_equal; symmetry; destruct sx; value_sign.
  - pose proof (bounded_facts _ _ Vx) as (Hex & _ & _).
    pose proof (bounded_facts _ _ Vy) as (Hey & _ & _).
    assert (0 < Z.pos mx * 2 ^ (ex + 1074))
      by (apply Z.mul_pos_pos; [lia | apply pow2_pos; lia]).
    assert (0 < Z.pos my * 2 ^ (ey + 1074))
      by (apply Z.mul_pos_pos; [lia | apply pow2_pos; lia]).
    pose proof (magnitude_compare mx my ex ey Vx Vy) as Hm.
    f_equal; destruct sx, sy; cbn [cond_Zopp].
    + rewrite Z.compare_opp.
      rewrite (Z.compare_antisym (Z.pos mx * 2 ^ (ex + 1074))), <- Hm.
      now destruct (ex ?= ey).
    + symmetry; value_sign.
    + symmetry; value_sign.
    + rewrite <- Hm. now destruct (ex ?= ey).
Qed.

(** Shifting right. *)

Lemma shr_1_m (mrs : shr_record) :
  0 <= shr_m mrs -> shr_m (shr_1 mrs) = shr_m mrs / 2.
Proof.
  destruct mrs as [m r s]; cbn [shr_m]; intros Hm.
  destruct m as [|[p|p| ]|p]; cbn [shr_1 shr_m]; try reflexivity.
  - apply Z.div_unique with (r := 1); lia.
  - apply Z.div_unique with (r := 0); lia.
  - lia.
Qed.

Lemma iter_shr_1_nonneg (n : positive) (mrs : shr_record) :
  0 <= shr_m mrs -> 0 <= shr_m (SpecFloat.iter_pos shr_1 n mrs).
Proof.
  apply (iter_pos_invariant (fun r => 0 <= shr_m r)), shr_1_nonneg.
Qed.

Lemma iter_shr_1_m (n : positive) :
  forall mrs, 0 <= shr_m mrs ->
    shr_m (SpecFloat.iter_pos shr_1 n mrs) = shr_m mrs / 2 ^ Z.pos n.
Proof.
  induction n as [n IH|n IH| ]; intros mrs Hm; cbn [SpecFloat.iter_pos].
  - rewrite IH by (apply iter_shr_1_nonneg, shr_1_nonneg, Hm).
    rewrite IH by (apply shr_1_nonneg, Hm).
    rewrite shr_1_m by exact Hm.
    assert (Hp : 0 < 2 ^ Z.pos n) by (apply pow2_pos; lia).
    rewrite !Z.div_div by lia.
    replace (Z.pos n~1) with (1 + (Z.pos n + Z.pos n)) by lia.
    rewrite (Z.pow_add_r 2 1), (Z.pow_add_r 2 (Z.pos n)) by lia.
    change (2 ^ 1) with 2. f_equal; lia.
  - rewrite IH by (apply iter_shr_1_nonneg, Hm).
    rewrite IH by exact Hm.
    assert (Hp : 0 < 2 ^ Z.pos n) by (apply pow2_pos; lia).
    rewrite Z.div_div by lia.
    replace (Z.pos n~0) with (Z.pos n + Z.pos n) by lia.
    now rewrite (Z.pow_add_r 2 (Z.pos n)) by lia.
  - now rewrite shr_1_m.
Qed.

Lemma shr_fexp_m (m e : Z) (l : location) :
  0 <= m ->
  shr_m (fst (shr_fexp prec emax m e l)) = m / 2 ^ shift_count m e
  /\ snd (shr_fexp prec emax m e l) = e + shift_count m e.
Proof.
  intros Hm; unfold shr_fexp, shift_count, shr.
  assert (H0 : shr_m (shr_record_of_loc m l) = m)
    by (destruct l as [|[ | | ]]; reflexivity).
  destruct (fexp prec emax (Zdigits2 m + e) - e) as [|p|p]; cbn [fst snd].
  - rewrite H0, Z.max_id. change (2 ^ 0) with 1. rewrite Z.div_1_r. lia.
  - rewrite iter_shr_1_m by lia. rewrite H0.
    replace (Z.max 0 (Z.pos p)) with (Z.pos p) by lia. lia.
  - rewrite H0. replace (Z.max 0 (Z.neg p)) with 0 by lia.
    change (2 ^ 0) with 1. rewrite Z.div_1_r. lia.
Qed.

Lemma shr_fexp_exact (m e : Z) :
  shift_count m e = 0 ->
  shr_fexp prec emax m e loc_Exact
  = ({| shr_m := m; shr_r := false; shr_s := false |}, e).
Proof.
  unfold shr_fexp, shift_count, shr; intros H.
  destruct (fexp prec emax (Zdigits2 m + e) - e) as [|p|p];
    try reflexivity; lia.
Qed.

Lemma round_nearest_even_bounds (m : Z) (l : location) :
  m <= round_nearest_even m l <= m + 1.
Proof.
  destruct l as [|[ | | ]]; simpl; try destruct (Z.even m); lia.
Qed.

Lemma iter_xO_value (m k : positive) :
  Z.pos (Pos.iter xO m k) = Z.pos m * 2 ^ Z.pos k.
Proof.
  apply Pos.iter_ind with (P := fun p a => Z.pos a = Z.pos m * 2 ^ Z.pos p).
  - change (2 ^ 1) with 2; lia.
  - intros p a IH. rewrite Pos2Z.inj_succ, Z.pow_succ_r by lia. lia.
Qed.

Lemma iter_xO_digits (m k : positive) :
  Z.pos (digits2_pos (Pos.iter xO m k)) = Z.pos (digits2_pos m) + Z.pos k.
Proof.
  apply Pos.iter_ind
    with (P := fun p a => Z.pos (digits2_pos a) = Z.pos (digits2_pos m) + Z.pos p).
  - cbn [digits2_pos]; lia.
  - intros p a IH; cbn [digits2_pos]; lia.
Qed.

Lemma Zdigits2_le (m k : Z) :
  0 <= m -> 0 <= k -> m <= 2 ^ k -> Zdigits2 m <= k + 1.
Proof.
  intros Hm Hk Hle; destruct m as [|p|p]; cbn [Zdigits2]; try lia.
  pose proof (digits2_pos_bounds p) as [Hlo _].
  assert (H : 2 ^ (Z.pos (digits2_pos p) - 1) <= 2 ^ k) by lia.
  apply Z.pow_le_mono_r_iff in H; lia.
Qed.

(** What [binary_round_aux] returns on an exact positive significand. *)
Lemma binary_round_aux_bound (sx : bool) (M : positive) (e : Z) :
  -1074 <= e ->
  let n := shift_count (Z.pos M) e in
  let r := binary_round_aux prec emax sx (Z.pos M) e loc_Exact in
  Z.abs (Zval r)
  <= (Z.pos M / 2 ^ n + (if n =? 0 then 0 else 1)) * 2 ^ (e + n + 1074).
Proof.
  intros He n r; subst r; unfold binary_round_aux.
  pose proof (shr_fexp_m (Z.pos M) e loc_Exact ltac:(lia)) as [Hm1 He1].
  fold n in Hm1, He1.
  assert (Hn : 0 <= n) by (unfold n, shift_count; lia).
  assert (Hpn : 0 < 2 ^ n) by (apply pow2_pos; lia).
  assert (Hq : 0 <= Z.pos M / 2 ^ n) by (apply Z.div_pos; lia).
  assert (Hround :
    let mrs' := fst (shr_fexp prec emax (Z.pos M) e loc_Exact) in
    Z.pos M / 2 ^ n
    <= round_nearest_even (shr_m mrs') (loc_of_shr_record mrs')
    <= Z.pos M / 2 ^ n + (if n =? 0 then 0 else 1)).
  { cbv zeta. destruct (Z.eqb_spec n 0) as [E|E].
    - rewrite (shr_fexp_exact _ _ E) in *. cbn [fst shr_m loc_of_shr_record round_nearest_even] in *.
      lia.
    - rewrite Hm1. apply round_nearest_even_bounds. }
  destruct (shr_fexp prec emax (Z.pos M) e loc_Exact) as [mrs' e'].
  cbn [fst snd] in *. subst e'.
  set (m1 := round_nearest_even (shr_m mrs') (loc_of_shr_record mrs')) in *.
  pose proof (shr_fexp_m m1 (e + n) loc_Exact ltac:(lia)) as [Hm2 He2].
  set (n2 := shift_count m1 (e + n)) in *.
  assert (Hn2 : 0 <= n2) by (unfold n2, shift_count; lia).
  assert (Hpn2 : 0 < 2 ^ n2) by (apply pow2_pos; lia).
  destruct (shr_fexp prec emax m1 (e + n) loc_Exact) as [mrs'' e''].
  cbn [fst snd] in *. subst e''.
  assert (Hbound : 0 <= (Z.pos M / 2 ^ n + (if n =? 0 then 0 else 1)) * 2 ^ (e + n + 1074)).
  { apply Z.mul_nonneg_nonneg; [destruct (n =? 0); lia | apply Z.lt_le_incl, pow2_pos; lia]. }
  destruct (shr_m mrs'') as [|m|m] eqn:Em; cbn [Zval Z.abs]; try exact Hbound.
  destruct (e + n + n2 <=? emax - prec); cbn [Zval]; [ | exact Hbound].
  assert (Hm : Z.pos m * 2 ^ n2 <= m1)
    by (rewrite Hm2, Z.mul_comm; apply Z.mul_div_le; lia).
  replace (e + n + n2 + 1074) with (n2 + (e + n + 1074)) by lia.
  rewrite Z.pow_add_r by lia.
  assert (Ht : 0 < 2 ^ (e + n + 1074)) by (apply pow2_pos; lia).
  assert (Habs : Z.abs (cond_Zopp sx (Z.pos m * (2 ^ n2 * 2 ^ (e + n + 1074))))
                 = Z.pos m * 2 ^ n2 * 2 ^ (e + n + 1074))
    by (destruct sx; cbn [cond_Zopp]; nia).
  rewrite Habs.
  apply Z.mul_le_mono_nonneg_r; lia.
Qed.

Lemma binary_round_aux_finite (sx : bool) (M : positive) (e : Z) :
  -1074 <= e ->
  e + shift_count (Z.pos M) e <= 970 ->
  Z.pos (digits2_pos M) + e <= 1023 ->
  is_finite_sf (binary_round_aux prec emax sx (Z.pos M) e loc_Exact) = true.
Proof.
  intros He Hen Hd; unfold binary_round_aux.
  pose proof (shr_fexp_m (Z.pos M) e loc_Exact ltac:(lia)) as [Hm1 He1].
  set (n := shift_count (Z.pos M) e) in *.
  assert (Hn : 0 <= n <= Z.pos (digits2_pos M)).
  { unfold n, shift_count, fexp, SpecFloat.emin, prec, emax; cbn [Zdigits2]; lia. }
  assert (Hpn : 0 < 2 ^ n) by (apply pow2_pos; lia).
  pose proof (digits2_pos_bounds M) as [_ HM].
  assert (Hq : Z.pos M / 2 ^ n < 2 ^ (Z.pos (digits2_pos M) - n)).
  { apply Z.div_lt_upper_bound; [lia | ].
    rewrite <- Z.pow_add_r by lia.
    now replace (n + (Z.pos (digits2_pos M) - n)) with (Z.pos (digits2_pos M)) by lia. }
  assert (Hq0 : 0 <= Z.pos M / 2 ^ n) by (apply Z.div_pos; lia).
  destruct (shr_fexp prec emax (Z.pos M) e loc_Exact) as [mrs' e'].
  cbn [fst snd] in *. subst e'.
  pose proof (round_nearest_even_bounds (shr_m mrs') (loc_of_shr_record mrs')) as Hr.
  set (m1 := round_nearest_even (shr_m mrs') (loc_of_shr_record mrs')) in *.
  rewrite Hm1 in Hr.
  pose proof (shr_fexp_m m1 (e + n) loc_Exact ltac:(lia)) as [Hm2 He2].
  assert (Hd1 : Zdigits2 m1 <= Z.pos (digits2_pos M) - n + 1)
    by (apply Zdigits2_le; lia).
  set (n2 := shift_count m1 (e + n)) in *.
  assert (Hn2 : 0 <= n2 /\ e + n + n2 <= 971).
  { unfold n2, shift_count, fexp, SpecFloat.emin, prec, emax; lia. }
  assert (Hpn2 : 0 < 2 ^ n2) by (apply pow2_pos; lia).
  destruct (shr_fexp prec emax m1 (e + n) loc_Exact) as [mrs'' e''].
  cbn [fst snd] in *. subst e''.
  assert (H0 : 0 <= shr_m mrs'') by (rewrite Hm2; apply Z.div_pos; lia).
  destruct (shr_m mrs'') as [|m|m]; try reflexivity; [ | lia].
  replace (e + n + n2 <=? emax - prec) with true; [reflexivity | ].
  symmetry; apply Z.leb_le; unfold emax, prec; lia.
Qed.

Lemma shift_count_aligned (mx k : positive) (ex : Z) :
  fexp prec emax (Z.pos (digits2_pos mx) + ex) - ex = Z.neg k ->
  shift_count (Z.pos (Pos.iter xO mx k))
    (fexp prec emax (Z.pos (digits2_pos mx) + ex)) = 0.
Proof.
  intros Hk; unfold shift_count; cbn [Zdigits2].
  rewrite iter_xO_digits.
  replace (Z.pos (digits2_pos mx) + Z.pos k
           + fexp prec emax (Z.pos (digits2_pos mx) + ex))
    with (Z.pos (digits2_pos mx) + ex) by lia.
  lia.
Qed.

Lemma binary_round_bound (sx : bool) (mx : positive) (ex : Z) :
  -1074 <= ex ->
  let n := shift_count (Z.pos mx) ex in
  Z.abs (Zval (binary_round prec emax sx mx ex))
  <= (Z.pos mx / 2 ^ n + (if n =? 0 then 0 else 1)) * 2 ^ (ex + n + 1074).
Proof.
  intros He n; unfold binary_round, shl_align.
  set (f := fexp prec emax (Z.pos (digits2_pos mx) + ex)).
  destruct (f - ex) as [|k|k] eqn:Hk;
    try (apply binary_round_aux_bound; exact He).
  assert (Hf : -1074 <= f)
    by (unfold f, fexp, SpecFloat.emin, prec, emax; lia).
  pose proof (binary_round_aux_bound sx (Pos.iter xO mx k) f Hf) as H.
  pose proof (shift_count_aligned mx k ex Hk) as Hs; fold f in Hs.
  cbv zeta in H. rewrite Hs in H.
  set (r := binary_round_aux prec emax sx (Z.pos (Pos.iter xO mx k)) f loc_Exact) in *.
  assert (En : n = 0) by (unfold n, shift_count; cbn [Zdigits2]; fold f; lia).
  rewrite En. cbn [Z.eqb] in *.
  change (2 ^ 0) with 1 in *. rewrite Z.div_1_r in *.
  rewrite iter_xO_value in H.
  replace (ex + 0 + 1074) with (Z.pos k + (f + 0 + 1074)) by lia.
  rewrite Z.pow_add_r by lia.
  eapply Z.le_trans; [exact H | apply Z.eq_le_incl; ring].
Qed.

Lemma binary_round_finite (sx : bool) (mx : positive) (ex : Z) :
  -1074 <= ex ->
  Z.pos (digits2_pos mx) + ex <= 1023 ->
  is_finite_sf (binary_round prec emax sx mx ex) = true.
Proof.
  intros He Hd; unfold binary_round, shl_align.
  set (f := fexp prec emax (Z.pos (digits2_pos mx) + ex)).
  assert (Hf : -1074 <= f <= 970)
    by (unfold f, fexp, SpecFloat.emin, prec, emax; lia).
  destruct (f - ex) as [|k|k] eqn:Hk.
  - apply binary_round_aux_finite; try lia.
    unfold shift_count; cbn [Zdigits2]; fold f; lia.
  - apply binary_round_aux_finite; try lia.
    unfold shift_count; cbn [Zdigits2]; fold f; lia.
  - apply binary_round_aux_finite; try lia.
    + pose proof (shift_count_aligned mx k ex Hk) as Hs; fold f in Hs.
      rewrite Hs; lia.
    + rewrite iter_xO_digits; lia.
Qed.

Lemma shift_count_small (M e : Z) :
  -1074 <= e -> Z.abs M < 2 ^ 53 -> shift_count (Z.abs M) e = 0.
Proof.
  intros He HM; unfold shift_count, fexp, SpecFloat.emin, prec, emax.
  assert (Zdigits2 (Z.abs M) <= 53); [ | lia].
  destruct M as [|p|p]; cbn [Z.abs Zdigits2] in *; try lia;
    pose proof (digits2_pos_bounds p) as [Hlo _];
    assert (H : 2 ^ (Z.pos (digits2_pos p) - 1) < 2 ^ 53) by lia;
    apply Z.pow_lt_mono_r_iff in H; lia.
Qed.

Lemma shift_count_large (M e : Z) :
  -1074 <= e ->
  shift_count (Z.abs M) e <> 0 ->
  2 ^ shift_count (Z.abs M) e * 2 ^ 52 <= Z.abs M.
Proof.
  unfold shift_count, fexp, SpecFloat.emin, prec, emax; intros He Hn.
  destruct M as [|p|p]; cbn [Z.abs Zdigits2] in *; try lia;
    pose proof (digits2_pos_bounds p) as [Hlo _];
    (replace (Z.max 0 (Z.max (Z.pos (digits2_pos p) + e - 53) (3 - 1024 - 53) - e))
       with (Z.pos (digits2_pos p) - 53) by lia);
    rewrite <- Z.pow_add_r by lia;
    (replace (Z.pos (digits2_pos p) - 53 + 52) with (Z.pos (digits2_pos p) - 1) by lia);
    exact Hlo.
Qed.

Lemma binary_normalize_error (M e : Z) :
  -1074 <= e ->
  let r := binary_normalize prec emax M e false in
  let V := Z.abs M * 2 ^ (e + 1074) in
  Z.abs (Zval r) * 2 ^ 52 <= V * (2 ^ 52 + 1)
  /\ (Z.abs M < 2 ^ 53 -> Z.abs (Zval r) <= V).
Proof.
  intros He r V.
  set (n := shift_count (Z.abs M) e).
  assert (Ht : 0 < 2 ^ (e + 1074)) by (apply pow2_pos; lia).
  assert (Hn : 0 <= n) by (unfold n, shift_count; lia).
  assert (Hpn : 0 < 2 ^ n) by (apply pow2_pos; lia).
  assert (Hb : Z.abs (Zval r)
               <= (Z.abs M / 2 ^ n + (if n =? 0 then 0 else 1)) * 2 ^ (e + n + 1074)).
  { subst r n; destruct M as [|p|p]; cbn [binary_normalize Z.abs].
    - cbn [Zval Z.abs]. apply Z.mul_nonneg_nonneg.
      + destruct (_ =? 0); cbn; lia.
      + apply Z.lt_le_incl, pow2_pos; unfold shift_count; lia.
    - apply binary_round_bound, He.
    - apply binary_round_bound, He. }
  replace (e + n + 1074) with (n + (e + 1074)) in Hb by lia.
  rewrite Z.pow_add_r in Hb by lia.
  assert (Hdiv : Z.abs M / 2 ^ n * 2 ^ n <= Z.abs M)
    by (rewrite Z.mul_comm; apply Z.mul_div_le; lia).
  set (t := 2 ^ (e + 1074)) in *. set (s := 2 ^ n) in *.
  set (q := Z.abs M / s) in *.
  assert (HV : V = Z.abs M * t) by reflexivity.
  destruct (Z.eqb_spec n 0) as [E|E].
  - assert (Es : s = 1) by (unfold s; rewrite E; reflexivity).
    rewrite Es in *.
    assert (Z.abs (Zval r) <= V) by nia.
    split; [ | tauto]. change (2 ^ 52) with 4503599627370496. nia.
  - pose proof (shift_count_large M e He E) as Hl. fold n s in Hl.
    change (2 ^ 52) with 4503599627370496 in *.
    split.
    + assert (Z.abs (Zval r) <= (Z.abs M + s) * t) by nia.
      assert ((Z.abs M + s) * 4503599627370496 <= Z.abs M * (4503599627370496 + 1)) by lia.
      nia.
    + intros HM. exfalso. apply E. now apply shift_count_small.
Qed.

Lemma binary_normalize_finite (M e : Z) :
  -1074 <= e <= 971 ->
  Z.abs M * 2 ^ (e + 1074) < 2 ^ 2074 ->
  is_finite_sf (binary_normalize prec emax M e false) = true.
Proof.
  intros He HV.
  assert (Hd : forall p, Z.abs M = Z.pos p -> Z.pos (digits2_pos p) + e <= 1023).
  { intros p Ep. rewrite Ep in HV.
    pose proof (digits2_pos_bounds p) as [Hlo _].
    assert (Ht : 0 < 2 ^ (e + 1074)) by (apply pow2_pos; lia).
    assert (H : 2 ^ (Z.pos (digits2_pos p) - 1 + (e + 1074)) < 2 ^ 2074).
    { rewrite Z.pow_add_r by lia. nia. }
    apply Z.pow_lt_mono_r_iff in H; lia. }
  destruct M as [|p|p]; cbn [binary_normalize]; try reflexivity;
    apply binary_round_finite; try lia; apply Hd; reflexivity.
Qed.

(** Addition and subtraction of two finite numbers. *)

Lemma shl_align_value (mx : positive) (ex ez : Z) :
  ez <= ex -> Z.pos (fst (shl_align mx ex ez)) = Z.pos mx * 2 ^ (ex - ez).
Proof.
  intros H; unfold shl_align.
  destruct (ez - ex) as [|k|k] eqn:Hk; cbn [fst]; try lia.
  - replace (ex - ez) with 0 by lia. change (2 ^ 0) with 1. lia.
  - rewrite iter_xO_value. now replace (ex - ez) with (Z.pos k) by lia.
Qed.

Lemma aligned_value (s : bool) (m : positive) (e ez : Z) :
  -1074 <= ez <= e ->
  cond_Zopp s (Z.pos (fst (shl_align m e ez))) * 2 ^ (ez + 1074)
  = Zval (S754_finite s m e).
Proof.
  intros H; rewrite shl_align_value by lia; cbn [Zval].
  replace (e + 1074) with ((e - ez) + (ez + 1074)) by lia.
  rewrite (Z.pow_add_r 2 (e - ez)) by lia.
  destruct s; cbn [cond_Zopp]; ring.
Qed.

Section FiniteOperands.

Variables (sx sy : bool) (mx my : positive) (ex ey : Z).
Hypothesis Vx : bounded prec emax mx ex = true.
Hypothesis Vy : bounded prec emax my ey = true.

Let x := S754_finite sx mx ex.
Let y := S754_finite sy my ey.

Lemma normalize_error_finite (M V : Z) :
  M * 2 ^ (Z.min ex ey + 1074) = V ->
  let r := binary_normalize prec emax M (Z.min ex ey) false in
  Z.abs (Zval r) * 2 ^ 52 <= Z.abs V * (2 ^ 52 + 1)
  /\ (Z.abs V < 2 ^ 53 * 2 ^ (Z.min ex ey + 1074) -> Z.abs (Zval r) <= Z.abs V)
  /\ (Z.abs V < 2 ^ 2074 -> is_finite_sf r = true).
Proof.
  intros HV r.
  pose proof (bounded_facts _ _ Vx) as (Hex & _ & _).
  pose proof (bounded_facts _ _ Vy) as (Hey & _ & _).
  assert (He : -1074 <= Z.min ex ey <= 971) by lia.
  assert (Ht : 0 < 2 ^ (Z.min ex ey + 1074)) by (apply pow2_pos; lia).
  assert (Habs : Z.abs V = Z.abs M * 2 ^ (Z.min ex ey + 1074))
    by (rewrite <- HV, Z.abs_mul, (Z.abs_eq (2 ^ _)); lia).
  pose proof (binary_normalize_error M (Z.min ex ey) ltac:(lia)) as [HR HE].
  fold r in HR, HE. rewrite Habs.
  split; [exact HR | split].
  - intros Hs; apply HE.
    apply Z.mul_lt_mono_pos_r with (p := 2 ^ (Z.min ex ey + 1074));
      [exact Ht | exact Hs].
  - intros Hs; apply binary_normalize_finite; lia.
Qed.

Lemma SFsub_error :
  let r := SF64sub x y in
  let V := Zval x - Zval y in
  Z.abs (Zval r) * 2 ^ 52 <= Z.abs V * (2 ^ 52 + 1)
  /\ (Z.abs V < 2 ^ 53 * 2 ^ (Z.min ex ey + 1074) -> Z.abs (Zval r) <= Z.abs V)
  /\ (Z.abs V < 2 ^ 2074 -> is_finite_sf r = true).
Proof.
  pose proof (bounded_facts _ _ Vx) as (Hex & _ & _).
  pose proof (bounded_facts _ _ Vy) as (Hey & _ & _).
  apply normalize_error_finite.
  rewrite Z.mul_sub_distr_r, !aligned_value by lia. reflexivity.
Qed.

Lemma SFadd_error :
  let r := SF64add x y in
  let V := Zval x + Zval y in
  Z.abs (Zval r) * 2 ^ 52 <= Z.abs V * (2 ^ 52 + 1)
  /\ (Z.abs V < 2 ^ 53 * 2 ^ (Z.min ex ey + 1074) -> Z.abs (Zval r) <= Z.abs V)
  /\ (Z.abs V < 2 ^ 2074 -> is_finite_sf r = true).
Proof.
  pose proof (bounded_facts _ _ Vx) as (Hex & _ & _).
  pose proof (bounded_facts _ _ Vy) as (Hey & _ & _).
  apply normalize_error_finite.
  rewrite Z.mul_add_distr_r, !aligned_value by lia. reflexivity.
Qed.

End FiniteOperands.

Lemma measure_decreases (W r : Z) :
  Zq < W <= 2 ^ 52 * 2 ^ 1074 ->
  r * 2 ^ 52 <= Z.abs (W - Zp) * (2 ^ 52 + 1) ->
  (Z.abs (W - Zp) < 2 ^ 1074 -> r <= Z.abs (W - Zp)) ->
  r < W.
Proof.
  unfold Zq, Zp.
  change (2 ^ 1074) with (9007199254740992 * 2 ^ 1021).
  change (2 ^ 1022) with (2 * 2 ^ 1021).
  change (2 ^ 52) with 4503599627370496.
  assert (Ht : 0 < 2 ^ 1021) by (apply pow2_pos; lia).
  set (t := 2 ^ 1021) in *. clearbody t.
  intros HW HR HE. lia.
Qed.

Lemma Zq_pos : 2 ^ 52 * 2 ^ 1021 <= Zq.
Proof.
  unfold Zq. change (2 ^ 52) with 4503599627370496.
  assert (0 < 2 ^ 1021) by (apply pow2_pos; lia). lia.
Qed.

Lemma reduce_step (s : bool) (mx : positive) (ex : Z) :
  bounded prec emax mx ex = true ->
  let x := S754_finite s mx ex in
  let r := if s then SF64add x half_pi_sf else SF64sub x half_pi_sf in
  Zq < Z.abs (Zval x) <= 2 ^ 52 * 2 ^ 1074 ->
  is_finite_sf r = true /\ Z.abs (Zval r) < Z.abs (Zval x).
Proof.
  intros Vx x r HW.
  pose proof (bounded_facts _ _ Vx) as (Hex & Hmx & _).
  assert (Vp : bounded prec emax 7074237752028440 (-52) = true) by reflexivity.
  assert (Ht : 0 < 2 ^ (ex + 1074)) by (apply pow2_pos; lia).
  assert (EW : Z.abs (Zval x) = Z.pos mx * 2 ^ (ex + 1074))
    by (subst x; destruct s; cbn [Zval cond_Zopp]; nia).
  (* the exponent of x is at least -53 *)
  assert (Hexp : -53 <= ex).
  { pose proof Zq_pos as Hq. rewrite EW in HW.
    assert (H : 2 ^ (52 + 1021) < 2 ^ (53 + (ex + 1074))).
    { rewrite !Z.pow_add_r by lia. nia. }
    apply Z.pow_lt_mono_r_iff in H; lia. }
  assert (Hexact : 2 ^ 1074 <= 2 ^ 53 * 2 ^ (Z.min ex (-52) + 1074)).
  { rewrite <- Z.pow_add_r by lia. apply Z.pow_le_mono_r; lia. }
  assert (HZp : Zval half_pi_sf = Zp) by reflexivity.
  assert (Hsmall : Z.abs (Z.abs (Zval x) - Zp) < 2 ^ 2074).
  { unfold Zp, Zq in *.
    change (2 ^ 2074) with (2 ^ 1053 * 2 ^ 1021).
    change (2 ^ 1074) with (2 ^ 53 * 2 ^ 1021) in HW.
    change (2 ^ 1022) with (2 * 2 ^ 1021).
    assert (0 < 2 ^ 1021) by (apply pow2_pos; lia).
    set (t := 2 ^ 1021) in *. clearbody t.
    change (2 ^ 52) with 4503599627370496 in HW.
    change (2 ^ 53) with 9007199254740992 in HW.
    assert (2 ^ 105 <= 2 ^ 1053) by (apply Z.pow_le_mono_r; lia).
    change (2 ^ 105) with 40564819207303340847894502572032 in *.
    nia. }
  destruct s; subst r.
  - pose proof (SFadd_error true false mx 7074237752028440 ex (-52) Vx Vp)
      as (HR & HE & HF).
    cbv zeta in HR, HE, HF. fold x half_pi_sf in HR, HE, HF.
    rewrite HZp in HR, HE, HF.
    assert (EV : Z.abs (Zval x + Zp) = Z.abs (Z.abs (Zval x) - Zp))
      by (subst x; cbn [Zval cond_Zopp] in *; lia).
    rewrite EV in HR, HE, HF.
    split; [apply HF, Hsmall | ].
    apply measure_decreases; [exact HW | exact HR | ].
    intros H; apply HE; lia.
  - pose proof (SFsub_error false false mx 7074237752028440 ex (-52) Vx Vp)
      as (HR & HE & HF).
    cbv zeta in HR, HE, HF. fold x half_pi_sf in HR, HE, HF.
    rewrite HZp in HR, HE, HF.
    assert (EV : Z.abs (Zval x - Zp) = Z.abs (Z.abs (Zval x) - Zp))
      by (subst x; cbn [Zval cond_Zopp] in *; lia).
    rewrite EV in HR, HE, HF.
    split; [apply HF, Hsmall | ].
    apply measure_decreases; [exact HW | exact HR | ].
    intros H; apply HE; lia.
Qed.

End Binary64.

(** The same facts on primitive floats. *)

Lemma SFcompare_refl (x : spec_float) :
  is_nan_sf x = false -> SFcompare x x = Some Eq.
Proof.
  destruct x as [sx|sx| |sx mx ex]; simpl; intros Hx;
    try reflexivity; try discriminate.
  - now destruct sx.
  - destruct sx; now rewrite Z.compare_refl, Pos.compare_cont_refl.
Qed.

Lemma is_nan_spec (x : float) : is_nan x = is_nan_sf (Prim2SF x).
Proof.
  unfold is_nan; rewrite FloatAxioms.eqb_spec; unfold SFeqb.
  destruct (is_nan_sf (Prim2SF x)) eqn:Hx.
  - now destruct (Prim2SF x).
  - now rewrite SFcompare_refl.
Qed.

Lemma mul_comm (x y : float) : x * y = y * x.
Proof.
  apply Prim2SF_inj; rewrite !mul_spec; apply SFmul_comm.
Qed.

Lemma mul_one (x : float) : x * 1 = x.
Proof.
  apply Prim2SF_inj; rewrite mul_spec.
  change (Prim2SF 1) with (S754_finite false 4503599627370496 (-52)).
  apply SFmul_one, Prim2SF_valid.
Qed.

Lemma ltb_true_not_nan (x y : float) :
  (x <? y) = true -> is_nan x = false /\ is_nan y = false.
Proof.
  rewrite ltb_spec, !is_nan_spec; unfold SFltb.
  destruct (SFcompare (Prim2SF x) (Prim2SF y)) as [c|] eqn:Hc;
    [ | discriminate].
  intros _; exact (SFcompare_some _ _ _ Hc).
Qed.

Lemma leb_true_ltb_false (x y : float) :
  (x <=? y) = true -> (y <? x) = false.
Proof.
  rewrite leb_spec, ltb_spec; unfold SFleb, SFltb.
  rewrite (SFcompare_antisym (Prim2SF x) (Prim2SF y)).
  now destruct (SFcompare (Prim2SF x) (Prim2SF y)) as [[ | | ]|].
Qed.

Lemma ltb_false_leb_true (x y : float) :
  is_nan x = false -> is_nan y = false -> (y <? x) = false -> (x <=? y) = true.
Proof.
  rewrite leb_spec, ltb_spec, !is_nan_spec; unfold SFleb, SFltb.
  intros Hx Hy; pose proof (SFcompare_nan _ _ Hx Hy) as Hc.
  rewrite (SFcompare_antisym (Prim2SF x) (Prim2SF y)).
  now destruct (SFcompare (Prim2SF x) (Prim2SF y)) as [[ | | ]|].
Qed.

Lemma add_half_pi_not_nan (x : float) :
  is_nan x = false -> is_nan (x + M_PI / 2) = false.
Proof.
  rewrite !is_nan_spec, add_spec.
  change (Prim2SF (M_PI / 2)) with (S754_finite false 7074237752028440 (-52)).
  apply SFadd_not_nan.
Qed.

Lemma sub_half_pi_not_nan (x : float) :
  is_nan x = false -> is_nan (x - M_PI / 2) = false.
Proof.
  rewrite !is_nan_spec, sub_spec.
  change (Prim2SF (M_PI / 2)) with (S754_finite false 7074237752028440 (-52)).
  apply SFsub_not_nan.
Qed.

Lemma is_finite_not_nan (x : float) : is_finite x = true -> is_nan x = false.
Proof.
  unfold is_finite; intros H; apply negb_true_iff, orb_false_iff in H; tauto.
Qed.

(** * Range reduction *)

Lemma in_range_not_outside (a : float) : in_range a = true -> outside a = false.
Proof.
  unfold in_range, outside; intros H; apply andb_prop in H; destruct H as [Hl Hu].
  now rewrite (leb_true_ltb_false _ _ Hl), (leb_true_ltb_false _ _ Hu).
Qed.

Lemma not_outside_in_range (a : float) :
  is_nan a = false -> outside a = false -> in_range a = true.
Proof.
  unfold in_range, outside; intros Ha H; apply orb_false_iff in H; destruct H as [Hu Hl].
  rewrite (ltb_false_leb_true a (M_PI / 4) Ha eq_refl Hu).
  now rewrite (ltb_false_leb_true (- M_PI / 4) a eq_refl Ha Hl).
Qed.

Lemma outside_not_nan (a : float) : outside a = true -> is_nan a = false.
Proof.
  unfold outside; intros H; apply orb_prop in H; destruct H as [H|H];
    apply ltb_true_not_nan in H; tauto.
Qed.

Lemma body_not_nan (st : reduction) :
  is_nan (angle st) = false -> is_nan (angle (body st)) = false.
Proof.
  intros H; unfold body; destruct (angle st <? - M_PI / 4); simpl.
  - now apply add_half_pi_not_nan.
  - now apply sub_half_pi_not_nan.
Qed.

Lemma while_exit_in_range (fuel : nat) :
  forall st st', is_nan (angle st) = false ->
    while fuel st = Ok st' -> in_range (angle st') = true.
Proof.
  induction fuel as [|n IH]; intros st st' Hn; simpl;
    destruct (outside (angle st)) eqn:Ho; try discriminate.
  - intros E; injection E as <-; now apply not_outside_in_range.
  - apply IH, body_not_nan, Hn.
  - intros E; injection E as <-; now apply not_outside_in_range.
Qed.

(** A state the loop cannot leave: the angle is outside the interval and the
    body gives the same angle back. *)
Lemma while_stuck (a : float) :
  outside a = true ->
  (forall st, angle st = a -> angle (body st) = a) ->
  forall fuel st, angle st = a -> while fuel st = OutOfFuel.
Proof.
  intros Ho Hb; induction fuel as [|n IH]; intros st Ha; simpl; rewrite Ha, Ho.
  - reflexivity.
  - apply IH, Hb, Ha.
Qed.

Lemma body_huge (st : reduction) : angle st = huge -> angle (body st) = huge.
Proof.
  intros Ha; unfold body; rewrite Ha.
  change (huge <? - M_PI / 4) with false; simpl; now rewrite Ha.
Qed.

Lemma while_huge (fuel : nat) (st : reduction) :
  angle st = huge -> while fuel st = OutOfFuel.
Proof.
  apply (while_stuck huge); [reflexivity | exact body_huge].
Qed.

(** ** Termination on angles up to 2^52

    Outside the interval one turn of the body brings the angle strictly
    closer to zero, as long as its magnitude is at most 2^52: the integer
    [Z.abs (FV angle)] decreases, so the loop stops. *)

Lemma ltb_FV (x y : float) :
  is_finite_sf (Prim2SF x) = true -> is_finite_sf (Prim2SF y) = true ->
  (x <? y) = true -> (FV x < FV y)%Z.
Proof.
  intros Fx Fy; rewrite ltb_spec; unfold SFltb, FV.
  rewrite SFcompare_Zval by (auto using Prim2SF_valid).
  destruct (Z.compare_spec (Zval (Prim2SF x)) (Zval (Prim2SF y)));
    try discriminate; auto.
Qed.

(** One turn of the loop body from a finite angle outside the interval and
    not above 2^52 in magnitude. *)
Lemma body_measure (st : reduction) :
  is_finite_sf (Prim2SF (angle st)) = true ->
  (Z.abs (FV (angle st)) <= 2 ^ 52 * 2 ^ 1074)%Z ->
  outside (angle st) = true ->
  is_finite_sf (Prim2SF (angle (body st))) = true
  /\ (Z.abs (FV (angle (body st))) < Z.abs (FV (angle st)))%Z.
Proof.
  intros Hf Hb Ho; unfold body, outside in *.
  assert (Fq : is_finite_sf (Prim2SF (M_PI / 4)) = true) by reflexivity.
  assert (Fnq : is_finite_sf (Prim2SF (- M_PI / 4)) = true) by reflexivity.
  destruct (angle st <? - M_PI / 4) eqn:Hl; cbn [angle step_add step_sub].
  - pose proof (ltb_FV _ _ Hf Fnq Hl) as Hlt.
    change (FV (- M_PI / 4)) with (- Zq)%Z in Hlt.
    unfold FV in *. rewrite add_spec.
    change (Prim2SF (M_PI / 2)) with half_pi_sf.
    pose proof (Prim2SF_valid (angle st)) as Hv.
    destruct (Prim2SF (angle st)) as [s|s| |s m e];
      cbn [is_finite_sf] in Hf; try discriminate.
    destruct s.
    + apply (reduce_step true m e Hv). lia.
    + exfalso. cbn [Zval cond_Zopp] in Hlt.
      pose proof (bounded_facts _ _ Hv) as (He & _ & _).
      assert (0 < 2 ^ (e + 1074))%Z by (apply pow2_pos; lia).
      pose proof Zq_pos. assert (0 < 2 ^ 1021)%Z by (apply pow2_pos; lia). nia.
  - rewrite orb_false_r in Ho.
    pose proof (ltb_FV _ _ Fq Hf Ho) as Hlt.
    change (FV (M_PI / 4)) with Zq in Hlt.
    unfold FV in *. rewrite sub_spec.
    change (Prim2SF (M_PI / 2)) with half_pi_sf.
    pose proof (Prim2SF_valid (angle st)) as Hv.
    destruct (Prim2SF (angle st)) as [s|s| |s m e];
      cbn [is_finite_sf] in Hf; try discriminate.
    destruct s.
    + exfalso. cbn [Zval cond_Zopp] in Hlt.
      pose proof (bounded_facts _ _ Hv) as (He & _ & _).
      assert (0 < 2 ^ (e + 1074))%Z by (apply pow2_pos; lia).
      pose proof Zq_pos. assert (0 < 2 ^ 1021)%Z by (apply pow2_pos; lia). nia.
    + apply (reduce_step false m e Hv). lia.
Qed.

Lemma while_terminates (n : nat) :
  forall st,
    is_finite_sf (Prim2SF (angle st)) = true ->
    (Z.abs (FV (angle st)) <= 2 ^ 52 * 2 ^ 1074)%Z ->
    (Z.abs (FV (angle st)) < Z.of_nat n)%Z ->
    exists fuel st', while fuel st = Ok st'.
Proof.
  induction n as [|n IH]; intros st Hf Hb Hn; [lia | ].
  destruct (outside (angle st)) eqn:Ho.
  - destruct (body_measure st Hf Hb Ho) as [Hf' Hlt].
    destruct (IH (body st) Hf' ltac:(lia) ltac:(lia)) as (fuel & st' & Hrun).
    exists (S fuel), st'. cbn [while]. now rewrite Ho.
  - exists O, st. cbn [while]. now rewrite Ho.
Qed.

Lemma abs_leb_bound (a : float) :
  (abs a <=? 0x1p52) = true ->
  is_finite_sf (Prim2SF a) = true /\ (Z.abs (FV a) <= 2 ^ 52 * 2 ^ 1074)%Z.
Proof.
  rewrite leb_spec, abs_spec; unfold SFleb, FV.
  change (Prim2SF 0x1p52) with (S754_finite false 4503599627370496 0).
  pose proof (Prim2SF_valid a) as Hv.
  destruct (Prim2SF a) as [s|s| |s m e]; cbn [SFabs].
  - intros _; split; [reflexivity | ].
    cbn [Zval Z.abs]. apply Z.mul_nonneg_nonneg; apply Z.lt_le_incl, pow2_pos; lia.
  - cbn [SFcompare]; discriminate.
  - cbn [SFcompare]; discriminate.
  - rewrite SFcompare_Zval by (auto; reflexivity).
    pose proof (bounded_facts _ _ Hv) as (He & _ & _).
    assert (0 < 2 ^ (e + 1074))%Z by (apply pow2_pos; lia).
    assert (E : Z.abs (Zval (S754_finite s m e)) = Zval (S754_finite false m e))
      by (destruct s; cbn [Zval cond_Zopp]; nia).
    rewrite E.
    change (Zval (S754_finite false 4503599627370496 0)) with (2 ^ 52 * 2 ^ 1074)%Z.
    destruct (Z.compare_spec (Zval (S754_finite false m e)) (2 ^ 52 * 2 ^ 1074)%Z);
      intros; try discriminate; split; try reflexivity; lia.
Qed.

(** On every double of magnitude at most 2^52 the loop stops, and it leaves
    an angle in the interval. *)
Lemma angle_transform_terminates (a : float) :
  (abs a <=? 0x1p52) = true ->
  exists fuel st, angle_transform fuel a = Ok st /\ in_range (angle st) = true.
Proof.
  intros H; apply abs_leb_bound in H; destruct H as [Hf Hb].
  destruct (while_terminates (Z.to_nat (Z.abs (FV a) + 1)) (start a))
    as (fuel & st & Hrun); cbn [start angle]; auto; try lia.
  exists fuel, st; split; [exact Hrun | ].
  apply (while_exit_in_range fuel (start a) st); [ | exact Hrun].
  rewrite is_nan_spec; cbn [start angle].
  now destruct (Prim2SF a).
Qed.

(** Two runs of the whole pipeline: the angle 0 is left alone and gives 0;
    M_PI/2 takes one subtraction, selects the cosine and gives 1. *)
Example reconstruct_zero :
  angle_transform 0 0 = Ok (start 0)
  /\ reconstruct 0 [0; 0; 0; 0] [0; 0; 0; 0] = Ok [0; 0; 0; 0].
Proof. split; reflexivity. Qed.

Example reconstruct_half_pi :
  angle_transform 1 (M_PI / 2) = Ok {| angle := 0; sign := true; sin_cos := false |}
  /\ reconstruct 1 [0; 0; 0; 0] [M_PI / 2; M_PI / 2; M_PI / 2; M_PI / 2]
     = Ok [1; 1; 1; 1].
Proof. split; reflexivity. Qed.

(** The error measure on a small pair of buffers. *)
Example err_sample : err [1; 2; 3; 4] [1; 2.5; 3; 3.75] 4 = Ok 0.5.
Proof. reflexivity. Qed.

(** C2: when [angle_transform] returns on a finite angle, the angle it leaves
    lies in the closed interval from -M_PI/4 to M_PI/4. *)
Theorem angle_transform_in_range (fuel : nat) (a : float) (st : reduction) :
  is_finite a = true ->
  angle_transform fuel a = Ok st ->
  in_range (angle st) = true.
Proof.
  intros Hf; apply while_exit_in_range; simpl; now apply is_finite_not_nan.
Qed.

Lemma angle_transform_in_range_witness :
  is_finite 10 = true /\
  angle_transform 6 10 =
    Ok {| angle := 10 - M_PI / 2 - M_PI / 2 - M_PI / 2 - M_PI / 2 - M_PI / 2 - M_PI / 2;
          sign := false; sin_cos := true |} /\
  in_range (10 - M_PI / 2 - M_PI / 2 - M_PI / 2 - M_PI / 2 - M_PI / 2 - M_PI / 2) = true.
Proof.
  split; [reflexivity | split; [reflexivity | ]].
  apply (angle_transform_in_range 6 10
           {| angle := 10 - M_PI / 2 - M_PI / 2 - M_PI / 2 - M_PI / 2 - M_PI / 2 - M_PI / 2;
              sign := false; sin_cos := true |}); reflexivity.
Defined.

(** C3: on the finite double 10^17 the loop of [angle_transform] does not
    terminate: whatever number of iterations is allowed, it is still running.
    The claim says it terminates on every finite double. *)
Theorem angle_transform_huge_diverges (fuel : nat) :
  is_finite huge = true /\ angle_transform fuel huge = OutOfFuel.
Proof.
  split; [reflexivity | now apply while_huge].
Qed.

(** C5: an angle already in the closed interval, the two ends M_PI/4 and
    -M_PI/4 included, comes back unchanged with both flags true.  This holds
    for every amount of fuel, zero included: the loop body is never run. *)
Theorem angle_transform_idempotent (a : float) (fuel : nat) :
  in_range a = true ->
  angle_transform fuel a = Ok {| angle := a; sign := true; sin_cos := true |}.
Proof.
  intros H; apply in_range_not_outside in H.
  destruct fuel; unfold angle_transform; simpl; now rewrite H.
Qed.

Lemma angle_transform_idempotent_witness :
  (in_range (M_PI / 4) = true
   /\ angle_transform 0 (M_PI / 4)
      = Ok {| angle := M_PI / 4; sign := true; sin_cos := true |})
  /\ (in_range (- M_PI / 4) = true
      /\ angle_transform 0 (- M_PI / 4)
         = Ok {| angle := - M_PI / 4; sign := true; sin_cos := true |}).
Proof.
  split; (split; [reflexivity | ]).
  - apply (angle_transform_idempotent (M_PI / 4) 0 eq_refl).
  - apply (angle_transform_idempotent (- M_PI / 4) 0 eq_refl).
Defined.

(** C1: a batch that holds the finite double 10^17 is never reconstructed:
    range reduction is still running after any number of iterations, so no
    value comes out to be compared with the sine of the input.  The claim
    promises a value within 1e-9 of it for every finite angle. *)
Theorem reconstruct_huge_diverges (fuel : nat) (sinx : list float) :
  reconstruct fuel sinx [huge; 0; 0; 0] = OutOfFuel.
Proof.
  unfold reconstruct; simpl reduce_batch.
  unfold angle_transform at 1; now rewrite while_huge.
Qed.

(** * The input 3 pi / 4 *)

Lemma angle_transform_three_quarter_pi (fuel : nat) :
  angle_transform (S fuel) three_quarter_pi
  = Ok {| angle := M_PI / 4; sign := true; sin_cos := false |}.
Proof.
  destruct fuel; reflexivity.
Qed.

Lemma quarter_pi_positive : M_PI / 4 <> - (M_PI / 4).
Proof.
  intros E.
  assert (H : (0 <? M_PI / 4) = (0 <? - (M_PI / 4))) by now rewrite <- E.
  discriminate H.
Qed.

(** C6, as the claim has it: the reduced angle of 3 pi / 4 would be -pi/4.
    No run of [angle_transform] on 3 pi / 4 leaves -M_PI/4. *)
Lemma three_quarter_pi_not_reduced_to_minus_quarter_pi :
  ~ exists fuel st,
      angle_transform fuel three_quarter_pi = Ok st
      /\ angle st = - (M_PI / 4).
Proof.
  intros (fuel & st & Hrun & Hangle).
  destruct fuel as [|n].
  - discriminate Hrun.
  - rewrite angle_transform_three_quarter_pi in Hrun.
    injection Hrun as <-. now apply quarter_pi_positive.
Qed.

(** C6, amended: on 3 pi / 4 the loop body runs exactly once, through the
    subtraction branch, and leaves the angle +M_PI/4 with the selector on
    cosine and the sign positive; the cosine polynomial at that angle, with
    that sign, is within 1e-9 of the square root of one half, which is the
    sine of 3 pi / 4 (about 0.707). *)
Theorem angle_transform_three_quarter_pi_one_step (fuel : nat) (sinx0 sinx1 sinx2 sinx3 : float) :
  angle_transform 0 three_quarter_pi = OutOfFuel
  /\ angle_transform (S fuel) three_quarter_pi = Ok (step_sub (start three_quarter_pi))
  /\ step_sub (start three_quarter_pi)
     = {| angle := M_PI / 4; sign := true; sin_cos := false |}
  /\ reconstruct (S fuel) [sinx0; sinx1; sinx2; sinx3]
       [three_quarter_pi; three_quarter_pi; three_quarter_pi; three_quarter_pi]
     = Ok (repeat (taylor_cos (M_PI / 4) * 1) 4)
  /\ (abs (taylor_cos (M_PI / 4) * 1 - sqrt 0.5) <? 1 / 1e9) = true
  /\ (707 / 1000 <? taylor_cos (M_PI / 4) * 1) = true
  /\ (taylor_cos (M_PI / 4) * 1 <? 708 / 1000) = true.
Proof.
  repeat split; try reflexivity; destruct fuel; reflexivity.
Qed.

(** * The polynomials *)

(** Products are commuted until the ladder of the code reads as the ladder
    of the specification. *)
Ltac ladder x :=
  cbv zeta;
  rewrite ?(mul_comm x (x * x));
  rewrite ?(mul_comm (x * x * x) (x * x));
  rewrite ?(mul_comm (x * x * (x * x * x)) (x * x));
  rewrite ?(mul_comm (x * x * (x * x * (x * x * x))) (x * x));
  rewrite ?(mul_comm (x * x * (x * x * (x * x * (x * x * x)))) (x * x));
  rewrite ?(mul_comm _ c2), ?(mul_comm _ c3), ?(mul_comm _ c4),
    ?(mul_comm _ c5), ?(mul_comm _ c6), ?(mul_comm _ c7), ?(mul_comm _ c8),
    ?(mul_comm _ c9), ?(mul_comm _ c10), ?(mul_comm _ c11);
  reflexivity.

Lemma taylor_sin_spec (x : float) : taylor_sin x = Spec.sin_poly x.
Proof. unfold taylor_sin, Spec.sin_poly; ladder x. Qed.

Lemma taylor_cos_spec (x : float) : taylor_cos x = Spec.cos_poly x.
Proof. unfold taylor_cos, Spec.cos_poly; ladder x. Qed.

Lemma sin_deg3_spec (x : float) : x + x * (x * x) * c3 = Spec.sin_deg3 x.
Proof. unfold Spec.sin_deg3; ladder x. Qed.

Lemma vector_sin_spec (x : float) :
  x + x * (x * x) * c3
    + x * x * (x * (x * x)) * c5
    + x * x * (x * x * (x * (x * x))) * c7
    + x * x * (x * x * (x * x * (x * (x * x)))) * c9
    + x * x * (x * x * (x * x * (x * x * (x * (x * x))))) * c11
  = Spec.sin_poly x.
Proof. unfold Spec.sin_poly; ladder x. Qed.

Lemma sin4_taylor_no_selector (sinx0 sinx1 sinx2 sinx3 x0 x1 x2 x3 : float)
    (sign_vec : option (list bool)) :
  sin4_taylor [sinx0; sinx1; sinx2; sinx3] [x0; x1; x2; x3] sign_vec None
  = Ok (map Spec.sin_poly [x0; x1; x2; x3]).
Proof.
  cbv [sin4_taylor for_loop set_and_false bind load defined nth_error store
       Nat.add map].
  now rewrite !mul_one, !taylor_sin_spec.
Qed.

Lemma sin4_vector_lanes (sinx0 sinx1 sinx2 sinx3 x0 x1 x2 x3 : float) :
  sin4_vector [sinx0; sinx1; sinx2; sinx3] [x0; x1; x2; x3]
  = Ok (map Spec.sin_poly [x0; x1; x2; x3]).
Proof.
  cbv [sin4_vector Vec4.LoadAligned Vec4.StoreAligned Vec4.mul Vec4.add
       Vec4.broadcast load_lanes store_lanes lanewise repeat combine map
       fst snd bind load defined nth_error store].
  now rewrite !vector_sin_spec.
Qed.

(** C10: with [sin_cos_vec] null, [sin4_taylor] stores the degree-11 sine
    polynomial of every lane, not negated, whatever [sign_vec] is: null, too
    short or holding any flags, it is not read. *)
Theorem sin4_taylor_null_selector
    (sinx0 sinx1 sinx2 sinx3 x0 x1 x2 x3 : float) (sign_vec : option (list bool)) :
  sin4_taylor [sinx0; sinx1; sinx2; sinx3] [x0; x1; x2; x3] sign_vec None
  = Ok [Spec.sin_poly x0; Spec.sin_poly x1; Spec.sin_poly x2; Spec.sin_poly x3].
Proof.
  apply sin4_taylor_no_selector.
Qed.

(** C8: on every batch [sin4_vector] and [sin4_taylor] without flag arrays
    store the same doubles, lane for lane: the degree-11 sine polynomial.
    Equal results are in particular equal up to rounding. *)
Theorem sin4_vector_equals_taylor (sinx0 sinx1 sinx2 sinx3 x0 x1 x2 x3 : float) :
  sin4_vector [sinx0; sinx1; sinx2; sinx3] [x0; x1; x2; x3]
  = sin4_taylor [sinx0; sinx1; sinx2; sinx3] [x0; x1; x2; x3] None None
  /\ sin4_vector [sinx0; sinx1; sinx2; sinx3] [x0; x1; x2; x3]
     = Ok [Spec.sin_poly x0; Spec.sin_poly x1; Spec.sin_poly x2; Spec.sin_poly x3].
Proof.
  rewrite sin4_vector_lanes, sin4_taylor_no_selector; split; reflexivity.
Qed.

(** C7: compiled for AVX or for SSE2, [sin4_intrin] stores x + c3 x^3 in
    every lane; compiled for neither, it stores what [sin4_reference] stores,
    the platform sine of every lane. *)
Theorem sin4_intrin_lanes (sin : float -> float) (hw : isa)
    (sinx0 sinx1 sinx2 sinx3 x0 x1 x2 x3 : float) :
  sin4_intrin sin hw [sinx0; sinx1; sinx2; sinx3] [x0; x1; x2; x3]
  = match hw with
    | AVX | SSE2 =>
        Ok [Spec.sin_deg3 x0; Spec.sin_deg3 x1; Spec.sin_deg3 x2; Spec.sin_deg3 x3]
    | NoSIMD => sin4_reference sin [sinx0; sinx1; sinx2; sinx3] [x0; x1; x2; x3]
    end
  /\ sin4_reference sin [sinx0; sinx1; sinx2; sinx3] [x0; x1; x2; x3]
     = Ok [sin x0; sin x1; sin x2; sin x3].
Proof.
  split; [ | reflexivity].
  destruct hw; [ | | reflexivity];
    cbv [sin4_intrin _mm256_load_pd _mm256_mul_pd _mm256_add_pd _mm256_set1_pd
         _mm256_store_pd _mm_load_pd _mm_mul_pd _mm_add_pd _mm_set1_pd
         _mm_store_pd for_loop load_lanes store_lanes lanewise repeat combine
         map fst snd bind load defined nth_error store Nat.add];
    now rewrite !sin_deg3_spec.
Qed.

(** The vector cosine stores one more than the cosine polynomial. *)
Lemma cos4_vector_lanes (cosx0 cosx1 cosx2 cosx3 x0 x1 x2 x3 : float) :
  cos4_vector [cosx0; cosx1; cosx2; cosx3] [x0; x1; x2; x3]
  = Ok (map (fun x => 1 + Spec.cos_poly x) [x0; x1; x2; x3]).
Proof.
  rewrite <- (map_ext _ _ (fun x => f_equal (add 1) (taylor_cos_spec x))).
  reflexivity.
Qed.

(** C4: on the batch of four zeros [cos4_vector] stores 2 in every lane,
    where the degree-10 cosine polynomial of the claim is 1. *)
Theorem cos4_vector_at_zero (cosx0 cosx1 cosx2 cosx3 : float) :
  cos4_vector [cosx0; cosx1; cosx2; cosx3] [0; 0; 0; 0] = Ok [2; 2; 2; 2]
  /\ map Spec.cos_poly [0; 0; 0; 0] = [1; 1; 1; 1].
Proof.
  split; reflexivity.
Qed.

(** * More facts about binary64 arithmetic

    Negation, the order, and subtraction of a number from itself; they serve
    the statements about the error measure and about the symmetry of the
    range reduction. *)

Section Binary64Symmetry.

Local Open Scope Z_scope.

Lemma SFmul_neg_one (x : spec_float) :
  valid_binary x = true ->
  SF64mul x (S754_finite true 4503599627370496 (-52)) = SFopp x.
Proof.
  unfold SF64mul, SFmul; destruct x as [sx|sx| |sx mx ex]; simpl;
    try (intros _; now rewrite ?xorb_true_r).
  unfold bounded, canonical_mantissa.
  intros H; apply andb_prop in H; destruct H as [Hc He].
  apply Z.eqb_eq in Hc.
  rewrite xorb_true_r, Pos.mul_comm.
  unfold binary_round_aux.
  rewrite (shr_fexp_times_2p52 mx ex Hc).
  cbn [shr_m loc_of_shr_record round_nearest_even].
  rewrite (shr_fexp_canonical mx ex Hc).
  cbn [shr_m]. now rewrite He.
Qed.

Lemma SFmul_opp_opp (x y : spec_float) :
  SF64mul (SFopp x) (SFopp y) = SF64mul x y.
Proof.
  unfold SF64mul, SFmul.
  destruct x as [sx|sx| |sx mx ex], y as [sy|sy| |sy my ey]; cbn [SFopp];
    try reflexivity; now destruct sx, sy.
Qed.

Lemma Zval_small (s : bool) (m : positive) (e : Z) :
  bounded prec emax m e = true ->
  - 2 ^ 2100 < Zval (S754_finite s m e) < 2 ^ 2100.
Proof.
  intros H; pose proof (bounded_facts _ _ H) as (He & Hm & _).
  assert (Ht : 0 < 2 ^ (e + 1074)) by (apply pow2_pos; lia).
  assert (Hp : 2 ^ (e + 1074) <= 2 ^ 2045) by (apply Z.pow_le_mono_r; lia).
  assert (Hb : Z.pos m * 2 ^ (e + 1074) < 2 ^ 53 * 2 ^ 2045) by nia.
  assert (Hc : 2 ^ 53 * 2 ^ 2045 < 2 ^ 2100).
  { rewrite <- Z.pow_add_r by lia. apply Z.pow_lt_mono_r; lia. }
  destruct s; cbn [Zval cond_Zopp]; lia.
Qed.

Lemma SFcompare_Zkey (x y : spec_float) :
  valid_binary x = true -> valid_binary y = true ->
  is_nan_sf x = false -> is_nan_sf y = false ->
  SFcompare x y = Some (Zkey x ?= Zkey y).
Proof.
  intros Vx Vy Nx Ny.
  assert (Hbig : 0 < 2 ^ 2100) by (apply pow2_pos; lia).
  destruct x as [sx|sx| |sx mx ex], y as [sy|sy| |sy my ey];
    try discriminate; cbn [Zkey];
    try (apply SFcompare_Zval; (assumption || reflexivity)).
  - now destruct sy.
  - now destruct sx.
  - now destruct sx, sy.
  - pose proof (Zval_small sy my ey Vy).
    destruct sx; cbn [SFcompare cond_Zopp]; f_equal; symmetry;
      [apply Z.compare_lt_iff | apply Z.compare_gt_iff]; lia.
  - pose proof (Zval_small sx mx ex Vx).
    destruct sy; cbn [SFcompare cond_Zopp]; f_equal; symmetry;
      [apply Z.compare_gt_iff | apply Z.compare_lt_iff]; lia.
Qed.

Lemma binary_round_aux_abs (s : bool) (m e : Z) (l : location) :
  SFabs (binary_round_aux prec emax s m e l)
  = SFabs (binary_round_aux prec emax false m e l).
Proof.
  unfold binary_round_aux.
  destruct (shr_fexp prec emax m e l) as [mrs' e'].
  destruct (shr_fexp prec emax _ e' loc_Exact) as [mrs'' e''].
  destruct (shr_m mrs''); try reflexivity.
  now destruct (e'' <=? emax - prec).
Qed.

Lemma binary_normalize_abs_opp (M e : Z) :
  SFabs (binary_normalize prec emax (- M) e false)
  = SFabs (binary_normalize prec emax M e false).
Proof.
  destruct M as [|p|p]; cbn [Z.opp binary_normalize]; try reflexivity;
    unfold binary_round; destruct (shl_align _ _ _) as [mz ez];
    now rewrite (binary_round_aux_abs true).
Qed.

Lemma SFsub_abs_comm (x y : spec_float) :
  SFabs (SF64sub x y) = SFabs (SF64sub y x).
Proof.
  unfold SF64sub, SFsub.
  destruct x as [sx|sx| |sx mx ex], y as [sy|sy| |sy my ey];
    try reflexivity; try (now destruct sx, sy).
  rewrite (Z.min_comm ey ex), <- binary_normalize_abs_opp.
  f_equal; f_equal; lia.
Qed.

Lemma SFsub_diag (x : spec_float) :
  SF64sub x x = S754_zero false \/ SF64sub x x = S754_nan.
Proof.
  unfold SF64sub, SFsub; destruct x as [sx|sx| |sx mx ex];
    try (destruct sx; auto; fail); auto.
  left. now rewrite Z.sub_diag.
Qed.

Lemma binary_round_aux_opp (s : bool) (m e : Z) (l : location) :
  binary_round_aux prec emax (negb s) m e l
  = SFopp (binary_round_aux prec emax s m e l).
Proof.
  unfold binary_round_aux.
  destruct (shr_fexp prec emax m e l) as [mrs' e'].
  destruct (shr_fexp prec emax _ e' loc_Exact) as [mrs'' e''].
  destruct (shr_m mrs''); try reflexivity.
  now destruct (e'' <=? emax - prec).
Qed.

Lemma binary_normalize_opp (M e : Z) :
  M <> 0 ->
  binary_normalize prec emax (- M) e false
  = SFopp (binary_normalize prec emax M e false).
Proof.
  destruct M as [|p|p]; intros H; [lia | | ]; cbn [Z.opp binary_normalize];
    unfold binary_round; destruct (shl_align _ _ _) as [mz ez].
  - exact (binary_round_aux_opp false _ _ _).
  - change true with (negb false) at 1.
    rewrite (binary_round_aux_opp false).
    now destruct (binary_round_aux _ _ _ _ _ _) as [[|]|[|]| |[|] ? ?].
Qed.

Lemma cond_Zopp_negb (s : bool) (m : Z) : cond_Zopp (negb s) m = - cond_Zopp s m.
Proof. destruct s; cbn [negb cond_Zopp]; lia. Qed.

Lemma SFsub_as_add (x y : spec_float) : SF64sub x y = SF64add x (SFopp y).
Proof.
  unfold SF64sub, SF64add, SFsub, SFadd.
  destruct x as [sx|sx| |sx mx ex], y as [sy|sy| |sy my ey]; cbn [SFopp];
    try reflexivity; now destruct sx, sy.
Qed.

Lemma SFadd_opp (u v : spec_float) :
  mirrored_sf (SF64add u v) (SF64add (SFopp u) (SFopp v)).
Proof.
  unfold SF64add, SFadd, mirrored_sf.
  destruct u as [su|su| |su mu eu], v as [sv|sv| |sv mv ev]; cbn [SFopp];
    try (left; reflexivity);
    try (destruct su, sv; cbn; auto; fail).
  rewrite !cond_Zopp_negb, <- Z.opp_add_distr.
  set (M := cond_Zopp su (Z.pos (fst (shl_align mu eu (Z.min eu ev))))
            + cond_Zopp sv (Z.pos (fst (shl_align mv ev (Z.min eu ev))))).
  destruct (Z.eq_dec M 0) as [E|E].
  - rewrite E; right; now split.
  - left; now apply binary_normalize_opp.
Qed.

Lemma SFadd_zero_l (u v : spec_float) :
  is_zero_sf u = true -> is_zero_sf v = false -> SF64add u v = v.
Proof. unfold SF64add, SFadd; destruct u, v; try discriminate; reflexivity. Qed.

Lemma SFadd_zero_zero (u v : spec_float) :
  is_zero_sf u = true -> is_zero_sf v = true -> is_zero_sf (SF64add u v) = true.
Proof.
  unfold SF64add, SFadd; destruct u as [su| | | ], v as [sv| | | ];
    try discriminate; now destruct su, sv.
Qed.

Lemma SFadd_comm (u v : spec_float) : SF64add u v = SF64add v u.
Proof.
  unfold SF64add, SFadd.
  destruct u as [su|su| |su mu eu], v as [sv|sv| |sv mv ev];
    try reflexivity; try (now destruct su, sv).
  now rewrite (Z.min_comm ev eu), Z.add_comm.
Qed.

Lemma is_zero_sf_opp (u : spec_float) : is_zero_sf (SFopp u) = is_zero_sf u.
Proof. now destruct u. Qed.

Lemma mirrored_sf_zero (u v : spec_float) :
  mirrored_sf u v -> is_zero_sf v = is_zero_sf u.
Proof.
  intros [-> | [-> ->]]; [apply is_zero_sf_opp | reflexivity].
Qed.

Lemma mirrored_sf_add (u u' v v' : spec_float) :
  mirrored_sf u u' -> mirrored_sf v v' ->
  mirrored_sf (SF64add u v) (SF64add u' v').
Proof.
  intros Hu Hv.
  pose proof (mirrored_sf_zero _ _ Hu) as Zu.
  pose proof (mirrored_sf_zero _ _ Hv) as Zv.
  destruct Hu as [-> | [Hu Hu']]; [destruct Hv as [-> | [Hv Hv']] | ].
  - apply SFadd_opp.
  - destruct (is_zero_sf u) eqn:Eu.
    + right; split; apply SFadd_zero_zero; auto; now rewrite is_zero_sf_opp.
    + rewrite (SFadd_comm u v), (SFadd_comm (SFopp u) v').
      rewrite !SFadd_zero_l; auto; try (now left); now rewrite is_zero_sf_opp.
  - destruct (is_zero_sf v) eqn:Ev.
    + right; split; apply SFadd_zero_zero; auto; now rewrite Zv.
    + rewrite !SFadd_zero_l; auto; now rewrite Zv.
Qed.

Lemma SFmul_opp_l (u v : spec_float) :
  SF64mul (SFopp u) v = SFopp (SF64mul u v).
Proof.
  unfold SF64mul, SFmul.
  destruct u as [su|su| |su mu eu], v as [sv|sv| |sv mv ev]; cbn [SFopp];
    try reflexivity; try (now destruct su, sv).
  rewrite <- binary_round_aux_opp. f_equal. now destruct su, sv.
Qed.

Lemma SFmul_zero_zero_l (u u' v : spec_float) :
  is_zero_sf u = true -> is_zero_sf u' = true ->
  mirrored_sf (SF64mul u v) (SF64mul u' v).
Proof.
  unfold SF64mul, SFmul, mirrored_sf.
  destruct u as [su| | | ], u' as [su'| | | ]; try discriminate; intros _ _.
  destruct v as [sv|sv| |sv mv ev]; auto.
Qed.

Lemma mirrored_sf_mul_l (u u' v : spec_float) :
  mirrored_sf u u' -> mirrored_sf (SF64mul u v) (SF64mul u' v).
Proof.
  intros [-> | [Hu Hu']].
  - left; apply SFmul_opp_l.
  - now apply SFmul_zero_zero_l.
Qed.

Lemma mirrored_sf_square (u u' : spec_float) :
  mirrored_sf u u' -> SF64mul u' u' = SF64mul u u.
Proof.
  intros [-> | [Hu Hu']].
  - apply SFmul_opp_opp.
  - unfold SF64mul, SFmul.
    destruct u as [su| | | ], u' as [su'| | | ]; try discriminate.
    now destruct su, su'.
Qed.

Lemma SFcompare_opp (x y : spec_float) :
  SFcompare (SFopp x) (SFopp y) = SFcompare y x.
Proof.
  rewrite (SFcompare_antisym x y).
  destruct x as [sx|sx| |sx mx ex], y as [sy|sy| |sy my ey]; cbn [SFopp SFcompare option_map];
    try reflexivity; try (now destruct sx); try (now destruct sy);
    try (now destruct sx, sy).
  destruct sx, sy; cbn [negb CompOpp]; try reflexivity;
    destruct (ex ?= ey); cbn [CompOpp]; try reflexivity.
  now rewrite CompOpp_involutive.
Qed.

End Binary64Symmetry.

Lemma mul_neg_one (x : float) : x * -1 = - x.
Proof.
  apply Prim2SF_inj; rewrite mul_spec, opp_spec.
  change (Prim2SF (-1)) with (S754_finite true 4503599627370496 (-52)).
  apply SFmul_neg_one, Prim2SF_valid.
Qed.

Lemma is_nan_Prim2SF (a : float) : is_nan a = true -> Prim2SF a = S754_nan.
Proof. rewrite is_nan_spec; now destruct (Prim2SF a). Qed.

(** The order on the numbers that are not NaN. *)

Lemma leb_Zkey (x y : float) :
  is_nan x = false -> is_nan y = false ->
  (x <=? y) = (Zkey (Prim2SF x) <=? Zkey (Prim2SF y))%Z.
Proof.
  rewrite !is_nan_spec, leb_spec; intros Hx Hy; unfold SFleb.
  rewrite SFcompare_Zkey by auto using Prim2SF_valid.
  unfold Z.leb. now destruct (Zkey (Prim2SF x) ?= Zkey (Prim2SF y))%Z.
Qed.

Lemma ltb_Zkey (x y : float) :
  is_nan x = false -> is_nan y = false ->
  (x <? y) = (Zkey (Prim2SF x) <? Zkey (Prim2SF y))%Z.
Proof.
  rewrite !is_nan_spec, ltb_spec; intros Hx Hy; unfold SFltb.
  rewrite SFcompare_Zkey by auto using Prim2SF_valid.
  unfold Z.ltb. now destruct (Zkey (Prim2SF x) ?= Zkey (Prim2SF y))%Z.
Qed.

Lemma leb_true_not_nan (x y : float) :
  (x <=? y) = true -> is_nan x = false /\ is_nan y = false.
Proof.
  rewrite leb_spec, !is_nan_spec; unfold SFleb.
  destruct (SFcompare (Prim2SF x) (Prim2SF y)) as [c|] eqn:Hc;
    [ | discriminate].
  intros _; exact (SFcompare_some _ _ _ Hc).
Qed.

Lemma leb_trans (x y z : float) :
  (x <=? y) = true -> (y <=? z) = true -> (x <=? z) = true.
Proof.
  intros Hxy Hyz.
  destruct (leb_true_not_nan _ _ Hxy) as [Nx Ny].
  destruct (leb_true_not_nan _ _ Hyz) as [_ Nz].
  rewrite leb_Zkey in * by assumption.
  apply Z.leb_le in Hxy, Hyz; apply Z.leb_le; lia.
Qed.

Lemma leb_refl (x : float) : is_nan x = false -> (x <=? x) = true.
Proof. intros H; rewrite leb_Zkey by assumption; apply Z.leb_refl. Qed.

Lemma ltb_leb (x y : float) : (x <? y) = true -> (x <=? y) = true.
Proof.
  intros H; destruct (ltb_true_not_nan _ _ H) as [Nx Ny].
  rewrite ltb_Zkey in H by assumption; rewrite leb_Zkey by assumption.
  apply Z.ltb_lt in H; apply Z.leb_le; lia.
Qed.

Lemma is_nan_abs (v : float) : is_nan (abs v) = is_nan v.
Proof. rewrite !is_nan_spec, abs_spec; now destruct (Prim2SF v). Qed.

Lemma abs_nonneg (v : float) : is_nan v = false -> (0 <=? abs v) = true.
Proof.
  rewrite is_nan_spec, leb_spec, abs_spec; unfold SFleb.
  change (Prim2SF 0) with (S754_zero false).
  now destruct (Prim2SF v).
Qed.

Lemma abs_sub_comm (a b : float) : abs (a - b) = abs (b - a).
Proof.
  apply Prim2SF_inj; rewrite !abs_spec, !sub_spec; apply SFsub_abs_comm.
Qed.

Lemma abs_sub_diag (v : float) : (0 <? abs (v - v)) = false.
Proof.
  rewrite ltb_spec, abs_spec, sub_spec; unfold SFltb.
  change (Prim2SF 0) with (S754_zero false).
  now destruct (SFsub_diag (Prim2SF v)) as [-> | ->].
Qed.

Lemma is_zero_spec (u : float) : is_zero u = is_zero_sf (Prim2SF u).
Proof.
  unfold is_zero; rewrite FloatAxioms.eqb_spec; unfold SFeqb.
  change (Prim2SF zero) with (S754_zero false).
  destruct (Prim2SF u) as [s|s| |s m e]; cbn [SFcompare is_zero_sf];
    try reflexivity; now destruct s.
Qed.

Lemma mirrored_spec (u v : float) :
  mirrored u v <-> mirrored_sf (Prim2SF u) (Prim2SF v).
Proof.
  unfold mirrored, mirrored_sf; rewrite !is_zero_spec, <- opp_spec.
  split; (intros [H | H]; [left | now right]).
  - now rewrite H.
  - now apply Prim2SF_inj.
Qed.

Lemma opp_involutive (x : float) : - - x = x.
Proof.
  apply Prim2SF_inj; rewrite !opp_spec.
  now destruct (Prim2SF x) as [[|]|[|]| |[|] m e].
Qed.

Lemma sub_as_add (x y : float) : x - y = x + - y.
Proof.
  apply Prim2SF_inj; rewrite sub_spec, add_spec, opp_spec; apply SFsub_as_add.
Qed.

Lemma mirrored_opp (u : float) : mirrored u (- u).
Proof. now left. Qed.

Lemma mirrored_add (a a' b b' : float) :
  mirrored a a' -> mirrored b b' -> mirrored (a + b) (a' + b').
Proof.
  rewrite !mirrored_spec, !add_spec; apply mirrored_sf_add.
Qed.

Lemma mirrored_mul_l (a a' e : float) :
  mirrored a a' -> mirrored (a * e) (a' * e).
Proof.
  rewrite !mirrored_spec, !mul_spec; apply mirrored_sf_mul_l.
Qed.

Lemma mirrored_square (a a' : float) : mirrored a a' -> a' * a' = a * a.
Proof.
  rewrite mirrored_spec; intros H.
  apply Prim2SF_inj; rewrite !mul_spec; now apply mirrored_sf_square.
Qed.

Lemma mirrored_negate (u u' : float) : mirrored u u' -> mirrored (- u) (- u').
Proof.
  rewrite !mirrored_spec, !opp_spec.
  intros [-> | [H H']]; [now left | right].
  now rewrite !is_zero_sf_opp.
Qed.

Lemma ltb_opp (x y : float) : (- x <? - y) = (y <? x).
Proof.
  rewrite !ltb_spec, !opp_spec; unfold SFltb. now rewrite SFcompare_opp.
Qed.

(** * Rounding to nearest

    The significand that [binary_round_aux] returns, against the exact
    significand it is given: bounds from above, and the distance of half a
    unit in the last place that rounding to nearest guarantees. *)

Section Nearest.

Local Open Scope Z_scope.

Lemma shift_count_lower (M e : Z) :
  0 <= shift_count M e /\ -1074 <= e + shift_count M e.
Proof.
  unfold shift_count, fexp, SpecFloat.emin, prec, emax; lia.
Qed.

Lemma Zdigits2_upper (M : Z) : 0 <= M -> M < 2 ^ Zdigits2 M.
Proof.
  intros H; destruct M as [|p|p]; cbn [Zdigits2]; try lia.
  apply digits2_pos_bounds.
Qed.

Lemma Zdigits2_lt (M k : Z) : 0 <= M -> 0 <= k -> M < 2 ^ k -> Zdigits2 M <= k.
Proof.
  intros HM Hk Hlt; destruct M as [|p|p]; cbn [Zdigits2]; try lia.
  pose proof (digits2_pos_bounds p) as [Hlo _].
  assert (H : 2 ^ (Z.pos (digits2_pos p) - 1) < 2 ^ k) by lia.
  apply Z.pow_lt_mono_r_iff in H; lia.
Qed.

(** The number of digits, from two powers of two around the number. *)
Lemma Zdigits2_eq (M k : Z) :
  1 <= k -> 2 ^ (k - 1) <= M < 2 ^ k -> Zdigits2 M = k.
Proof.
  intros Hk [Hlo Hhi].
  assert (H0 : 0 < M) by (pose proof (pow2_pos (k - 1)); lia).
  pose proof (Zdigits2_lt M k ltac:(lia) ltac:(lia) Hhi) as Hle.
  pose proof (Zdigits2_upper M ltac:(lia)) as Hup.
  assert (Hd : 0 <= Zdigits2 M) by (destruct M; cbn [Zdigits2]; lia).
  assert (H : 2 ^ (k - 1) < 2 ^ Zdigits2 M) by lia.
  apply Z.pow_lt_mono_r_iff in H; lia.
Qed.

(** What [binary_round_aux] returns on a nonnegative significand with any
    location: at most one unit above the truncated significand. *)
Lemma binary_round_aux_le (sx : bool) (M e : Z) (l : location) :
  0 <= M ->
  let n := shift_count M e in
  Z.abs (Zval (binary_round_aux prec emax sx M e l))
  <= (M / 2 ^ n + 1) * 2 ^ (e + n + 1074).
Proof.
  intros HM n; unfold binary_round_aux.
  pose proof (shr_fexp_m M e l HM) as [Hm1 He1].
  fold n in Hm1, He1.
  destruct (shift_count_lower M e) as [Hn He]; fold n in Hn, He.
  assert (Hpn : 0 < 2 ^ n) by (apply pow2_pos; lia).
  assert (Hq : 0 <= M / 2 ^ n) by (apply Z.div_pos; lia).
  destruct (shr_fexp prec emax M e l) as [mrs' e'].
  cbn [fst snd] in *. subst e'.
  pose proof (round_nearest_even_bounds (shr_m mrs') (loc_of_shr_record mrs')) as Hround.
  set (m1 := round_nearest_even (shr_m mrs') (loc_of_shr_record mrs')) in *.
  rewrite Hm1 in Hround.
  pose proof (shr_fexp_m m1 (e + n) loc_Exact ltac:(lia)) as [Hm2 He2].
  set (n2 := shift_count m1 (e + n)) in *.
  assert (Hn2 : 0 <= n2) by (unfold n2, shift_count; lia).
  assert (Hpn2 : 0 < 2 ^ n2) by (apply pow2_pos; lia).
  destruct (shr_fexp prec emax m1 (e + n) loc_Exact) as [mrs'' e''].
  cbn [fst snd] in *. subst e''.
  assert (Ht : 0 < 2 ^ (e + n + 1074)) by (apply pow2_pos; lia).
  assert (Hbound : 0 <= (M / 2 ^ n + 1) * 2 ^ (e + n + 1074))
    by (apply Z.mul_nonneg_nonneg; lia).
  destruct (shr_m mrs'') as [|m|m] eqn:Em; cbn [Zval Z.abs]; try exact Hbound.
  destruct (e + n + n2 <=? emax - prec); cbn [Zval]; [ | exact Hbound].
  assert (Hm : Z.pos m * 2 ^ n2 <= m1)
    by (rewrite Hm2, Z.mul_comm; apply Z.mul_div_le; lia).
  replace (e + n + n2 + 1074) with (n2 + (e + n + 1074)) by lia.
  rewrite (Z.pow_add_r 2 n2 (e + n + 1074)) by lia.
  assert (Habs : Z.abs (cond_Zopp sx (Z.pos m * (2 ^ n2 * 2 ^ (e + n + 1074))))
                 = Z.pos m * 2 ^ n2 * 2 ^ (e + n + 1074))
    by (destruct sx; cbn [cond_Zopp]; nia).
  rewrite Habs.
  apply Z.mul_le_mono_nonneg_r; lia.
Qed.

Lemma binary_round_aux_fin (sx : bool) (M e : Z) (l : location) :
  0 <= M -> e <= 970 -> Zdigits2 M + e <= 1023 ->
  is_finite_sf (binary_round_aux prec emax sx M e l) = true.
Proof.
  intros HM He Hd; unfold binary_round_aux.
  pose proof (shr_fexp_m M e l HM) as [Hm1 He1].
  set (n := shift_count M e) in *.
  destruct (shift_count_lower M e) as [Hn Hen]; fold n in Hn, Hen.
  assert (Hen' : e + n <= 970).
  { unfold n, shift_count, fexp, SpecFloat.emin, prec, emax; lia. }
  assert (Hpn : 0 < 2 ^ n) by (apply pow2_pos; lia).
  pose proof (Zdigits2_upper M HM) as HMd.
  assert (Hd0 : 0 <= Zdigits2 M) by (destruct M; cbn [Zdigits2]; lia).
  set (k := Z.max 0 (Zdigits2 M - n)).
  assert (Hq : M / 2 ^ n < 2 ^ k).
  { apply Z.div_lt_upper_bound; [lia | ].
    rewrite <- Z.pow_add_r by lia.
    apply Z.lt_le_trans with (1 := HMd).
    apply Z.pow_le_mono_r; lia. }
  assert (Hq0 : 0 <= M / 2 ^ n) by (apply Z.div_pos; lia).
  destruct (shr_fexp prec emax M e l) as [mrs' e'].
  cbn [fst snd] in *. subst e'.
  pose proof (round_nearest_even_bounds (shr_m mrs') (loc_of_shr_record mrs')) as Hr.
  set (m1 := round_nearest_even (shr_m mrs') (loc_of_shr_record mrs')) in *.
  rewrite Hm1 in Hr.
  pose proof (shr_fexp_m m1 (e + n) loc_Exact ltac:(lia)) as [Hm2 He2].
  assert (Hd1 : Zdigits2 m1 <= k + 1) by (apply Zdigits2_le; lia).
  set (n2 := shift_count m1 (e + n)) in *.
  assert (Hn2 : 0 <= n2 /\ e + n + n2 <= 971).
  { unfold n2, shift_count, fexp, SpecFloat.emin, prec, emax; lia. }
  assert (Hpn2 : 0 < 2 ^ n2) by (apply pow2_pos; lia).
  destruct (shr_fexp prec emax m1 (e + n) loc_Exact) as [mrs'' e''].
  cbn [fst snd] in *. subst e''.
  assert (H0 : 0 <= shr_m mrs'') by (rewrite Hm2; apply Z.div_pos; lia).
  destruct (shr_m mrs'') as [|m|m]; try reflexivity; [ | lia].
  replace (e + n + n2 <=? emax - prec) with true; [reflexivity | ].
  symmetry; apply Z.leb_le; unfold emax, prec; lia.
Qed.

(** Rounding is monotone against a bound b 2^k on the grid of the result. *)
Lemma binary_round_aux_below (sx : bool) (M e : Z) (l : location) (b k : Z) :
  0 <= M -> 0 <= b ->
  let n := shift_count M e in
  e + n + 1074 <= k ->
  M / 2 ^ n < b * 2 ^ (k - (e + n + 1074)) ->
  Z.abs (Zval (binary_round_aux prec emax sx M e l)) <= b * 2 ^ k.
Proof.
  intros HM Hb n HK Hlt.
  pose proof (binary_round_aux_le sx M e l HM) as H; cbv zeta in H; fold n in H.
  destruct (shift_count_lower M e) as [Hn He]; fold n in Hn, He.
  eapply Z.le_trans; [exact H | ].
  assert (E : 2 ^ k = 2 ^ (k - (e + n + 1074)) * 2 ^ (e + n + 1074))
    by (rewrite <- Z.pow_add_r by lia; f_equal; lia).
  rewrite E, Z.mul_assoc.
  apply Z.mul_le_mono_nonneg_r; [apply Z.lt_le_incl, pow2_pos; lia | lia].
Qed.

(** m 2^a < c 2^(a + j) gives m < c 2^j. *)
Lemma lt_pow_cancel (m c a j : Z) :
  0 <= a -> 0 <= j -> m * 2 ^ a < c * 2 ^ (j + a) -> m < c * 2 ^ j.
Proof.
  intros Ha Hj H. rewrite (Z.pow_add_r 2 j a) in H by lia.
  rewrite Z.mul_assoc in H.
  apply Z.mul_lt_mono_pos_r in H; [exact H | apply pow2_pos; lia].
Qed.

(** Two doubles of the same integer value are the same double. *)
Lemma Zval_finite_inj (s : bool) (m1 m2 : positive) (e1 e2 : Z) :
  bounded prec emax m1 e1 = true -> bounded prec emax m2 e2 = true ->
  Z.pos m1 * 2 ^ (e1 + 1074) = Z.pos m2 * 2 ^ (e2 + 1074) ->
  m1 = m2 /\ e1 = e2.
Proof.
  intros H1 H2 H.
  pose proof (magnitude_compare m1 m2 e1 e2 H1 H2) as Hc.
  rewrite H, Z.compare_refl in Hc.
  destruct (e1 ?= e2) eqn:E; try discriminate.
  apply Z.compare_eq in E. split; [ | exact E].
  now apply Pos.compare_eq.
Qed.

Lemma abs_Zval_finite (s : bool) (m : positive) (e : Z) :
  bounded prec emax m e = true ->
  Z.abs (Zval (S754_finite s m e)) = (Z.pos m * 2 ^ (e + 1074))%Z.
Proof.
  intros Hb; destruct (bounded_facts m e Hb) as (He & _ & _).
  assert (0 < Z.pos m * 2 ^ (e + 1074))%Z
    by (apply Z.mul_pos_pos; [lia | apply pow2_pos; lia]).
  destruct s; cbn [Zval cond_Zopp]; lia.
Qed.

Lemma shr_1_inv (M k : Z) (mrs : shr_record) :
  0 <= k -> shr_inv M k mrs -> shr_inv M (k + 1) (shr_1 mrs).
Proof.
  intros Hk (Hm & t & Ht & HM & Hs).
  destruct mrs as [m r s]; cbn [shr_m shr_r shr_s] in *.
  assert (HP : 0 < 2 ^ k) by (apply pow2_pos; lia).
  unfold shr_inv. rewrite Z.pow_add_r by lia. change (2 ^ 1) with 2.
  set (P := 2 ^ k) in *. clearbody P.
  assert (Hs' : (r || s)%bool = (0 <? P * Z.b2z r + t)).
  { rewrite Hs. destruct r; cbn [orb Z.b2z].
    - symmetry; apply Z.ltb_lt; lia.
    - f_equal; lia. }
  destruct m as [|[p|p| ]|p]; cbn [shr_1 shr_m shr_r shr_s]; try lia;
    (split; [lia | ]); exists (P * Z.b2z r + t);
    (split; [destruct r; cbn [Z.b2z]; lia | ]);
    (split; [cbn [Z.b2z]; lia | exact Hs']).
Qed.

Lemma iter_shr_1_inv (M : Z) (p : positive) :
  forall k mrs, 0 <= k -> shr_inv M k mrs ->
    shr_inv M (k + Z.pos p) (SpecFloat.iter_pos shr_1 p mrs).
Proof.
  induction p as [p IH|p IH| ]; intros k mrs Hk H; cbn [SpecFloat.iter_pos].
  - replace (k + Z.pos p~1) with (k + 1 + Z.pos p + Z.pos p) by lia.
    apply IH; [lia | ]. apply IH; [lia | ]. now apply shr_1_inv.
  - replace (k + Z.pos p~0) with (k + Z.pos p + Z.pos p) by lia.
    apply IH; [lia | ]. now apply IH.
  - now apply shr_1_inv.
Qed.

Lemma shr_fexp_inv (M e : Z) :
  0 <= M ->
  shr_inv M (shift_count M e) (fst (shr_fexp prec emax M e loc_Exact)).
Proof.
  intros HM.
  assert (H0 : shr_inv M 0 {| shr_m := M; shr_r := false; shr_s := false |}).
  { split; [exact HM | exists 0]. cbn [shr_m shr_r shr_s Z.b2z].
    change (2 ^ 0) with 1. repeat split; lia. }
  unfold shr_fexp, shift_count, shr; cbn [shr_record_of_loc].
  destruct (fexp prec emax (Zdigits2 M + e) - e) as [|p|p]; cbn [fst].
  - exact H0.
  - replace (Z.max 0 (Z.pos p)) with (0 + Z.pos p) by lia.
    now apply iter_shr_1_inv.
  - exact H0.
Qed.

(** Rounding to nearest: the rounded significand is within half a unit. *)
Lemma round_nearest_even_near (M k : Z) (mrs : shr_record) :
  0 <= k -> shr_inv M k mrs ->
  Z.abs (2 * M - 2 ^ (k + 1) * round_nearest_even (shr_m mrs) (loc_of_shr_record mrs))
  <= 2 ^ k.
Proof.
  intros Hk (Hm & t & Ht & HM & Hs).
  destruct mrs as [m r s]; cbn [shr_m shr_r shr_s] in *.
  assert (HP : 0 < 2 ^ k) by (apply pow2_pos; lia).
  rewrite Z.pow_add_r by lia. change (2 ^ 1) with 2.
  set (P := 2 ^ k) in *. clearbody P.
  destruct r, s; cbn [loc_of_shr_record round_nearest_even Z.b2z] in *;
    try (symmetry in Hs; apply Z.ltb_lt in Hs);
    try (symmetry in Hs; apply Z.ltb_ge in Hs);
    try destruct (Z.even m); lia.
Qed.

(** What [binary_round_aux] returns on an exact significand is within half
    a unit of the last place of that significand. *)
Lemma binary_round_aux_near (sx : bool) (M e : Z) :
  0 <= M -> -1074 <= e ->
  let n := shift_count M e in
  2 * Z.abs (Zval (binary_round_aux prec emax sx M e loc_Exact))
  <= (2 * M + 2 ^ n) * 2 ^ (e + 1074).
Proof.
  intros HM He n; unfold binary_round_aux.
  pose proof (shr_fexp_m M e loc_Exact HM) as [Hm1 He1].
  pose proof (shr_fexp_inv M e HM) as Hinv.
  fold n in Hm1, He1, Hinv.
  destruct (shift_count_lower M e) as [Hn _]; fold n in Hn.
  assert (Hpn : 0 < 2 ^ n) by (apply pow2_pos; lia).
  assert (Hq : 0 <= M / 2 ^ n) by (apply Z.div_pos; lia).
  destruct (shr_fexp prec emax M e loc_Exact) as [mrs' e'].
  cbn [fst snd] in *. subst e'.
  pose proof (round_nearest_even_near M n mrs' Hn Hinv) as Hnear.
  pose proof (round_nearest_even_bounds (shr_m mrs') (loc_of_shr_record mrs')) as Hround.
  set (m1 := round_nearest_even (shr_m mrs') (loc_of_shr_record mrs')) in *.
  rewrite Hm1 in Hround.
  pose proof (shr_fexp_m m1 (e + n) loc_Exact ltac:(lia)) as [Hm2 He2].
  set (n2 := shift_count m1 (e + n)) in *.
  assert (Hn2 : 0 <= n2) by (unfold n2, shift_count; lia).
  assert (Hpn2 : 0 < 2 ^ n2) by (apply pow2_pos; lia).
  destruct (shr_fexp prec emax m1 (e + n) loc_Exact) as [mrs'' e''].
  cbn [fst snd] in *. subst e''.
  assert (Ht : 0 < 2 ^ (e + 1074)) by (apply pow2_pos; lia).
  assert (Hbound : 0 <= (2 * M + 2 ^ n) * 2 ^ (e + 1074))
    by (apply Z.mul_nonneg_nonneg; lia).
  rewrite Z.pow_add_r in Hnear by lia. change (2 ^ 1) with 2 in Hnear.
  assert (Hm1n : 2 * (m1 * 2 ^ n) <= 2 * M + 2 ^ n) by lia.
  assert (Hfin : forall m, Z.pos m * 2 ^ n2 <= m1 ->
            2 * (Z.pos m * 2 ^ (e + n + n2 + 1074)) <= (2 * M + 2 ^ n) * 2 ^ (e + 1074)).
  { intros m Hm.
    replace (e + n + n2 + 1074) with (n2 + (n + (e + 1074))) by lia.
    rewrite (Z.pow_add_r 2 n2), (Z.pow_add_r 2 n (e + 1074)) by lia.
    set (t := 2 ^ (e + 1074)) in *; set (P := 2 ^ n) in *; set (Q := 2 ^ n2) in *.
    clearbody t P Q.
    assert (Z.pos m * Q * P <= m1 * P) by (apply Z.mul_le_mono_nonneg_r; lia).
    assert (2 * (Z.pos m * Q * P) * t <= (2 * M + P) * t)
      by (apply Z.mul_le_mono_nonneg_r; lia).
    lia. }
  destruct (shr_m mrs'') as [|m|m] eqn:Em; cbn [Zval Z.abs]; try lia.
  destruct (e + n + n2 <=? emax - prec); cbn [Zval]; [ | cbn [Z.abs]; lia].
  assert (Hm : Z.pos m * 2 ^ n2 <= m1)
    by (rewrite Hm2, Z.mul_comm; apply Z.mul_div_le; lia).
  specialize (Hfin m Hm).
  assert (0 < 2 ^ (e + n + n2 + 1074)) by (apply pow2_pos; lia).
  destruct sx; cbn [cond_Zopp]; lia.
Qed.

(** Adding M_PI/2 to a negative number, or subtracting it from a positive
    one, when the magnitude is 2^52 or more. *)
Lemma large_step_round (s : bool) (mx : positive) (ex : Z) :
  bounded prec emax mx ex = true -> 0 <= ex ->
  let x := S754_finite s mx ex in
  (if s then SF64add x half_pi_sf else SF64sub x half_pi_sf)
  = binary_round_aux prec emax s (Z.pos mx * 2 ^ (ex + 52) - pi_m) (-52) loc_Exact.
Proof.
  intros Hb Hex x; subst x.
  destruct (bounded_facts mx ex Hb) as (_ & Hm53 & Hnorm).
  assert (H52 : 2 ^ 52 <= Z.pos mx) by (apply Hnorm; lia).
  assert (HA : 2 ^ 104 <= Z.pos mx * 2 ^ (ex + 52)).
  { change (2 ^ 104) with (2 ^ 52 * 2 ^ 52).
    assert (2 ^ 52 <= 2 ^ (ex + 52)) by (apply Z.pow_le_mono_r; lia).
    apply Z.mul_le_mono_nonneg; lia. }
  set (A := Z.pos mx * 2 ^ (ex + 52)) in *.
  assert (EA : Z.pos (fst (shl_align mx ex (-52))) = A)
    by (rewrite shl_align_value by lia; unfold A; f_equal; f_equal; lia).
  assert (Hnorm' : forall P, Z.pos P = A - pi_m ->
            binary_round prec emax s P (-52)
            = binary_round_aux prec emax s (A - pi_m) (-52) loc_Exact).
  { intros P EP. unfold binary_round, shl_align.
    pose proof (digits2_pos_bounds P) as [_ Hd].
    assert (Hd53 : 53 <= Z.pos (digits2_pos P)).
    { assert (H : 2 ^ 52 < 2 ^ Z.pos (digits2_pos P)).
      { rewrite EP in Hd. unfold pi_m in Hd.
        change (2 ^ 104) with 20282409603651670423947251286016 in HA.
        change (2 ^ 52) with 4503599627370496. lia. }
      apply Z.pow_lt_mono_r_iff in H; lia. }
    destruct (fexp prec emax (Z.pos (digits2_pos P) + -52) - -52) as [|k|k] eqn:Hk;
      try (now rewrite EP).
    unfold fexp, SpecFloat.emin, prec, emax in Hk. lia. }
  unfold half_pi_sf, SF64add, SF64sub, SFadd, SFsub.
  replace (Z.min ex (-52)) with (-52) by lia.
  change (Z.pos (fst (shl_align 7074237752028440 (-52) (-52)))) with pi_m.
  rewrite EA.
  assert (Hpos : 0 < A - pi_m).
  { unfold pi_m. change (2 ^ 104) with 20282409603651670423947251286016 in HA. lia. }
  destruct s; cbn [cond_Zopp].
  - destruct (- A + pi_m) as [|P|P] eqn:EP; try lia.
    cbn [binary_normalize]. apply Hnorm'. lia.
  - destruct (A - pi_m) as [|P|P] eqn:EP; try lia.
    cbn [binary_normalize]. now apply Hnorm'.
Qed.

(** Between 2^52 and 2^54 a step of the loop still brings the angle closer
    to zero: the rounding error is at most 1 and M_PI/2 is more. *)
Lemma reduce_step_large (s : bool) (mx : positive) (ex : Z) :
  bounded prec emax mx ex = true ->
  let x := S754_finite s mx ex in
  let r := if s then SF64add x half_pi_sf else SF64sub x half_pi_sf in
  2 ^ 52 * 2 ^ 1074 < Z.abs (Zval x) <= 2 ^ 54 * 2 ^ 1074 ->
  is_finite_sf r = true /\ Z.abs (Zval r) < Z.abs (Zval x).
Proof.
  intros Hb x r HW.
  destruct (bounded_facts mx ex Hb) as (He & Hm53 & Hnorm).
  subst x; rewrite (abs_Zval_finite s mx ex Hb) in HW.
  assert (Hex : 0 <= ex).
  { assert (H : 2 ^ (52 + 1074) < 2 ^ (53 + (ex + 1074))).
    { rewrite (Z.pow_add_r 2 52 1074), (Z.pow_add_r 2 53 (ex + 1074)) by lia.
      assert (0 < 2 ^ (ex + 1074)) by (apply pow2_pos; lia).
      set (t := 2 ^ (ex + 1074)) in *; set (w := 2 ^ 1074) in *.
      clearbody t w. nia. }
    apply Z.pow_lt_mono_r_iff in H; lia. }
  subst r; rewrite (large_step_round s mx ex Hb Hex).
  rewrite (abs_Zval_finite s mx ex Hb).
  replace (ex + 1074) with ((ex + 52) + 1022) in * by lia.
  rewrite (Z.pow_add_r 2 (ex + 52) 1022) in * by lia.
  rewrite Z.mul_assoc in *.
  set (A := Z.pos mx * 2 ^ (ex + 52)) in *.
  change (2 ^ 1074) with (2 ^ 52 * 2 ^ 1022) in HW.
  assert (Hw : 0 < 2 ^ 1022) by reflexivity.
  assert (HA : 2 ^ 104 < A <= 2 ^ 106).
  { change (2 ^ 104) with (2 ^ 52 * 2 ^ 52). change (2 ^ 106) with (2 ^ 54 * 2 ^ 52).
    rewrite !Z.mul_assoc in HW. destruct HW as [H1 H2].
    apply Z.mul_lt_mono_pos_r in H1; [ | exact Hw].
    apply Z.mul_le_mono_pos_r in H2; [ | exact Hw]. lia. }
  set (M := A - pi_m).
  assert (HM : 2 ^ 53 <= M < 2 ^ 106).
  { unfold M, pi_m.
    change (2 ^ 104) with 20282409603651670423947251286016 in HA.
    change (2 ^ 53) with 9007199254740992. lia. }
  assert (HM0 : 0 <= M) by (change (2 ^ 53) with 9007199254740992 in HM; lia).
  assert (Hd : 54 <= Zdigits2 M <= 106).
  { split; [ | apply Zdigits2_lt; lia].
    pose proof (Zdigits2_upper M HM0) as Hup.
    assert (H : 2 ^ 53 < 2 ^ Zdigits2 M) by lia.
    assert (0 <= Zdigits2 M) by (destruct M; cbn [Zdigits2]; lia).
    apply Z.pow_lt_mono_r_iff in H; lia. }
  split.
  - apply binary_round_aux_fin; lia.
  - pose proof (binary_round_aux_near s M (-52) HM0 ltac:(lia)) as Hnear.
    cbv zeta in Hnear. change (-52 + 1074) with 1022 in Hnear.
    set (n := shift_count M (-52)) in *.
    assert (Hn : 0 <= n <= 53)
      by (unfold n, shift_count, fexp, SpecFloat.emin, prec, emax; lia).
    assert (Hpn : 2 ^ n <= 2 ^ 53) by (apply Z.pow_le_mono_r; lia).
    assert (Hlt : 2 * M + 2 ^ n < 2 * A).
    { unfold M, pi_m. change (2 ^ 53) with 9007199254740992 in Hpn. lia. }
    set (R := Z.abs (Zval _)) in *. set (w := 2 ^ 1022) in *. clearbody R w.
    assert ((2 * M + 2 ^ n) * w < 2 * A * w) by (apply Z.mul_lt_mono_pos_r; lia).
    lia.
Qed.

(** Beyond 2^54 a step of the loop gives the angle back: the doubles are at
    least 4 apart there, and M_PI/2 is less than half of that. *)
Lemma large_step_stuck (s : bool) (mx : positive) (ex : Z) :
  bounded prec emax mx ex = true ->
  let x := S754_finite s mx ex in
  2 ^ 54 * 2 ^ 1074 < Z.abs (Zval x) ->
  (if s then SF64add x half_pi_sf else SF64sub x half_pi_sf) = x.
Proof.
  intros Hb x HW.
  destruct (bounded_facts mx ex Hb) as (He & Hm53 & Hnorm).
  subst x; rewrite (abs_Zval_finite s mx ex Hb) in HW.
  assert (Hex : 2 <= ex).
  { assert (H : 2 ^ (54 + 1074) < 2 ^ (53 + (ex + 1074))).
    { rewrite (Z.pow_add_r 2 54 1074), (Z.pow_add_r 2 53 (ex + 1074)) by lia.
      assert (0 < 2 ^ (ex + 1074)) by (apply pow2_pos; lia).
      set (t := 2 ^ (ex + 1074)) in *; set (w := 2 ^ 1074) in *.
      clearbody t w. nia. }
    apply Z.pow_lt_mono_r_iff in H; lia. }
  assert (H52 : 2 ^ 52 <= Z.pos mx) by (apply Hnorm; lia).
  rewrite (large_step_round s mx ex Hb ltac:(lia)).
  set (A := Z.pos mx * 2 ^ (ex + 52)).
  set (M := A - pi_m).
  (* the size of A and of M *)
  assert (Hp : 0 < 2 ^ (ex + 52)) by (apply pow2_pos; lia).
  assert (HA : 2 ^ (ex + 104) <= A < 2 ^ (ex + 105)).
  { replace (ex + 104) with (52 + (ex + 52)) by lia.
    replace (ex + 105) with (53 + (ex + 52)) by lia.
    rewrite (Z.pow_add_r 2 52), (Z.pow_add_r 2 53) by lia.
    unfold A. set (t := 2 ^ (ex + 52)) in *. clearbody t. nia. }
  assert (Hbig : 2 ^ 54 <= 2 ^ (ex + 52)) by (apply Z.pow_le_mono_r; lia).
  assert (Hpi : 2 ^ 52 < pi_m < 2 ^ 53) by (unfold pi_m; split; reflexivity).
  assert (HM : 2 ^ (ex + 103) <= M < 2 ^ (ex + 105)).
  { split; [ | unfold M; lia].
    replace (ex + 104) with (1 + (ex + 103)) in HA by lia.
    rewrite (Z.pow_add_r 2 1 (ex + 103)) in HA by lia. change (2 ^ 1) with 2 in HA.
    assert (2 ^ 53 <= 2 ^ (ex + 103)) by (apply Z.pow_le_mono_r; lia).
    unfold M. lia. }
  assert (HM106 : 2 ^ 106 <= M).
  { (* A is a multiple of 2^(ex+52) above 2^106 *)
    assert (H1 : 2 ^ 54 * 2 ^ 52 < A).
    { replace (ex + 1074) with ((ex + 52) + 1022) in HW by lia.
      rewrite (Z.pow_add_r 2 (ex + 52) 1022), Z.mul_assoc in HW by lia.
      change (2 ^ 1074) with (2 ^ 52 * 2 ^ 1022) in HW. rewrite Z.mul_assoc in HW.
      apply Z.mul_lt_mono_pos_r in HW; [exact HW | reflexivity]. }
    assert (H2 : 2 ^ 106 + 2 ^ 54 <= A).
    { destruct (Z.eq_dec ex 2) as [E|E].
      - unfold A in *. rewrite E in *. change (2 ^ (2 + 52)) with (2 ^ 54) in *.
        change (2 ^ 106) with (2 ^ 52 * 2 ^ 54).
        change (2 ^ 54 * 2 ^ 52) with (2 ^ 52 * 2 ^ 54) in H1.
        assert (2 ^ 52 < Z.pos mx)
          by (apply Z.mul_lt_mono_pos_r with (p := 2 ^ 54); [reflexivity | lia]).
        change (2 ^ 54) with 18014398509481984 in *.
        change (2 ^ 52) with 4503599627370496 in *. lia.
      - assert (2 ^ 107 <= 2 ^ (ex + 104)) by (apply Z.pow_le_mono_r; lia).
        change (2 ^ 107) with (2 * 2 ^ 106) in *.
        change (2 ^ 54) with 18014398509481984.
        assert (18014398509481984 <= 2 ^ 106) by (now apply Z.leb_le). lia. }
    unfold M. change (2 ^ 54) with 18014398509481984 in H2.
    change (2 ^ 53) with 9007199254740992 in Hpi. lia. }
  assert (HM0 : 0 <= M) by (pose proof (pow2_pos 106); lia).
  (* the first shift *)
  set (d := Zdigits2 M).
  assert (Hd : ex + 104 <= d <= ex + 105 /\ 107 <= d).
  { pose proof (Zdigits2_upper M HM0) as Hup. fold d in Hup.
    assert (Hd0 : 0 <= d) by (unfold d; destruct M; cbn [Zdigits2]; lia).
    assert (H1 : 2 ^ (ex + 103) < 2 ^ d) by lia.
    assert (H2 : 2 ^ 106 < 2 ^ d) by lia.
    apply Z.pow_lt_mono_r_iff in H1; try lia.
    apply Z.pow_lt_mono_r_iff in H2; try lia.
    pose proof (Zdigits2_lt M (ex + 105) HM0 ltac:(lia) ltac:(lia)). fold d in H.
    lia. }
  set (n := shift_count M (-52)).
  assert (Hn : n = d - 53)
    by (unfold n, shift_count, fexp, SpecFloat.emin, prec, emax; fold d; lia).
  set (j := ex + 52 - n).
  assert (Hj : 0 <= j <= 1) by (unfold j; lia).
  set (c := Z.pos mx * 2 ^ j).
  assert (Hpj : 0 < 2 ^ j) by (apply pow2_pos; lia).
  assert (Hpn : 2 ^ 54 <= 2 ^ n) by (apply Z.pow_le_mono_r; lia).
  assert (EA : A = c * 2 ^ n).
  { unfold A, c. rewrite <- Z.mul_assoc, <- Z.pow_add_r by lia.
    f_equal; f_equal; unfold j; lia. }
  unfold binary_round_aux.
  pose proof (shr_fexp_m M (-52) loc_Exact HM0) as [Hm1 He1].
  pose proof (shr_fexp_inv M (-52) HM0) as Hinv.
  fold n in Hm1, He1, Hinv.
  destruct (shr_fexp prec emax M (-52) loc_Exact) as [mrs' e'].
  cbn [fst snd] in *. subst e'.
  pose proof (round_nearest_even_near M n mrs' ltac:(lia) Hinv) as Hnear.
  set (m1 := round_nearest_even (shr_m mrs') (loc_of_shr_record mrs')) in *.
  assert (Em1 : m1 = c).
  { rewrite Z.pow_add_r in Hnear by lia. change (2 ^ 1) with 2 in Hnear.
    unfold M in Hnear. rewrite EA in Hnear.
    change (2 ^ 53) with 9007199254740992 in Hpi.
    change (2 ^ 54) with 18014398509481984 in Hpn.
    set (P := 2 ^ n) in *. clearbody P.
    assert (H : Z.abs (2 * P * (c - m1)) < 2 * P) by lia.
    destruct (Z.eq_dec c m1) as [E|E]; [now symmetry | exfalso].
    assert (1 <= Z.abs (c - m1)) by lia.
    rewrite Z.abs_mul in H. rewrite (Z.abs_eq (2 * P)) in H by lia. nia. }
  rewrite Em1.
  (* the second shift *)
  assert (Hc : 2 ^ (53 + j - 1) <= c < 2 ^ (53 + j)).
  { replace (53 + j - 1) with (52 + j) by lia.
    rewrite (Z.pow_add_r 2 52 j), (Z.pow_add_r 2 53 j) by lia.
    unfold c. set (t := 2 ^ j) in *. clearbody t. nia. }
  assert (Hc0 : 0 <= c) by (unfold c; lia).
  pose proof (shr_fexp_m c (-52 + n) loc_Exact Hc0) as [Hm2 He2].
  assert (En2 : shift_count c (-52 + n) = j).
  { unfold shift_count. rewrite (Zdigits2_eq c (53 + j)) by lia.
    unfold fexp, SpecFloat.emin, prec, emax, j. lia. }
  rewrite En2 in Hm2, He2.
  destruct (shr_fexp prec emax c (-52 + n) loc_Exact) as [mrs'' e''].
  cbn [fst snd] in *.
  assert (Em2 : shr_m mrs'' = Z.pos mx).
  { rewrite Hm2. unfold c. apply Z.div_mul. lia. }
  rewrite Em2, He2.
  replace (-52 + n + j) with ex by (unfold j; lia).
  replace (ex <=? emax - prec) with true; [reflexivity | ].
  symmetry; apply Z.leb_le; unfold emax, prec; lia.
Qed.

Lemma reduce_step_wide (s : bool) (mx : positive) (ex : Z) :
  bounded prec emax mx ex = true ->
  let x := S754_finite s mx ex in
  let r := if s then SF64add x half_pi_sf else SF64sub x half_pi_sf in
  Zq < Z.abs (Zval x) <= 2 ^ 54 * 2 ^ 1074 ->
  is_finite_sf r = true /\ Z.abs (Zval r) < Z.abs (Zval x).
Proof.
  intros Hb x r HW.
  destruct (Z_le_gt_dec (Z.abs (Zval x)) (2 ^ 52 * 2 ^ 1074)) as [H|H].
  - apply (reduce_step s mx ex Hb). fold x. lia.
  - apply (reduce_step_large s mx ex Hb). fold x. lia.
Qed.

End Nearest.

Lemma finite_valid (x : float) (s : bool) (m : positive) (e : Z) :
  Prim2SF x = S754_finite s m e -> bounded prec emax m e = true.
Proof.
  intros H; pose proof (Prim2SF_valid x) as V; now rewrite H in V.
Qed.

(** * The domain on which the reduction loop ends *)

Lemma body_measure_wide (st : reduction) :
  is_finite_sf (Prim2SF (angle st)) = true ->
  (Z.abs (FV (angle st)) <= 2 ^ 54 * 2 ^ 1074)%Z ->
  outside (angle st) = true ->
  is_finite_sf (Prim2SF (angle (body st))) = true
  /\ (Z.abs (FV (angle (body st))) < Z.abs (FV (angle st)))%Z.
Proof.
  intros Hf Hb Ho; unfold body, outside in *.
  assert (Fq : is_finite_sf (Prim2SF (M_PI / 4)) = true) by reflexivity.
  assert (Fnq : is_finite_sf (Prim2SF (- M_PI / 4)) = true) by reflexivity.
  pose proof (Prim2SF_valid (angle st)) as Hv.
  destruct (angle st <? - M_PI / 4) eqn:Hl; cbn [angle step_add step_sub].
  - pose proof (ltb_FV _ _ Hf Fnq Hl) as Hlt.
    change (FV (- M_PI / 4)) with (- Zq)%Z in Hlt.
    unfold FV in *. rewrite add_spec.
    change (Prim2SF (M_PI / 2)) with half_pi_sf.
    destruct (Prim2SF (angle st)) as [s|s| |s m e];
      cbn [is_finite_sf] in Hf; try discriminate.
    pose proof (abs_Zval_finite s m e Hv) as Ea.
    destruct s.
    + apply (reduce_step_wide true m e Hv). lia.
    + exfalso. cbn [Zval cond_Zopp] in *.
      pose proof Zq_pos. assert (0 < 2 ^ 1021)%Z by reflexivity.
      change (2 ^ 52)%Z with 4503599627370496%Z in *. lia.
  - rewrite orb_false_r in Ho.
    pose proof (ltb_FV _ _ Fq Hf Ho) as Hlt.
    change (FV (M_PI / 4)) with Zq in Hlt.
    unfold FV in *. rewrite sub_spec.
    change (Prim2SF (M_PI / 2)) with half_pi_sf.
    destruct (Prim2SF (angle st)) as [s|s| |s m e];
      cbn [is_finite_sf] in Hf; try discriminate.
    pose proof (abs_Zval_finite s m e Hv) as Ea.
    destruct s.
    + exfalso. cbn [Zval cond_Zopp] in *.
      pose proof Zq_pos. assert (0 < 2 ^ 1021)%Z by reflexivity.
      change (2 ^ 52)%Z with 4503599627370496%Z in *. lia.
    + apply (reduce_step_wide false m e Hv). lia.
Qed.

Lemma while_terminates_wide (n : nat) :
  forall st,
    is_finite_sf (Prim2SF (angle st)) = true ->
    (Z.abs (FV (angle st)) <= 2 ^ 54 * 2 ^ 1074)%Z ->
    (Z.abs (FV (angle st)) < Z.of_nat n)%Z ->
    exists fuel st', while fuel st = Ok st'.
Proof.
  induction n as [|n IH]; intros st Hf Hb Hn; [lia | ].
  destruct (outside (angle st)) eqn:Ho.
  - destruct (body_measure_wide st Hf Hb Ho) as [Hf' Hlt].
    destruct (IH (body st) Hf' ltac:(lia) ltac:(lia)) as (fuel & st' & Hrun).
    exists (S fuel), st'. cbn [while]. now rewrite Ho.
  - exists O, st. cbn [while]. now rewrite Ho.
Qed.

(** The magnitude of a double that is not NaN, against 2^54. *)
Lemma abs_leb_wide (a : float) :
  (abs a <=? 0x1p54) = true ->
  is_finite_sf (Prim2SF a) = true /\ (Z.abs (FV a) <= 2 ^ 54 * 2 ^ 1074)%Z.
Proof.
  rewrite leb_spec, abs_spec; unfold SFleb, FV.
  change (Prim2SF 0x1p54) with (S754_finite false 4503599627370496 2).
  pose proof (Prim2SF_valid a) as Hv.
  destruct (Prim2SF a) as [s|s| |s m e]; cbn [SFabs].
  - intros _; split; [reflexivity | ]. cbn [Zval Z.abs]. now apply Z.leb_le.
  - cbn [SFcompare]; discriminate.
  - cbn [SFcompare]; discriminate.
  - rewrite SFcompare_Zval by (auto; reflexivity).
    rewrite (abs_Zval_finite s m e Hv).
    cbn [Zval cond_Zopp].
    change (4503599627370496 * 2 ^ (2 + 1074))%Z with (2 ^ 54 * 2 ^ 1074)%Z.
    destruct (Z.compare_spec (Z.pos m * 2 ^ (e + 1074)) (2 ^ 54 * 2 ^ 1074)%Z);
      intros; try discriminate; split; try reflexivity; lia.
Qed.

Lemma angle_transform_returns_wide (a : float) :
  (abs a <=? 0x1p54) = true ->
  exists fuel st, angle_transform fuel a = Ok st /\ in_range (angle st) = true.
Proof.
  intros H; apply abs_leb_wide in H; destruct H as [Hf Hb].
  destruct (while_terminates_wide (Z.to_nat (Z.abs (FV a) + 1)) (start a))
    as (fuel & st & Hrun); cbn [start angle]; auto; try lia.
  exists fuel, st; split; [exact Hrun | ].
  apply (while_exit_in_range fuel (start a) st); [ | exact Hrun].
  rewrite is_nan_spec; cbn [start angle].
  now destruct (Prim2SF a).
Qed.

(** Beyond 2^54 the angle is outside the interval, and the body of the loop
    gives it back. *)
Lemma stuck_beyond (a : float) :
  (0x1p54 <? abs a) = true ->
  outside a = true /\ forall st, angle st = a -> angle (body st) = a.
Proof.
  rewrite ltb_spec, abs_spec; unfold SFltb.
  change (Prim2SF 0x1p54) with (S754_finite false 4503599627370496 2).
  pose proof (Prim2SF_valid a) as Hv.
  assert (Hq : Prim2SF (M_PI / 4) = S754_finite false 7074237752028440 (-53))
    by reflexivity.
  assert (Hnq : Prim2SF (- M_PI / 4) = S754_finite true 7074237752028440 (-53))
    by reflexivity.
  assert (Hp : Prim2SF (M_PI / 2) = half_pi_sf) by reflexivity.
  destruct (Prim2SF a) as [s|s| |s m e] eqn:Ea; cbn [SFabs].
  - cbn [SFcompare]; discriminate.
  - intros _.
    assert (Hlt : (a <? - M_PI / 4) = s)
      by (rewrite ltb_spec, Ea, Hnq; unfold SFltb; now destruct s).
    split.
    + unfold outside. rewrite Hlt, ltb_spec, Hq, Ea; unfold SFltb. now destruct s.
    + intros st Hst; unfold body; rewrite Hst, Hlt.
      destruct s; cbn [angle step_add step_sub]; rewrite Hst;
        apply Prim2SF_inj; rewrite ?add_spec, ?sub_spec, Ea, Hp; reflexivity.
  - cbn [SFcompare]; discriminate.
  - rewrite (SFcompare_Zval (S754_finite false 4503599627370496 2)
               (S754_finite false m e)) by (auto; reflexivity).
    cbn [Zval cond_Zopp].
    change (4503599627370496 * 2 ^ (2 + 1074))%Z with (2 ^ 54 * 2 ^ 1074)%Z.
    destruct (Z.compare_spec (2 ^ 54 * 2 ^ 1074) (Z.pos m * 2 ^ (e + 1074)))
      as [ |Hc| ]; try discriminate.
    intros _.
    assert (Hlt : (a <? - M_PI / 4) = s).
    { rewrite ltb_spec, Ea, Hnq; unfold SFltb.
      rewrite SFcompare_Zval by (auto; reflexivity).
      cbn [Zval]. change (cond_Zopp true (7074237752028440 * 2 ^ (-53 + 1074)))%Z
        with (- Zq)%Z.
      pose proof Zq_pos as Hzq. assert (Hzq' : (Zq < 2 ^ 54 * 2 ^ 1074)%Z) by reflexivity.
      assert (0 < 2 ^ 1021)%Z by reflexivity.
      change (2 ^ 52)%Z with 4503599627370496%Z in Hzq.
      destruct s; cbn [cond_Zopp].
      - rewrite (proj2 (Z.compare_lt_iff _ _)) by lia. reflexivity.
      - rewrite (proj2 (Z.compare_gt_iff _ _)) by lia. reflexivity. }
    assert (Hgt : (M_PI / 4 <? a) = negb s).
    { rewrite ltb_spec, Ea, Hq; unfold SFltb.
      rewrite SFcompare_Zval by (auto; reflexivity).
      cbn [Zval]. change (cond_Zopp false (7074237752028440 * 2 ^ (-53 + 1074)))%Z
        with Zq.
      assert (Hzq' : (Zq < 2 ^ 54 * 2 ^ 1074)%Z) by reflexivity.
      assert (Hzq : (0 < Zq)%Z) by reflexivity.
      destruct s; cbn [cond_Zopp negb].
      - rewrite (proj2 (Z.compare_gt_iff _ _)) by lia. reflexivity.
      - rewrite (proj2 (Z.compare_lt_iff _ _)) by lia. reflexivity. }
    split.
    + unfold outside. rewrite Hlt, Hgt. now destruct s.
    + intros st Hst; unfold body; rewrite Hst, Hlt.
      pose proof (large_step_stuck s m e Hv) as Hstuck. cbv zeta in Hstuck.
      rewrite (abs_Zval_finite s m e Hv) in Hstuck. specialize (Hstuck Hc).
      destruct s; cbn [angle step_add step_sub]; rewrite Hst;
        apply Prim2SF_inj; rewrite ?add_spec, ?sub_spec, Ea, Hp; exact Hstuck.
Qed.

(** Within 2^54, or on a NaN, the loop ends. *)
Lemma returns_within (a : float) :
  (0x1p54 <? abs a) = false -> exists fuel st, angle_transform fuel a = Ok st.
Proof.
  intros H.
  destruct (is_nan a) eqn:Hn.
  - exists O, (start a). apply is_nan_Prim2SF in Hn.
    unfold angle_transform; cbn [while start angle].
    replace (outside a) with false; [reflexivity | ].
    unfold outside; rewrite !ltb_spec, Hn; unfold SFltb.
    now destruct (Prim2SF (M_PI / 4)), (Prim2SF (- M_PI / 4)).
  - assert (Hle : (abs a <=? 0x1p54) = true).
    { apply ltb_false_leb_true; [now rewrite is_nan_abs | reflexivity | exact H]. }
    destruct (angle_transform_returns_wide a Hle) as (fuel & st & Hrun & _).
    now exists fuel, st.
Qed.

Lemma returns_not_beyond (a : float) (fuel : nat) (st : reduction) :
  angle_transform fuel a = Ok st -> (0x1p54 <? abs a) = false.
Proof.
  intros Hrun.
  destruct (0x1p54 <? abs a) eqn:H; [ | reflexivity].
  destruct (stuck_beyond a H) as [Ho Hb].
  unfold angle_transform in Hrun.
  now rewrite (while_stuck a Ho Hb fuel (start a) eq_refl) in Hrun.
Qed.

(** More fuel does not change a result. *)
Lemma while_more_fuel (fuel : nat) :
  forall extra st st', while fuel st = Ok st' -> while (fuel + extra) st = Ok st'.
Proof.
  induction fuel as [|n IH]; intros extra st st'; cbn [while Nat.add].
  - destruct (outside (angle st)) eqn:Ho; [discriminate | ].
    intros E; destruct extra; cbn [while]; now rewrite Ho.
  - destruct (outside (angle st)); [apply IH | auto].
Qed.

(** X1: on every double of magnitude at most 2^54 the loop of
    [angle_transform] terminates: from some number of iterations on, every
    fuel gives the same state, and its angle lies in the closed interval from
    -M_PI/4 to M_PI/4. *)
Theorem angle_transform_total (a : float) :
  (abs a <=? 0x1p54) = true ->
  exists n st,
    in_range (angle st) = true
    /\ forall fuel, (n <= fuel)%nat -> angle_transform fuel a = Ok st.
Proof.
  intros H; destruct (angle_transform_returns_wide a H) as (n & st & Hrun & Hin).
  exists n, st; split; [exact Hin | ].
  intros fuel Hle; replace fuel with (n + (fuel - n))%nat by lia.
  now apply while_more_fuel.
Qed.

Lemma angle_transform_total_witness :
  exists n st,
    in_range (angle st) = true
    /\ forall fuel, (n <= fuel)%nat -> angle_transform fuel (- 0x1p54) = Ok st.
Proof. apply (angle_transform_total (- 0x1p54)); reflexivity. Defined.

(** X2: on a NaN the loop condition is false at once, so [angle_transform]
    returns the NaN with both flags true; the angle it leaves is not in the
    interval. *)
Theorem angle_transform_nan (a : float) (fuel : nat) :
  is_nan a = true ->
  angle_transform fuel a = Ok {| angle := a; sign := true; sin_cos := true |}
  /\ in_range a = false.
Proof.
  intros H; apply is_nan_Prim2SF in H.
  assert (Ho : outside a = false).
  { unfold outside; rewrite !ltb_spec, H; unfold SFltb.
    now destruct (Prim2SF (M_PI / 4)), (Prim2SF (- M_PI / 4)). }
  split.
  - destruct fuel; unfold angle_transform; cbn [while start angle]; now rewrite Ho.
  - unfold in_range; rewrite !leb_spec, H; unfold SFleb.
    now destruct (Prim2SF (- M_PI / 4)).
Qed.

Lemma angle_transform_nan_witness :
  is_nan nan = true
  /\ angle_transform 3 nan = Ok {| angle := nan; sign := true; sin_cos := true |}
  /\ in_range nan = false.
Proof. split; [reflexivity | apply (angle_transform_nan nan 3 eq_refl)]. Defined.

(** X3: on every double of magnitude above 2^54, the infinities included,
    the loop of [angle_transform] never ends: the doubles are at least 4
    apart there, so adding or subtracting M_PI/2 rounds back to the angle. *)
Theorem angle_transform_diverges (a : float) (fuel : nat) :
  (0x1p54 <? abs a) = true -> angle_transform fuel a = OutOfFuel.
Proof.
  intros H; destruct (stuck_beyond a H) as [Ho Hb].
  now apply (while_stuck a Ho Hb).
Qed.

Lemma angle_transform_diverges_witness :
  angle_transform 1000 0x1.0000000000001p54 = OutOfFuel.
Proof. apply (angle_transform_diverges 0x1.0000000000001p54 1000); reflexivity. Defined.

(** X4: [angle_transform] returns on an angle exactly when the angle is a
    NaN or its magnitude is at most 2^54. *)
Theorem angle_transform_returns_iff (a : float) :
  (exists fuel st, angle_transform fuel a = Ok st) <-> (0x1p54 <? abs a) = false.
Proof.
  split.
  - intros (fuel & st & Hrun). exact (returns_not_beyond a fuel st Hrun).
  - apply returns_within.
Qed.

(** Leaving the loop means the condition is false. *)
Lemma while_exit_not_outside (fuel : nat) :
  forall st st', while fuel st = Ok st' -> outside (angle st') = false.
Proof.
  induction fuel as [|n IH]; intros st st'; cbn [while];
    destruct (outside (angle st)) eqn:Ho; try discriminate.
  - now intros [= <-].
  - apply IH.
  - now intros [= <-].
Qed.

Lemma while_not_outside (fuel : nat) (st : reduction) :
  outside (angle st) = false -> while fuel st = Ok st.
Proof. intros H; destruct fuel; cbn [while]; now rewrite H. Qed.

(** A batch whose cells all fail the loop condition is left as it is, with
    every flag true. *)
Lemma reduce_batch_quiet (fuel : nat) (x : list float) :
  forallb (fun a => negb (outside a)) x = true ->
  reduce_batch fuel x
  = Ok (x, repeat true (length x), repeat true (length x)).
Proof.
  induction x as [|a t IH]; cbn [forallb reduce_batch length repeat];
    [reflexivity | ].
  intros H; apply andb_prop in H; destruct H as [Ha Ht].
  apply negb_true_iff in Ha.
  unfold angle_transform; rewrite (while_not_outside fuel (start a) Ha).
  cbn [bind]. rewrite (IH Ht). reflexivity.
Qed.

Lemma reduce_batch_same (fuel : nat) :
  forall x sign_vec sin_cos_vec,
    reduce_batch fuel x = Ok (x, sign_vec, sin_cos_vec) ->
    forallb (fun a => negb (outside a)) x = true.
Proof.
  induction x as [|a t IH]; cbn [reduce_batch forallb]; intros sv cv H;
    [reflexivity | ].
  destruct (angle_transform fuel a) as [st| |] eqn:Ha; cbn [bind] in H;
    try discriminate.
  destruct (reduce_batch fuel t) as [[[xs' sv'] cv']| |] eqn:Ht; cbn [bind] in H;
    try discriminate.
  injection H as Hst Hxs _ _.
  apply while_exit_not_outside in Ha. rewrite Hst in Ha; rewrite Ha.
  cbn [negb andb]. apply (IH sv' cv'). now rewrite Hxs.
Qed.

Lemma forallb_in_range_quiet (x : list float) :
  forallb in_range x = true -> forallb (fun a => negb (outside a)) x = true.
Proof.
  induction x as [|a t IH]; cbn [forallb]; [reflexivity | ].
  intros H; apply andb_prop in H; destruct H as [Ha Ht].
  now rewrite (in_range_not_outside a Ha), (IH Ht).
Qed.

(** X5: the initialisation loop of [main] leaves the angles of a batch as
    they are exactly when no cell satisfies the loop condition of
    [angle_transform], and then every sign flag and every selector is
    true. *)
Theorem reduce_batch_unchanged (fuel : nat) (x : list float)
    (sign_vec sin_cos_vec : list bool) :
  reduce_batch fuel x = Ok (x, sign_vec, sin_cos_vec)
  <-> forallb (fun a => negb (outside a)) x = true
      /\ sign_vec = repeat true (length x)
      /\ sin_cos_vec = repeat true (length x).
Proof.
  split.
  - intros H. pose proof (reduce_batch_same fuel x _ _ H) as Hq.
    rewrite (reduce_batch_quiet fuel x Hq) in H.
    injection H as <- <-. auto.
  - intros (Hq & -> & ->). now apply reduce_batch_quiet.
Qed.

(** X6: on a batch whose angles are all in the interval, range reduction
    followed by the Taylor strategy with the flags computes what the Taylor
    strategy computes without flag arrays. *)
Theorem reconstruct_in_range (fuel : nat)
    (s0 s1 s2 s3 x0 x1 x2 x3 : float) :
  forallb in_range [x0; x1; x2; x3] = true ->
  reconstruct fuel [s0; s1; s2; s3] [x0; x1; x2; x3]
  = sin4_taylor [s0; s1; s2; s3] [x0; x1; x2; x3] None None.
Proof.
  intros H; unfold reconstruct.
  rewrite (reduce_batch_quiet fuel _ (forallb_in_range_quiet _ H)); cbn [bind length repeat].
  rewrite sin4_taylor_no_selector.
  cbv [sin4_taylor for_loop set_and_false deref bind load defined nth_error
       store Nat.add negb map].
  now rewrite !mul_one, !taylor_sin_spec.
Qed.

Lemma reconstruct_in_range_witness :
  forallb in_range [0.5; -0.5; 0; M_PI / 4] = true
  /\ reconstruct 0 [0; 0; 0; 0] [0.5; -0.5; 0; M_PI / 4]
     = sin4_taylor [0; 0; 0; 0] [0.5; -0.5; 0; M_PI / 4] None None.
Proof.
  split; [reflexivity | apply (reconstruct_in_range 0 0 0 0 0); reflexivity].
Defined.

(** * The flags and the quarter turns *)

Section Identity.

Local Open Scope R_scope.

Lemma sin_add_quarter (r : R) : sin (r + Rtrigo1.PI / 2) = cos r.
Proof. rewrite Rtrigo1.sin_plus, Rtrigo1.sin_PI2, Rtrigo1.cos_PI2. ring. Qed.

Lemma cos_add_quarter (r : R) : cos (r + Rtrigo1.PI / 2) = - sin r.
Proof. rewrite Cos_plus.cos_plus, Rtrigo1.sin_PI2, Rtrigo1.cos_PI2. ring. Qed.

Lemma sin_sub_quarter (r : R) : sin (r - Rtrigo1.PI / 2) = - cos r.
Proof. rewrite Rtrigo1.sin_minus, Rtrigo1.sin_PI2, Rtrigo1.cos_PI2. ring. Qed.

Lemma cos_sub_quarter (r : R) : cos (r - Rtrigo1.PI / 2) = sin r.
Proof. rewrite Rtrigo1.cos_minus, Rtrigo1.sin_PI2, Rtrigo1.cos_PI2. ring. Qed.

Lemma ideal_step_add (st : reduction) (r : R) :
  ideal (step_add st) (r + Rtrigo1.PI / 2) = ideal st r.
Proof.
  unfold ideal; cbn [step_add sign sin_cos].
  destruct (sin_cos st), (sign st); cbn [negb];
    rewrite ?sin_add_quarter, ?cos_add_quarter; ring.
Qed.

Lemma ideal_step_sub (st : reduction) (r : R) :
  ideal (step_sub st) (r - Rtrigo1.PI / 2) = ideal st r.
Proof.
  unfold ideal; cbn [step_sub sign sin_cos].
  destruct (sin_cos st), (sign st); cbn [negb];
    rewrite ?sin_sub_quarter, ?cos_sub_quarter; ring.
Qed.

Lemma ideal_body (st : reduction) (r : R) :
  ideal (body st)
    (r + IZR (if (angle st <? (- M_PI) / 4)%float then 1 else -1)
         * (Rtrigo1.PI / 2))
  = ideal st r.
Proof.
  unfold body. destruct (angle st <? (- M_PI) / 4)%float.
  - replace (r + 1 * (Rtrigo1.PI / 2)) with (r + Rtrigo1.PI / 2) by ring.
    apply ideal_step_add.
  - replace (r + -1 * (Rtrigo1.PI / 2)) with (r - Rtrigo1.PI / 2) by ring.
    apply ideal_step_sub.
Qed.

Lemma ideal_while (fuel : nat) :
  forall st st' r, while fuel st = Ok st' ->
    ideal st' (r + IZR (turns fuel st) * (Rtrigo1.PI / 2)) = ideal st r.
Proof.
  induction fuel as [|n IH]; intros st st' r; cbn [while turns];
    destruct (outside (angle st)); try discriminate.
  - intros [= <-]. f_equal. ring.
  - intros H. rewrite plus_IZR.
    replace (r + (IZR (if (angle st <? (- M_PI) / 4)%float then 1 else -1)
                  + IZR (turns n (body st))) * (Rtrigo1.PI / 2))
      with (r + IZR (if (angle st <? (- M_PI) / 4)%float then 1 else -1)
                * (Rtrigo1.PI / 2)
            + IZR (turns n (body st)) * (Rtrigo1.PI / 2)) by ring.
    rewrite (IH _ _ _ H). apply ideal_body.
  - intros [= <-]. f_equal. ring.
Qed.

(** X7: the flags [angle_transform] returns are those of the identity
    sin r = +/- sin or cos (r + k pi/2), where k is the number of quarter
    turns the loop added less the number it subtracted: the sign flag gives
    the sign and the selector chooses between sine and cosine. *)
Theorem flags_follow_turns (fuel : nat) (a : float) (st : reduction) (r : R) :
  angle_transform fuel a = Ok st ->
  ideal st (r + IZR (turns fuel (start a)) * (Rtrigo1.PI / 2)) = sin r.
Proof.
  intros H. rewrite (ideal_while fuel (start a) st r H).
  unfold ideal; cbn [start sign sin_cos]. ring.
Qed.

Lemma flags_follow_turns_witness :
  angle_transform 3 4 = Ok {| angle := 4 - M_PI / 2 - M_PI / 2 - M_PI / 2;
                              sign := false; sin_cos := false |}
  /\ ideal {| angle := 4 - M_PI / 2 - M_PI / 2 - M_PI / 2;
              sign := false; sin_cos := false |}
       (0 + IZR (turns 3 (start 4)) * (Rtrigo1.PI / 2)) = sin 0.
Proof.
  split; [reflexivity | ].
  apply (flags_follow_turns 3 4 _ 0). reflexivity.
Defined.

End Identity.

(** * The strategies on buffers of any length *)

(** The cells of [sin4_taylor] when both flag arrays have four entries. *)
Lemma sin4_taylor_selected
    (s0 s1 s2 s3 x0 x1 x2 x3 : float) (st xt : list float)
    (g0 g1 g2 g3 c0 c1 c2 c3 : bool) (gt ct : list bool) :
  sin4_taylor (s0 :: s1 :: s2 :: s3 :: st) (x0 :: x1 :: x2 :: x3 :: xt)
    (Some (g0 :: g1 :: g2 :: g3 :: gt)) (Some (c0 :: c1 :: c2 :: c3 :: ct))
  = Ok (taylor_lane x0 c0 g0 :: taylor_lane x1 c1 g1
        :: taylor_lane x2 c2 g2 :: taylor_lane x3 c3 g3 :: st).
Proof.
  destruct c0, c1, c2, c3, g0, g1, g2, g3;
    cbv [sin4_taylor for_loop set_and_false deref bind load defined nth_error
         store Nat.add negb taylor_lane];
    now rewrite ?mul_one, ?mul_neg_one, ?taylor_sin_spec, ?taylor_cos_spec.
Qed.

(** X8: with both flag arrays given, [sin4_taylor] stores in cell i the sine
    polynomial of x[i] when the selector i is true and the cosine polynomial
    when it is false, negated when the sign flag i is false; cells 4 and up
    of its output buffer are kept.  A flag array of fewer than four entries
    is read out of bounds. *)
Theorem sin4_taylor_flags
    (s0 s1 s2 s3 x0 x1 x2 x3 : float) (st xt : list float)
    (sign_vec sin_cos_vec : list bool) :
  sin4_taylor (s0 :: s1 :: s2 :: s3 :: st) (x0 :: x1 :: x2 :: x3 :: xt)
    (Some sign_vec) (Some sin_cos_vec)
  = match sign_vec, sin_cos_vec with
    | g0 :: g1 :: g2 :: g3 :: _, c0 :: c1 :: c2 :: c3 :: _ =>
        Ok (taylor_lane x0 c0 g0 :: taylor_lane x1 c1 g1
            :: taylor_lane x2 c2 g2 :: taylor_lane x3 c3 g3 :: st)
    | _, _ => Undefined
    end.
Proof.
  destruct sign_vec as [|g0 [|g1 [|g2 [|g3 gt]]]];
    destruct sin_cos_vec as [|c0 [|c1 [|c2 [|c3 ct]]]];
    try apply sin4_taylor_selected;
    repeat match goal with c : bool |- _ => destruct c end; reflexivity.
Qed.

(** X9: a selector array together with a null sign array makes the first
    iteration of [sin4_taylor] undefined, whatever the selectors are: both
    branches read [sign_vec[0]] through the null pointer. *)
Theorem sin4_taylor_null_sign (sinx x : list float) (sin_cos_vec : list bool) :
  sin4_taylor sinx x None (Some sin_cos_vec) = Undefined.
Proof.
  unfold sin4_taylor; cbn [for_loop].
  destruct sin_cos_vec as [|c ct]; [reflexivity | ].
  destruct x as [|x0 xt]; destruct c; reflexivity.
Qed.

Lemma sin4_taylor_plain_tail
    (o0 o1 o2 o3 : float) (ot : list float) (x0 x1 x2 x3 : float) (xt : list float) :
  sin4_taylor (o0 :: o1 :: o2 :: o3 :: ot) (x0 :: x1 :: x2 :: x3 :: xt) None None
  = Ok (Spec.sin_poly x0 :: Spec.sin_poly x1 :: Spec.sin_poly x2
        :: Spec.sin_poly x3 :: ot).
Proof.
  cbv [sin4_taylor for_loop set_and_false deref bind load defined nth_error
       store Nat.add negb].
  now rewrite !mul_one, !taylor_sin_spec.
Qed.

Lemma sin4_reference_lanes (sin : float -> float)
    (o0 o1 o2 o3 : float) (ot : list float) (x0 x1 x2 x3 : float) (xt : list float) :
  sin4_reference sin (o0 :: o1 :: o2 :: o3 :: ot) (x0 :: x1 :: x2 :: x3 :: xt)
  = Ok (sin x0 :: sin x1 :: sin x2 :: sin x3 :: ot).
Proof. reflexivity. Qed.

Lemma sin4_vector_tail
    (o0 o1 o2 o3 : float) (ot : list float) (x0 x1 x2 x3 : float) (xt : list float) :
  sin4_vector (o0 :: o1 :: o2 :: o3 :: ot) (x0 :: x1 :: x2 :: x3 :: xt)
  = Ok (Spec.sin_poly x0 :: Spec.sin_poly x1 :: Spec.sin_poly x2
        :: Spec.sin_poly x3 :: ot).
Proof.
  cbv [sin4_vector Vec4.LoadAligned Vec4.StoreAligned Vec4.mul Vec4.add
       Vec4.broadcast load_lanes store_lanes lanewise repeat combine map
       fst snd bind load defined nth_error store].
  now rewrite !vector_sin_spec.
Qed.

Lemma sin4_intrin_tail (sin : float -> float) (hw : isa)
    (o0 o1 o2 o3 : float) (ot : list float) (x0 x1 x2 x3 : float) (xt : list float) :
  sin4_intrin sin hw (o0 :: o1 :: o2 :: o3 :: ot) (x0 :: x1 :: x2 :: x3 :: xt)
  = Ok (intrin_lane sin hw x0 :: intrin_lane sin hw x1
        :: intrin_lane sin hw x2 :: intrin_lane sin hw x3 :: ot).
Proof.
  destruct hw; [ | | reflexivity];
    cbv [sin4_intrin _mm256_load_pd _mm256_mul_pd _mm256_add_pd _mm256_set1_pd
         _mm256_store_pd _mm_load_pd _mm_mul_pd _mm_add_pd _mm_set1_pd
         _mm_store_pd for_loop load_lanes store_lanes lanewise repeat combine
         map fst snd bind load defined nth_error store Nat.add intrin_lane];
    now rewrite !sin_deg3_spec.
Qed.

(** X10: on every batch [cos4_vector] stores 1 + (1 + c2 x^2 + ... + c10
    x^10) in each of the four cells, the leading 1 twice, and keeps cells 4
    and up of its output buffer. *)
Theorem cos4_vector_cells
    (o0 o1 o2 o3 : float) (ot : list float) (x0 x1 x2 x3 : float) (xt : list float) :
  cos4_vector (o0 :: o1 :: o2 :: o3 :: ot) (x0 :: x1 :: x2 :: x3 :: xt)
  = Ok (1 + Spec.cos_poly x0 :: 1 + Spec.cos_poly x1 :: 1 + Spec.cos_poly x2
        :: 1 + Spec.cos_poly x3 :: ot).
Proof.
  rewrite <- !taylor_cos_spec. reflexivity.
Qed.


(** ** The pipeline *)

(** X12: range reduction followed by the Taylor strategy with flags gives a
    result on a batch of four angles exactly when none of them is an
    infinity or a finite double of magnitude above 2^54; one such angle
    keeps the loop of [angle_transform] from ending. *)
Theorem reconstruct_returns_iff (s0 s1 s2 s3 x0 x1 x2 x3 : float) :
  (exists fuel r, reconstruct fuel [s0; s1; s2; s3] [x0; x1; x2; x3] = Ok r)
  <-> forallb (fun a => negb (0x1p54 <? abs a)) [x0; x1; x2; x3] = true.
Proof.
  cbn [forallb]; rewrite andb_true_r, !andb_true_iff, !negb_true_iff.
  split.
  - intros (fuel & r & H). unfold reconstruct in H; cbn [reduce_batch] in H.
    destruct (angle_transform fuel x0) as [a0| |] eqn:E0; cbn [bind] in H;
      try discriminate.
    destruct (angle_transform fuel x1) as [a1| |] eqn:E1; cbn [bind] in H;
      try discriminate.
    destruct (angle_transform fuel x2) as [a2| |] eqn:E2; cbn [bind] in H;
      try discriminate.
    destruct (angle_transform fuel x3) as [a3| |] eqn:E3; cbn [bind] in H;
      try discriminate.
    eauto 8 using returns_not_beyond.
  - intros (H0 & H1 & H2 & H3).
    destruct (returns_within x0 H0) as (n0 & a0 & E0).
    destruct (returns_within x1 H1) as (n1 & a1 & E1).
    destruct (returns_within x2 H2) as (n2 & a2 & E2).
    destruct (returns_within x3 H3) as (n3 & a3 & E3).
    unfold angle_transform in *.
    apply (while_more_fuel n0 (n1 + n2 + n3)) in E0.
    apply (while_more_fuel n1 (n0 + n2 + n3)) in E1.
    apply (while_more_fuel n2 (n0 + n1 + n3)) in E2.
    apply (while_more_fuel n3 (n0 + n1 + n2)) in E3.
    replace (n1 + (n0 + n2 + n3))%nat with (n0 + (n1 + n2 + n3))%nat in E1 by lia.
    replace (n2 + (n0 + n1 + n3))%nat with (n0 + (n1 + n2 + n3))%nat in E2 by lia.
    replace (n3 + (n0 + n1 + n2))%nat with (n0 + (n1 + n2 + n3))%nat in E3 by lia.
    exists (n0 + (n1 + n2 + n3))%nat.
    unfold reconstruct; cbn [reduce_batch]; unfold angle_transform.
    rewrite E0, E1, E2, E3; cbn [bind].
    rewrite sin4_taylor_selected. eexists; reflexivity.
Qed.

(** * Odd symmetry *)

Lemma taylor_cos_mirrored (x x' : float) :
  mirrored x x' -> taylor_cos x' = taylor_cos x.
Proof.
  intros H; unfold taylor_cos; cbv zeta. now rewrite (mirrored_square x x' H).
Qed.

Lemma taylor_sin_mirrored (x x' : float) :
  mirrored x x' -> mirrored (taylor_sin x) (taylor_sin x').
Proof.
  intros H; unfold taylor_sin; cbv zeta.
  rewrite (mirrored_square x x' H).
  repeat first [ apply mirrored_add | apply mirrored_mul_l | exact H ].
Qed.

(** X13: the cosine ladder of [sin4_taylor] gives the same double at x and
    at -x; the sine ladder at -x gives the negation of its value at x, or
    both values are zeros. *)
Theorem taylor_parity (x : float) :
  taylor_cos (- x) = taylor_cos x
  /\ mirrored (taylor_sin x) (taylor_sin (- x)).
Proof.
  split.
  - apply taylor_cos_mirrored, mirrored_opp.
  - apply taylor_sin_mirrored, mirrored_opp.
Qed.

Lemma outside_opp (r : float) : outside (- r) = outside r.
Proof.
  unfold outside.
  change (- M_PI / 4) with (- (M_PI / 4)).
  rewrite ltb_opp.
  rewrite <- (opp_involutive (M_PI / 4)) at 1. rewrite ltb_opp.
  apply orb_comm.
Qed.

Lemma zero_not_outside (r : float) : is_zero r = true -> outside r = false.
Proof.
  rewrite is_zero_spec; unfold outside; rewrite !ltb_spec; unfold SFltb.
  change (Prim2SF (M_PI / 4)) with (S754_finite false 7074237752028440 (-53)).
  change (Prim2SF (- M_PI / 4)) with (S754_finite true 7074237752028440 (-53)).
  now destruct (Prim2SF r).
Qed.

Lemma mirrored_outside (r r' : float) : mirrored r r' -> outside r' = outside r.
Proof.
  intros [-> | [H H']]; [apply outside_opp | ].
  now rewrite !zero_not_outside.
Qed.

(** Outside the interval the mirrored angle takes the other branch. *)
Lemma mirrored_branch (r : float) :
  outside r = true -> (- r <? - M_PI / 4) = negb (r <? - M_PI / 4).
Proof.
  intros Ho. change (- M_PI / 4) with (- (M_PI / 4)). rewrite ltb_opp.
  unfold outside in Ho. change (- M_PI / 4) with (- (M_PI / 4)) in Ho.
  destruct (r <? - (M_PI / 4)) eqn:Hl; cbn [negb].
  - apply leb_true_ltb_false.
    apply (leb_trans _ (- (M_PI / 4))); [now apply ltb_leb | reflexivity].
  - now rewrite orb_false_r in Ho.
Qed.

Lemma mirror_body (st st' : reduction) :
  mirror_state st st' -> outside (angle st) = true ->
  mirror_state (body st) (body st').
Proof.
  intros (Hc & Hs & Hm) Ho.
  assert (Ha : angle st' = - angle st).
  { destruct Hm as [H | [H _]]; [exact H | ].
    rewrite (zero_not_outside _ H) in Ho; discriminate. }
  unfold body; rewrite Ha, (mirrored_branch _ Ho).
  destruct (angle st <? - M_PI / 4); cbn [negb];
    unfold mirror_state; cbn [step_add step_sub angle sign sin_cos];
    rewrite Hc, Hs, Ha; (split; [reflexivity | split]);
    try (destruct (sin_cos st), (sign st); reflexivity).
  - rewrite sub_as_add. apply mirrored_add; apply mirrored_opp.
  - rewrite sub_as_add. apply mirrored_add; [apply mirrored_opp | ].
    left; symmetry; apply opp_involutive.
Qed.

Lemma mirror_while (fuel : nat) : forall st st',
  mirror_state st st' -> mirror_res (while fuel st) (while fuel st').
Proof.
  induction fuel as [|n IH]; intros st st' H;
    pose proof H as (_ & _ & Hm); cbn [while];
    rewrite (mirrored_outside _ _ Hm);
    destruct (outside (angle st)) eqn:Ho; cbn [mirror_res]; auto.
  apply IH. now apply mirror_body.
Qed.

Lemma mirror_start (a : float) : mirror_state (start a) (start (- a)).
Proof. repeat split. apply mirrored_opp. Qed.

(** X14: [angle_transform] on -a takes as many iterations as on a, the one
    adding where the other subtracts: both run out of the same fuel or both
    return, with the same selector, with mirrored angles, and with the same
    sign flag when the sine is selected and opposite sign flags when the
    cosine is. *)
Theorem angle_transform_odd (fuel : nat) (a : float) :
  mirror_res (angle_transform fuel a) (angle_transform fuel (- a)).
Proof.
  apply mirror_while, mirror_start.
Qed.

Lemma mirrored_taylor_lane (st st' : reduction) :
  mirror_state st st' ->
  mirrored (taylor_lane (angle st) (sin_cos st) (sign st))
           (taylor_lane (angle st') (sin_cos st') (sign st')).
Proof.
  intros (Hc & Hs & Hm). rewrite Hc, Hs. unfold taylor_lane.
  rewrite <- !taylor_sin_spec, <- !taylor_cos_spec.
  rewrite (taylor_cos_mirrored _ _ Hm).
  pose proof (taylor_sin_mirrored _ _ Hm) as Hsin.
  destruct (sin_cos st), (sign st); cbn [negb]; auto using mirrored_negate.
  - apply mirrored_opp.
  - left; symmetry; apply opp_involutive.
Qed.

(** X15: the pipeline of range reduction and Taylor strategy is odd: when it
    gives a result on a batch, it gives one on the negated batch, and each
    cell of the second is the negation of the cell of the first, or both are
    zeros. *)
Theorem reconstruct_odd (fuel : nat)
    (s0 s1 s2 s3 t0 t1 t2 t3 x0 x1 x2 x3 : float) (r : list float) :
  reconstruct fuel [s0; s1; s2; s3] [x0; x1; x2; x3] = Ok r ->
  exists r',
    reconstruct fuel [t0; t1; t2; t3] [- x0; - x1; - x2; - x3] = Ok r'
    /\ Forall2 mirrored r r'.
Proof.
  unfold reconstruct; cbn [reduce_batch]; unfold angle_transform.
  pose proof (mirror_while fuel _ _ (mirror_start x0)) as H0.
  pose proof (mirror_while fuel _ _ (mirror_start x1)) as H1.
  pose proof (mirror_while fuel _ _ (mirror_start x2)) as H2.
  pose proof (mirror_while fuel _ _ (mirror_start x3)) as H3.
  unfold mirror_res in *.
  destruct (while fuel (start x0)) as [a0| |]; cbn [bind]; try discriminate.
  destruct (while fuel (start x1)) as [a1| |]; cbn [bind]; try discriminate.
  destruct (while fuel (start x2)) as [a2| |]; cbn [bind]; try discriminate.
  destruct (while fuel (start x3)) as [a3| |]; cbn [bind]; try discriminate.
  destruct (while fuel (start (- x0))) as [b0| |]; try contradiction.
  destruct (while fuel (start (- x1))) as [b1| |]; try contradiction.
  destruct (while fuel (start (- x2))) as [b2| |]; try contradiction.
  destruct (while fuel (start (- x3))) as [b3| |]; try contradiction.
  cbn [bind]. rewrite !sin4_taylor_selected.
  intros [= <-]. eexists; split; [reflexivity | ].
  repeat (apply Forall2_cons; [now apply mirrored_taylor_lane | ]).
  apply Forall2_nil.
Qed.

Lemma reconstruct_odd_witness :
  exists r',
    reconstruct 1 [0; 0; 0; 0] [-1; -0.5; -0; 0.25] = Ok r'
    /\ Forall2 mirrored
         [0x1.aed548f08b53ap-1; 0x1.eaee8744b048fp-2; 0; -0x1.faaeed4f31577p-3]
         r'.
Proof.
  apply (reconstruct_odd 1 0 0 0 0 0 0 0 0 1 0.5 0 (-0.25)). vm_compute. reflexivity.
Defined.

(** * The error measure *)

Lemma err_unfold (x y : list float) (N : nat) :
  err x y N = for_loop N 0 1 (err_body x y) 0.
Proof. reflexivity. Qed.

Lemma load_some {A : Type} (p : list A) (i : nat) :
  (i < length p)%nat -> exists v, nth_error p i = Some v /\ load p i = Ok v.
Proof.
  intros H; unfold load.
  destruct (nth_error p i) as [v|] eqn:E.
  - now exists v.
  - apply nth_error_None in E; lia.
Qed.

Lemma load_none {A : Type} (p : list A) (i : nat) :
  (length p <= i)%nat -> load p i = Undefined.
Proof.
  intros H; unfold load. now rewrite (proj2 (nth_error_None p i) H).
Qed.

Lemma err_loop_defined (x y : list float) (n : nat) :
  forall lo e, (lo + n <= length x)%nat -> (lo + n <= length y)%nat ->
    exists e', for_loop n lo 1 (err_body x y) e = Ok e'.
Proof.
  induction n as [|n IH]; intros lo e Hx Hy; cbn [for_loop].
  - now exists e.
  - destruct (load_some x lo ltac:(lia)) as (xi & _ & Lx).
    destruct (load_some y lo ltac:(lia)) as (yi & _ & Ly).
    unfold err_body at 1; rewrite Lx, Ly; cbn [bind].
    apply IH; lia.
Qed.

Lemma err_loop_undefined (x y : list float) (n : nat) :
  forall lo e, (lo <= length x)%nat -> (lo <= length y)%nat ->
    (length x < lo + n \/ length y < lo + n)%nat ->
    for_loop n lo 1 (err_body x y) e = Undefined.
Proof.
  induction n as [|n IH]; intros lo e Hx Hy Hn; cbn [for_loop]; [lia | ].
  unfold err_body at 1.
  destruct (Nat.eq_dec lo (length x)) as [Ex|Ex].
  - now rewrite (load_none x lo) by lia.
  - destruct (load_some x lo ltac:(lia)) as (xi & _ & Lx); rewrite Lx; cbn [bind].
    destruct (Nat.eq_dec lo (length y)) as [Ey|Ey].
    + now rewrite (load_none y lo) by lia.
    + destruct (load_some y lo ltac:(lia)) as (yi & _ & Ly); rewrite Ly; cbn [bind].
      apply IH; lia.
Qed.

(** X16: [err] gives a result exactly when both buffers hold at least N
    cells; otherwise the loop reads past the end of one of them. *)
Theorem err_defined (x y : list float) (N : nat) :
  (exists e, err x y N = Ok e) <-> (N <= length x /\ N <= length y)%nat.
Proof.
  rewrite err_unfold; split.
  - intros [e He].
    destruct (le_lt_dec N (length x)) as [Hx|Hx];
      [destruct (le_lt_dec N (length y)) as [Hy|Hy]; [lia | ] | ];
      rewrite err_loop_undefined in He by lia; discriminate.
  - intros [Hx Hy]; now apply err_loop_defined.
Qed.

Lemma fmax_sound (e d : float) :
  sound_error e -> sound_error (fmax e (abs d)).
Proof.
  intros [Hn H0]; unfold fmax.
  destruct (e <? abs d) eqn:Hlt; [ | now split].
  destruct (ltb_true_not_nan _ _ Hlt) as [_ Hd].
  split; [exact Hd | ]. apply abs_nonneg. now rewrite <- is_nan_abs.
Qed.

Lemma fmax_ge_l (e d : float) : is_nan e = false -> (e <=? fmax e d) = true.
Proof.
  intros Hn; unfold fmax. destruct (e <? d) eqn:Hlt.
  - now apply ltb_leb.
  - now apply leb_refl.
Qed.

Lemma fmax_ge_r (e d : float) :
  is_nan e = false -> is_nan d = false -> (d <=? fmax e d) = true.
Proof.
  intros He Hd; unfold fmax. destruct (e <? d) eqn:Hlt.
  - now apply leb_refl.
  - now apply ltb_false_leb_true.
Qed.

Lemma err_loop_sound (x y : list float) (n : nat) :
  forall lo e e', sound_error e ->
    for_loop n lo 1 (err_body x y) e = Ok e' -> sound_error e'.
Proof.
  induction n as [|n IH]; intros lo e e' He; cbn [for_loop].
  - now intros [= <-].
  - unfold err_body at 1.
    destruct (load x lo) as [xi| | ]; cbn [bind]; try discriminate.
    destruct (load y lo) as [yi| | ]; cbn [bind]; try discriminate.
    apply IH, fmax_sound, He.
Qed.

Lemma sound_zero : sound_error 0.
Proof. now split. Qed.

(** X17: the error [err] returns is never NaN and never negative, whatever
    the buffers hold: [std::max] keeps the accumulator when the difference
    is NaN. *)
Theorem err_not_nan_nonneg (x y : list float) (N : nat) (e : float) :
  err x y N = Ok e -> is_nan e = false /\ (0 <=? e) = true.
Proof.
  rewrite err_unfold; apply err_loop_sound, sound_zero.
Qed.

Lemma err_not_nan_nonneg_witness :
  err [1; nan; 3] [infinity; 0; 3] 3 = Ok infinity
  /\ is_nan infinity = false /\ (0 <=? infinity) = true.
Proof.
  split; [reflexivity | ].
  apply (err_not_nan_nonneg [1; nan; 3] [infinity; 0; 3] 3); reflexivity.
Defined.

Lemma err_loop_bounds (x y : list float) (n : nat) :
  forall lo e e', sound_error e ->
    for_loop n lo 1 (err_body x y) e = Ok e' ->
    (e <=? e') = true
    /\ forall i xi yi, (lo <= i < lo + n)%nat ->
         nth_error x i = Some xi -> nth_error y i = Some yi ->
         is_nan (xi - yi) = false -> (abs (xi - yi) <=? e') = true.
Proof.
  induction n as [|n IH]; intros lo e e' He; cbn [for_loop].
  - intros [= <-]; split; [apply leb_refl, He | intros; lia].
  - unfold err_body at 1, load.
    destruct (nth_error x lo) as [x0|] eqn:Ex; cbn [defined bind]; try discriminate.
    destruct (nth_error y lo) as [y0|] eqn:Ey; cbn [defined bind]; try discriminate.
    intros Hrun.
    destruct (IH _ _ _ (fmax_sound e (x0 - y0) He) Hrun) as [Hle Hall].
    pose proof (fmax_ge_l e (abs (x0 - y0)) (proj1 He)) as Hl.
    split; [exact (leb_trans _ _ _ Hl Hle) | ].
    intros i xi yi Hi Hxi Hyi Hnan.
    destruct (Nat.eq_dec i lo) as [-> | Hne].
    + rewrite Ex in Hxi; rewrite Ey in Hyi.
      injection Hxi as <-; injection Hyi as <-.
      refine (leb_trans _ _ _ _ Hle).
      apply fmax_ge_r; [exact (proj1 He) | now rewrite is_nan_abs].
    + apply (Hall i); auto; lia.
Qed.

(** X18: the error [err] returns is at least the magnitude of the difference
    of every pair of cells below N whose difference is not NaN. *)
Theorem err_upper_bound (x y : list float) (N : nat) (e : float)
    (i : nat) (xi yi : float) :
  err x y N = Ok e -> (i < N)%nat ->
  nth_error x i = Some xi -> nth_error y i = Some yi ->
  is_nan (xi - yi) = false ->
  (abs (xi - yi) <=? e) = true.
Proof.
  rewrite err_unfold; intros Hrun Hi.
  destruct (err_loop_bounds x y N 0 0 e sound_zero Hrun) as [_ H].
  apply (H i); lia.
Qed.

Lemma err_upper_bound_witness :
  err [1; 2; 3] [1.5; 0; 3] 3 = Ok 2 /\ (abs (1 - 1.5) <=? 2) = true.
Proof.
  split; [reflexivity | ].
  apply (err_upper_bound [1; 2; 3] [1.5; 0; 3] 3 2 0 1 1.5); try reflexivity; lia.
Defined.

Lemma err_loop_attained (x y : list float) (n : nat) :
  forall lo e e',
    for_loop n lo 1 (err_body x y) e = Ok e' ->
    e' = e
    \/ exists i xi yi, (lo <= i < lo + n)%nat
         /\ nth_error x i = Some xi /\ nth_error y i = Some yi
         /\ e' = abs (xi - yi).
Proof.
  induction n as [|n IH]; intros lo e e'; cbn [for_loop].
  - intros [= <-]; now left.
  - unfold err_body at 1, load.
    destruct (nth_error x lo) as [x0|] eqn:Ex; cbn [defined bind]; try discriminate.
    destruct (nth_error y lo) as [y0|] eqn:Ey; cbn [defined bind]; try discriminate.
    intros Hrun.
    destruct (IH _ _ _ Hrun) as [-> | (i & xi & yi & Hi & Hxi & Hyi & ->)].
    + unfold fmax. destruct (e <? abs (x0 - y0)); [right | now left].
      exists lo, x0, y0; repeat split; auto; lia.
    + right. exists i, xi, yi; repeat split; auto; lia.
Qed.

(** X19: the error [err] returns is 0 or the magnitude of the difference of
    one pair of cells below N; with the bound above, it is the largest of
    these magnitudes. *)
Theorem err_attained (x y : list float) (N : nat) (e : float) :
  err x y N = Ok e ->
  e = 0
  \/ exists i xi yi, (i < N)%nat
       /\ nth_error x i = Some xi /\ nth_error y i = Some yi
       /\ e = abs (xi - yi).
Proof.
  rewrite err_unfold; intros Hrun.
  destruct (err_loop_attained x y N 0 0 e Hrun)
    as [-> | (i & xi & yi & Hi & H)]; [now left | right].
  exists i, xi, yi; split; [lia | exact H].
Qed.

Lemma err_attained_witness :
  2 = 0
  \/ exists i xi yi, (i < 3)%nat
       /\ nth_error [1; 2; 3] i = Some xi /\ nth_error [1.5; 0; 3] i = Some yi
       /\ 2 = abs (xi - yi).
Proof. apply (err_attained [1; 2; 3] [1.5; 0; 3] 3 2). reflexivity. Defined.

Lemma err_loop_self (x : list float) (n : nat) :
  forall lo, (lo + n <= length x)%nat ->
    for_loop n lo 1 (err_body x x) 0 = Ok 0.
Proof.
  induction n as [|n IH]; intros lo H; cbn [for_loop]; [reflexivity | ].
  destruct (load_some x lo ltac:(lia)) as (v & _ & L).
  unfold err_body at 1; rewrite L; cbn [bind].
  unfold fmax; rewrite abs_sub_diag. apply IH; lia.
Qed.

(** X20: the error of a buffer against itself is zero, also where the
    buffer holds NaN or an infinity. *)
Theorem err_self (x : list float) (N : nat) :
  (N <= length x)%nat -> err x x N = Ok 0.
Proof. intros H; rewrite err_unfold; now apply err_loop_self. Qed.

Lemma err_self_witness :
  (3 <= length [1%float; nan; infinity])%nat /\ err [1; nan; infinity] [1; nan; infinity] 3 = Ok 0.
Proof. split; [cbn; lia | apply (err_self [1; nan; infinity] 3); cbn; lia]. Defined.

Lemma err_body_comm (x y : list float) (i : nat) (e : float) :
  err_body x y i e = err_body y x i e.
Proof.
  unfold err_body, load.
  destruct (nth_error x i) as [xi|], (nth_error y i) as [yi|];
    cbn [defined bind]; try reflexivity.
  now rewrite abs_sub_comm.
Qed.

Lemma for_loop_ext {S : Type} (f g : nat -> S -> res S) (n : nat) :
  (forall i s, f i s = g i s) ->
  forall lo stride s, for_loop n lo stride f s = for_loop n lo stride g s.
Proof.
  intros H; induction n as [|n IH]; intros lo stride s; cbn [for_loop];
    [reflexivity | ].
  rewrite (H lo s). destruct (g lo s); cbn [bind]; auto.
Qed.

(** X21: [err] does not depend on the order of its two buffers. *)
Theorem err_symmetric (x y : list float) (N : nat) : err x y N = err y x N.
Proof.
  rewrite !err_unfold; apply for_loop_ext, err_body_comm.
Qed.

(** * The angles [main] generates

    [drand48] returns a double d with 0 <= d < 1.  Line 180 computes
    (d - 0.5) * M_PI / 2 with three roundings; each of them is monotone, so
    the result stays between -M_PI/4 and M_PI/4. *)

Section GeneratedAngles.

Local Open Scope Z_scope.

(** The product of a number below 1/2 in magnitude with M_PI. *)
Lemma SFmul_pi_small (s : bool) (m : positive) (e : Z) :
  bounded prec emax m e = true ->
  Z.pos m * 2 ^ (e + 1074) < 2 ^ 1073 ->
  let r := SF64mul (S754_finite s m e) (S754_finite false 7074237752028440 (-51)) in
  is_finite_sf r = true /\ Z.abs (Zval r) <= Zp.
Proof.
  intros Hb Hlt r; subst r; unfold SF64mul, SFmul.
  destruct (bounded_facts m e Hb) as (He & Hm53 & _).
  set (a := e + 1074) in *.
  assert (Ha : 0 <= a <= 1072).
  { split; [lia | ].
    assert (H : 2 ^ a < 2 ^ 1073).
    { apply Z.le_lt_trans with (2 := Hlt).
      assert (0 < 2 ^ a) by (apply pow2_pos; lia). nia. }
    apply Z.pow_lt_mono_r_iff in H; lia. }
  assert (Hm : Z.pos m < 1 * 2 ^ (1073 - a)).
  { apply (lt_pow_cancel _ _ a); try lia.
    replace (1073 - a + a) with 1073 by lia. lia. }
  rewrite Z.mul_1_l in Hm.
  set (M := Z.pos (m * 7074237752028440)).
  assert (HM : M = Z.pos m * pi_m) by reflexivity.
  assert (Hpi : 0 < pi_m < 2 ^ 53) by (unfold pi_m; split; [lia | reflexivity]).
  assert (Ht : 0 < 2 ^ (1073 - a)) by (apply pow2_pos; lia).
  assert (HM0 : 0 <= M) by (unfold M; lia).
  assert (HMlt : M < 2 ^ (1126 - a)).
  { replace (1126 - a) with (53 + (1073 - a)) by lia.
    rewrite (Z.pow_add_r 2 53 (1073 - a)) by lia.
    rewrite HM. set (t := 2 ^ (1073 - a)) in *. clearbody t. nia. }
  assert (HD : Zdigits2 M <= 1126 - a) by (apply Zdigits2_lt; lia).
  split.
  - apply binary_round_aux_fin; unfold a in *; lia.
  - unfold Zp. fold pi_m.
    apply binary_round_aux_below; try lia.
    + unfold shift_count, fexp, SpecFloat.emin, prec, emax. unfold a in *. lia.
    + set (n := shift_count M (e + -51)).
      destruct (shift_count_lower M (e + -51)) as [Hn Hne]; fold n in Hn, Hne.
      apply Z.div_lt_upper_bound; [apply pow2_pos; lia | ].
      rewrite Z.mul_comm, <- Z.mul_assoc, <- Z.pow_add_r; try lia.
      * replace (1022 - (e + -51 + n + 1074) + n) with (1073 - a) by (unfold a; lia).
        rewrite HM. set (t := 2 ^ (1073 - a)) in *. clearbody t. nia.
      * unfold n, shift_count, fexp, SpecFloat.emin, prec, emax. unfold a in *. lia.
Qed.

(** Half of a number below M_PI/2 in magnitude. *)
Lemma SFdiv_two_small (s : bool) (m : positive) (e : Z) :
  bounded prec emax m e = true ->
  Z.pos m * 2 ^ (e + 1074) < Zp ->
  let r := SF64div (S754_finite s m e) (S754_finite false 4503599627370496 (-51)) in
  is_finite_sf r = true /\ Z.abs (Zval r) <= Zq.
Proof.
  intros Hb Hlt r; subst r; unfold SF64div, SFdiv, SFdiv_core_binary; cbv zeta.
  destruct (bounded_facts m e Hb) as (He & Hm53 & Hnorm).
  change (Zdigits2 4503599627370496) with 53.
  set (a := e + 1074) in *.
  unfold Zp in Hlt; fold pi_m in Hlt.
  assert (Hpi : 0 < pi_m < 2 ^ 53) by (unfold pi_m; split; [lia | reflexivity]).
  assert (Ha : 0 <= a <= 1022).
  { split; [lia | ].
    destruct (Z.eq_dec e (-1074)) as [E|E]; [unfold a; lia | ].
    assert (H52 : 2 ^ 52 <= Z.pos m) by (apply Hnorm; lia).
    assert (H : 2 ^ (52 + a) < 2 ^ (53 + 1022)).
    { rewrite (Z.pow_add_r 2 52 a), (Z.pow_add_r 2 53 1022) by lia.
      assert (0 < 2 ^ a) by (apply pow2_pos; lia).
      set (t := 2 ^ a) in *; set (w := 2 ^ 1022) in *; clearbody t w. nia. }
    apply Z.pow_lt_mono_r_iff in H; lia. }
  assert (Hm : Z.pos m < pi_m * 2 ^ (1022 - a)).
  { apply (lt_pow_cancel _ _ a); try lia.
    now replace (1022 - a + a) with 1022 by lia. }
  assert (Ht : 0 < 2 ^ (1022 - a)) by (apply pow2_pos; lia).
  assert (Hd1 : Zdigits2 (Z.pos m) <= 1075 - a).
  { apply Zdigits2_lt; try lia.
    replace (1075 - a) with (53 + (1022 - a)) by lia.
    rewrite (Z.pow_add_r 2 53 (1022 - a)) by lia.
    set (t := 2 ^ (1022 - a)) in *. clearbody t. nia. }
  assert (Hd0 : 0 < Zdigits2 (Z.pos m)) by (cbn [Zdigits2]; lia).
  set (e' := Z.min (fexp prec emax (Zdigits2 (Z.pos m) + e - (53 + -51))) (e - -51)).
  assert (He' : -1074 <= e' <= -54 /\ e' <= e + 51).
  { unfold e', fexp, SpecFloat.emin, prec, emax. unfold a in *. lia. }
  set (sh := e - -51 - e').
  assert (Hsh : 0 <= sh) by (unfold sh; lia).
  set (m' := match sh with
             | 0 => Z.pos m
             | Z.pos _ => Z.shiftl (Z.pos m) sh
             | Z.neg _ => 0
             end).
  assert (Hm' : m' = Z.pos m * 2 ^ sh).
  { unfold m'; destruct sh as [|p|p] eqn:E; try lia.
    apply Z.shiftl_mul_pow2; lia. }
  assert (Hpsh : 0 < 2 ^ sh) by (apply pow2_pos; lia).
  destruct (IntDef.Z.div_eucl m' 4503599627370496) as [q rem] eqn:Ediv.
  assert (Hq : q = m' / 2 ^ 52) by exact (eq_sym (f_equal fst Ediv)).
  assert (Hq0 : 0 <= q) by (rewrite Hq; apply Z.div_pos; nia).
  assert (Hx : 0 <= -53 - e') by lia.
  assert (Hqlt : q < pi_m * 2 ^ (-53 - e')).
  { rewrite Hq. apply Z.div_lt_upper_bound; [reflexivity | ].
    rewrite (Z.mul_comm (2 ^ 52)), <- Z.mul_assoc, <- Z.pow_add_r by lia.
    replace (-53 - e' + 52) with (1022 - a + sh) by (unfold sh, a; lia).
    rewrite (Z.pow_add_r 2 (1022 - a) sh), Z.mul_assoc, Hm' by lia.
    apply Z.mul_lt_mono_pos_r; lia. }
  assert (Hdq : Zdigits2 q <= - e').
  { apply Zdigits2_lt; try lia.
    replace (- e') with (53 + (-53 - e')) by lia.
    rewrite (Z.pow_add_r 2 53 (-53 - e')) by lia.
    assert (0 < 2 ^ (-53 - e')) by (apply pow2_pos; lia).
    set (t := 2 ^ (-53 - e')) in *. clearbody t. nia. }
  assert (Hdq0 : 0 <= Zdigits2 q) by (destruct q; cbn [Zdigits2]; lia).
  split.
  - apply binary_round_aux_fin; lia.
  - unfold Zq. fold pi_m.
    set (n := shift_count q e').
    destruct (shift_count_lower q e') as [Hn Hne]; fold n in Hn, Hne.
    assert (HK : e' + n + 1074 <= 1021).
    { unfold n, shift_count, fexp, SpecFloat.emin, prec, emax. lia. }
    apply binary_round_aux_below; fold n; try lia.
    apply Z.div_lt_upper_bound; [apply pow2_pos; lia | ].
    rewrite Z.mul_comm, <- Z.mul_assoc, <- Z.pow_add_r by lia.
    now replace (1021 - (e' + n + 1074) + n) with (-53 - e') by lia.
Qed.

(** Just above 1/2 the doubles are 2^-53 apart. *)
Lemma grid_above_half (s : bool) (m : positive) (e : Z) :
  bounded prec emax m e = true ->
  Z.pos m * 2 ^ (e + 1074) < 2 ^ 1073 + 2 ^ 1021 ->
  Z.pos m * 2 ^ (e + 1074) <= 2 ^ 1073.
Proof.
  intros Hb Hlt.
  destruct (bounded_facts m e Hb) as (He & Hm53 & _).
  set (a := e + 1074) in *.
  destruct (Z_le_gt_dec (Z.pos m * 2 ^ a) (2 ^ 1073)) as [H|H]; [exact H | exfalso].
  assert (Ha : 1021 <= a).
  { assert (Hp : 2 ^ 1020 < 2 ^ a).
    { assert (0 < 2 ^ a) by (apply pow2_pos; lia).
      change (2 ^ 1073) with (2 ^ 53 * 2 ^ 1020) in H.
      set (t := 2 ^ a) in *; set (w := 2 ^ 1020) in *.
      assert (0 < w) by reflexivity. clearbody t w. nia. }
    apply Z.pow_lt_mono_r_iff in Hp; lia. }
  replace a with ((a - 1021) + 1021) in H, Hlt by lia.
  rewrite (Z.pow_add_r 2 (a - 1021) 1021) in H, Hlt by lia.
  change (2 ^ 1073) with (2 ^ 52 * 2 ^ 1021) in H, Hlt.
  assert (0 < 2 ^ (a - 1021)) by (apply pow2_pos; lia).
  set (t := 2 ^ (a - 1021)) in *; set (w := 2 ^ 1021) in *.
  assert (Hw : 0 < w) by reflexivity. clearbody t w.
  rewrite Z.mul_assoc in H, Hlt.
  replace (2 ^ 52 * w + w) with ((2 ^ 52 + 1) * w) in Hlt by lia.
  apply Z.gt_lt, Z.mul_lt_mono_pos_r in H; [ | exact Hw].
  apply Z.mul_lt_mono_pos_r in Hlt; [ | exact Hw].
  lia.
Qed.

Lemma SFsub_half_small (m : positive) (e : Z) :
  bounded prec emax m e = true ->
  Z.pos m * 2 ^ (e + 1074) < 2 ^ 1074 ->
  let r := SF64sub (S754_finite false m e) (S754_finite false 4503599627370496 (-53)) in
  is_finite_sf r = true
  /\ Z.abs (Zval r) * 2 ^ 52 < (2 ^ 1073 + 2 ^ 1021) * 2 ^ 52.
Proof.
  intros Hb Hlt.
  pose proof (SFsub_error false false m 4503599627370496 e (-53) Hb eq_refl)
    as (Herr & _ & Hfin).
  cbv zeta in *.
  set (r := SF64sub _ _) in *.
  cbn [Zval cond_Zopp] in Herr, Hfin.
  change (4503599627370496 * 2 ^ (-53 + 1074)) with (2 ^ 1073) in Herr, Hfin.
  destruct (bounded_facts m e Hb) as (He & _ & _).
  assert (H0 : 0 < Z.pos m * 2 ^ (e + 1074))
    by (apply Z.mul_pos_pos; [lia | apply pow2_pos; lia]).
  set (v := Z.pos m * 2 ^ (e + 1074)) in *.
  change (2 ^ 1074) with (2 * 2 ^ 1073) in Hlt.
  change (2 ^ 2074) with (2 ^ 1001 * 2 ^ 1073) in Hfin.
  change (2 ^ 1021) with (2 ^ 1073 / 2 ^ 52).
  set (h := 2 ^ 1073) in *.
  assert (Hh : h = 2 ^ 52 * (h / 2 ^ 52)) by reflexivity.
  assert (Hh0 : 0 < h / 2 ^ 52) by reflexivity.
  clearbody v h.
  split; [apply Hfin; lia | ].
  eapply Z.le_lt_trans; [exact Herr | ]. lia.
Qed.

End GeneratedAngles.

Lemma sub_half_small (d : float) :
  (0 <=? d) = true -> (d <? 1) = true -> small (d - 0.5) (2 ^ 1073).
Proof.
  intros H0 H1; unfold small, FV.
  pose proof (Prim2SF_valid (d - 0.5)) as Vr.
  rewrite sub_spec in *.
  rewrite leb_spec in H0; rewrite ltb_spec in H1; unfold SFleb, SFltb in *.
  change (Prim2SF 0) with (S754_zero false) in H0.
  change (Prim2SF 1) with (S754_finite false 4503599627370496 (-52)) in H1.
  change (Prim2SF 0.5) with (S754_finite false 4503599627370496 (-53)) in *.
  destruct (Prim2SF d) as [s|s| |s m e] eqn:Ed.
  - split; [reflexivity | ]. cbn [SF64sub SFsub negb Zval cond_Zopp]. lia.
  - destruct s; discriminate.
  - discriminate.
  - destruct s; [discriminate | ].
    pose proof (finite_valid d _ _ _ Ed) as Hb.
    assert (Hlt : (Z.pos m * 2 ^ (e + 1074) < 2 ^ 1074)%Z).
    { rewrite (SFcompare_Zval (S754_finite false m e)
                 (S754_finite false 4503599627370496 (-52))) in H1
        by (try exact Hb; reflexivity).
      cbn [Zval cond_Zopp] in H1.
      change (4503599627370496 * 2 ^ (-52 + 1074))%Z with (2 ^ 1074)%Z in H1.
      destruct (Z.compare_spec (Z.pos m * 2 ^ (e + 1074)) (2 ^ 1074)) as [ |Hc| ];
        try discriminate. exact Hc. }
    destruct (SFsub_half_small m e Hb Hlt) as [Hfin Herr].
    split; [exact Hfin | ].
    apply Z.mul_lt_mono_pos_r in Herr; [ | reflexivity].
    destruct (SF64sub _ _) as [sr|sr| |sr mr er]; cbn [Zval Z.abs]; try lia.
    assert (Habs : Z.abs (cond_Zopp sr (Z.pos mr * 2 ^ (er + 1074)))
                   = (Z.pos mr * 2 ^ (er + 1074))%Z).
    { destruct (bounded_facts mr er Vr) as (He & _ & _).
      assert (0 < Z.pos mr * 2 ^ (er + 1074))%Z
        by (apply Z.mul_pos_pos; [lia | apply pow2_pos; lia]).
      destruct sr; cbn [cond_Zopp]; lia. }
    cbn [Zval] in Herr. rewrite Habs in *.
    now apply (grid_above_half sr).
Qed.

Lemma mul_pi_small (u : float) : small u (2 ^ 1073) -> small (u * M_PI) Zp.
Proof.
  unfold small, FV; rewrite mul_spec.
  change (Prim2SF M_PI) with (S754_finite false 7074237752028440 (-51)).
  destruct (Prim2SF u) as [s|s| |s m e] eqn:Eu; intros [Hf Hle]; try discriminate.
  - split; [reflexivity | ]. cbn [SF64mul SFmul Zval Z.abs]. unfold Zp; lia.
  - pose proof (finite_valid u _ _ _ Eu) as Hb.
    rewrite (abs_Zval_finite s m e Hb) in Hle.
    destruct (Z.eq_dec (Z.pos m * 2 ^ (e + 1074)) (2 ^ 1073)) as [E|E].
    + destruct (Zval_finite_inj s m 4503599627370496 e (-53) Hb eq_refl E)
        as [-> ->].
      destruct s; split; vm_compute; congruence.
    + apply SFmul_pi_small; [exact Hb | lia].
Qed.

Lemma div_two_small (v : float) : small v Zp -> small (v / 2) Zq.
Proof.
  unfold small, FV; rewrite div_spec.
  change (Prim2SF 2) with (S754_finite false 4503599627370496 (-51)).
  destruct (Prim2SF v) as [s|s| |s m e] eqn:Ev; intros [Hf Hle]; try discriminate.
  - split; [reflexivity | ]. cbn [SF64div SFdiv Zval Z.abs]. unfold Zq; lia.
  - pose proof (finite_valid v _ _ _ Ev) as Hb.
    rewrite (abs_Zval_finite s m e Hb) in Hle.
    destruct (Z.eq_dec (Z.pos m * 2 ^ (e + 1074)) Zp) as [E|E].
    + destruct (Zval_finite_inj s m 7074237752028440 e (-52) Hb eq_refl E)
        as [-> ->].
      destruct s; split; vm_compute; congruence.
    + apply SFdiv_two_small; [exact Hb | lia].
Qed.

Lemma small_in_range (w : float) : small w Zq -> in_range w = true.
Proof.
  unfold small, FV; intros [Hf Hle].
  assert (Hn : is_nan w = false)
    by (rewrite is_nan_spec; now destruct (Prim2SF w)).
  unfold in_range. rewrite !leb_Zkey by (assumption || reflexivity).
  assert (K : Zkey (Prim2SF w) = Zval (Prim2SF w))
    by (now destruct (Prim2SF w)).
  rewrite K.
  change (Zkey (Prim2SF (M_PI / 4))) with Zq.
  change (Zkey (Prim2SF (- M_PI / 4))) with (- Zq)%Z.
  apply andb_true_intro; split; apply Z.leb_le; lia.
Qed.

Lemma generated_in_range (d : float) :
  (0 <=? d) = true -> (d <? 1) = true ->
  in_range ((d - 0.5) * M_PI / 2) = true.
Proof.
  intros H0 H1.
  apply small_in_range, div_two_small, mul_pi_small, sub_half_small; assumption.
Qed.

(** * The driver *)

Lemma length_4k {A : Type} (l : list A) (k : nat) :
  length l = (4 * S k)%nat ->
  exists a b c d t, l = a :: b :: c :: d :: t /\ length t = (4 * k)%nat.
Proof.
  destruct l as [|a [|b [|c [|d t]]]]; cbn [length]; intros H; try lia.
  exists a, b, c, d, t; split; [reflexivity | lia].
Qed.

Lemma lanes4_length (f0 f1 f2 f3 : float -> float) (k : nat) :
  forall x, length x = (4 * k)%nat -> length (lanes4 f0 f1 f2 f3 x) = length x.
Proof.
  induction k as [|k IH]; intros x H.
  - destruct x; [reflexivity | cbn [length] in H; lia].
  - destruct (length_4k x k H) as (a & b & c & d & t & -> & Ht).
    cbn [lanes4 length]. now rewrite (IH t Ht).
Qed.

Lemma lanes4_map (f : float -> float) (k : nat) :
  forall x, length x = (4 * k)%nat -> lanes4 f f f f x = map f x.
Proof.
  induction k as [|k IH]; intros x H.
  - destruct x; [reflexivity | cbn [length] in H; lia].
  - destruct (length_4k x k H) as (a & b & c & d & t & -> & Ht).
    cbn [lanes4 map]. now rewrite (IH t Ht).
Qed.

Lemma for_loop_snoc {S : Type} (body : nat -> S -> res S) (n : nat) :
  forall lo stride s,
    for_loop (n + 1) lo stride body s
    = (s' <- for_loop n lo stride body s ;; body (lo + n * stride)%nat s').
Proof.
  induction n as [|n IH]; intros lo stride s; cbn [for_loop Nat.add Nat.mul bind].
  - rewrite Nat.add_0_r. now destruct (body lo s).
  - destruct (body lo s) as [s1| |]; cbn [bind]; try reflexivity.
    rewrite IH.
    now replace (lo + stride + n * stride)%nat
      with (lo + (stride + n * stride))%nat by lia.
Qed.

Section Pass.

Variable strategy : list float -> list float -> res (list float).
Variables f0 f1 f2 f3 : float -> float.

(** The strategy reads four cells, writes four cells and leaves the rest. *)
Hypothesis strategy_lanes :
  forall o0 o1 o2 o3 ot x0 x1 x2 x3 xt,
    strategy (o0 :: o1 :: o2 :: o3 :: ot) (x0 :: x1 :: x2 :: x3 :: xt)
    = Ok (f0 x0 :: f1 x1 :: f2 x2 :: f3 x3 :: ot).

(** With fewer than four cells left the strategy reads past the end. *)
Hypothesis strategy_short :
  forall out x, (length x < 4)%nat -> strategy out x = Undefined.

Lemma pass_from_tail (k : nat) :
  forall X pre xpre out x otail xtail,
    X = xpre ++ x ++ xtail -> length pre = length xpre ->
    length out = (4 * k)%nat -> length x = (4 * k)%nat ->
    for_loop k (length pre) 4 (fun i o => offset_call strategy i o X)
      (pre ++ out ++ otail)
    = Ok (pre ++ lanes4 f0 f1 f2 f3 x ++ otail).
Proof.
  induction k as [|k IH]; intros X pre xpre out x otail xtail HX Hpre Hout Hx.
  - destruct out; [ | cbn [length] in Hout; lia].
    destruct x; [ | cbn [length] in Hx; lia].
    reflexivity.
  - destruct (length_4k out k Hout) as (o0 & o1 & o2 & o3 & ot & -> & Hot).
    destruct (length_4k x k Hx) as (x0 & x1 & x2 & x3 & xt & -> & Hxt).
    cbn [for_loop]. unfold offset_call at 1.
    assert (L1 : (length pre <=? length (pre ++ (o0 :: o1 :: o2 :: o3 :: ot) ++ otail))%nat = true)
      by (apply Nat.leb_le; rewrite length_app; lia).
    assert (L2 : (length pre <=? length X)%nat = true)
      by (apply Nat.leb_le; rewrite HX, length_app; lia).
    rewrite L1, L2; cbn [andb].
    rewrite skipn_app, skipn_all, Nat.sub_diag, firstn_app, firstn_all, Nat.sub_diag.
    cbn [skipn firstn app].
    rewrite HX at 1. rewrite Hpre at 1.
    rewrite skipn_app, skipn_all, Nat.sub_diag. cbn [skipn app].
    rewrite strategy_lanes. cbn [bind].
    rewrite app_nil_r.
    replace (pre ++ f0 x0 :: f1 x1 :: f2 x2 :: f3 x3 :: ot ++ otail)
      with ((pre ++ [f0 x0; f1 x1; f2 x2; f3 x3]) ++ ot ++ otail)
      by (now rewrite <- app_assoc).
    replace (length pre + 4)%nat with (length (pre ++ [f0 x0; f1 x1; f2 x2; f3 x3]))
      by (rewrite length_app; reflexivity).
    rewrite (IH X (pre ++ [f0 x0; f1 x1; f2 x2; f3 x3]) (xpre ++ [x0; x1; x2; x3])
               ot xt otail xtail); try assumption.
    + cbn [lanes4 app]. now rewrite <- app_assoc.
    + rewrite HX, <- app_assoc. reflexivity.
    + rewrite !length_app; cbn [length]; lia.
Qed.

Lemma pass_from (k : nat) :
  forall X pre xpre out x,
    X = xpre ++ x -> length pre = length xpre ->
    length out = (4 * k)%nat -> length x = (4 * k)%nat ->
    for_loop k (length pre) 4 (fun i o => offset_call strategy i o X) (pre ++ out)
    = Ok (pre ++ lanes4 f0 f1 f2 f3 x).
Proof.
  intros X pre xpre out x HX Hpre Hout Hx.
  pose proof (pass_from_tail k X pre xpre out x [] []) as H.
  rewrite !app_nil_r in H. now apply H.
Qed.

Lemma pass_lanes (k : nat) (out x : list float) :
  length out = (4 * k)%nat -> length x = (4 * k)%nat ->
  pass strategy (4 * k) out x = Ok (lanes4 f0 f1 f2 f3 x).
Proof.
  intros Hout Hx; unfold pass.
  replace ((4 * k + 3) / 4)%nat with k
    by (apply (Nat.div_unique _ 4 k 3); lia).
  exact (pass_from k x [] [] out x eq_refl eq_refl Hout Hx).
Qed.

Lemma repeat_pass (n k : nat) (x : list float) :
  length x = (4 * k)%nat ->
  forall lo out, length out = (4 * k)%nat ->
    for_loop (S n) lo 1 (fun _ out => pass strategy (4 * k) out x) out
    = Ok (lanes4 f0 f1 f2 f3 x).
Proof.
  intros Hx; induction n as [|n IH]; intros lo out Hout.
  - cbn [for_loop]. now rewrite pass_lanes.
  - change (for_loop (S (S n)) lo 1 _ out)
      with (s' <- pass strategy (4 * k) out x ;;
            for_loop (S n) (lo + 1) 1 (fun _ out => pass strategy (4 * k) out x) s').
    rewrite pass_lanes by assumption. cbn [bind].
    apply IH. now rewrite (lanes4_length _ _ _ _ k).
Qed.

Lemma repeated_lanes (k : nat) (out x : list float) :
  length out = (4 * k)%nat -> length x = (4 * k)%nat ->
  repeated strategy (4 * k) out x = Ok (lanes4 f0 f1 f2 f3 x).
Proof.
  intros Hout Hx; unfold repeated.
  now apply (repeat_pass 999 k x Hx).
Qed.

Lemma pass_overrun (k j : nat) (out x : list float) :
  (0 < j < 4)%nat ->
  length out = (4 * k + j)%nat -> length x = (4 * k + j)%nat ->
  pass strategy (4 * k + j) out x = Undefined.
Proof.
  intros Hj Hout Hx; unfold pass.
  replace ((4 * k + j + 3) / 4)%nat with (k + 1)%nat
    by (apply (Nat.div_unique _ 4 (k + 1) (j - 1)); lia).
  rewrite for_loop_snoc.
  rewrite <- (firstn_skipn (4 * k) out) at 1.
  assert (Lo : length (firstn (4 * k) out) = (4 * k)%nat)
    by (rewrite length_firstn; lia).
  assert (Lx : length (firstn (4 * k) x) = (4 * k)%nat)
    by (rewrite length_firstn; lia).
  pose proof (pass_from_tail k x [] [] (firstn (4 * k) out) (firstn (4 * k) x)
                (skipn (4 * k) out) (skipn (4 * k) x)
                (eq_sym (firstn_skipn (4 * k) x)) eq_refl Lo Lx) as Hrun.
  cbn [length app] in Hrun. rewrite Hrun.
  cbn [bind Nat.add]. unfold offset_call.
  set (o' := lanes4 f0 f1 f2 f3 (firstn (4 * k) x) ++ skipn (4 * k) out).
  replace (k * 4)%nat with (4 * k)%nat by lia.
  destruct ((4 * k <=? length o') && (4 * k <=? length x))%nat; [ | reflexivity].
  rewrite strategy_short; [reflexivity | ].
  rewrite length_skipn; lia.
Qed.

End Pass.

Lemma generate_length (drand48 : nat -> float) (N : nat) :
  length (generate drand48 N) = N.
Proof. unfold generate; now rewrite length_map, length_seq. Qed.

Lemma repeated_uniform (strategy : list float -> list float -> res (list float))
    (f : float -> float) (k : nat) (x : list float) :
  (forall o0 o1 o2 o3 ot x0 x1 x2 x3 xt,
     strategy (o0 :: o1 :: o2 :: o3 :: ot) (x0 :: x1 :: x2 :: x3 :: xt)
     = Ok (f x0 :: f x1 :: f x2 :: f x3 :: ot)) ->
  length x = (4 * k)%nat ->
  repeated strategy (4 * k) (repeat 0 (4 * k)) x = Ok (map f x).
Proof.
  intros Hs Hx.
  rewrite (repeated_lanes strategy f f f f Hs k); auto using repeat_length.
  f_equal; now apply (lanes4_map f k).
Qed.

Lemma repeated_taylor_true (k : nat) (x : list float) :
  length x = (4 * k)%nat ->
  repeated
    (fun out xi =>
       sin4_taylor out xi (Some (repeat true (4 * k))) (Some (repeat true (4 * k))))
    (4 * k) (repeat 0 (4 * k)) x
  = Ok (map Spec.sin_poly x).
Proof.
  intros Hx; destruct k as [|k].
  - destruct x; [reflexivity | discriminate].
  - apply repeated_uniform; [ | exact Hx].
    intros. replace (4 * S k)%nat with (4 + 4 * k)%nat by lia.
    cbn [repeat Nat.add]. apply sin4_taylor_selected.
Qed.

Lemma benchmark_errors (sin : float -> float) (hw : isa)
    (drand48 : nat -> float) (k fuel : nat) :
  let N := (4 * k)%nat in
  let x := generate drand48 N in
  forallb in_range x = true ->
  benchmark sin hw drand48 N fuel
  = (e11 <- err (map sin x) (map Spec.sin_poly x) N ;;
     e3 <- err (map sin x) (map (intrin_lane sin hw) x) N ;;
     Ok (e11, e3, e11)).
Proof.
  intros N x Hx; subst N; unfold benchmark; fold x.
  rewrite (reduce_batch_quiet fuel x (forallb_in_range_quiet x Hx)); cbn [bind].
  assert (Lx : length x = (4 * k)%nat) by apply generate_length.
  rewrite Lx.
  rewrite (repeated_uniform _ sin k x (sin4_reference_lanes sin) Lx); cbn [bind].
  rewrite (repeated_taylor_true k x Lx); cbn [bind].
  rewrite (repeated_uniform _ _ k x (sin4_intrin_tail sin hw) Lx).
  rewrite (repeated_uniform _ _ k x sin4_vector_tail Lx).
  destruct (err (map sin x) (map Spec.sin_poly x) (4 * k)) as [e11| | ] eqn:E11;
    cbn [bind]; try reflexivity.
  destruct (err (map sin x) (map (intrin_lane sin hw) x) (4 * k)) as [e3| | ];
    cbn [bind]; try reflexivity.
  now rewrite E11.
Qed.

Lemma generate_forallb (drand48 : nat -> float) (N : nat) :
  (forall i, (0 <=? drand48 i) = true /\ (drand48 i <? 1) = true) ->
  forallb in_range (generate drand48 N) = true.
Proof.
  intros Hd; unfold generate. apply forallb_forall.
  intros a Ha; apply in_map_iff in Ha; destruct Ha as (i & <- & _).
  destruct (Hd i) as [H0 H1]. now apply generated_in_range.
Qed.

(** X22: when [drand48] returns doubles d with 0 <= d < 1, every angle
    (d - 0.5) * M_PI / 2 that [main] generates lies in the closed interval
    from -M_PI/4 to M_PI/4, as the comment of line 180 says; so the call of
    [angle_transform] in the initialisation loop leaves every angle as it is
    and every flag true. *)
Theorem main_angles_in_range (drand48 : nat -> float) (N fuel : nat) :
  (forall i, (0 <=? drand48 i) = true /\ (drand48 i <? 1) = true) ->
  forallb in_range (generate drand48 N) = true
  /\ reduce_batch fuel (generate drand48 N)
     = Ok (generate drand48 N, repeat true N, repeat true N).
Proof.
  intros Hd; pose proof (generate_forallb drand48 N Hd) as Hx.
  split; [exact Hx | ].
  rewrite (reduce_batch_quiet fuel _ (forallb_in_range_quiet _ Hx)).
  now rewrite generate_length.
Qed.

Lemma main_angles_in_range_witness :
  forallb in_range (generate (fun i => 0x1.fffffffffffffp-1) 5) = true
  /\ reduce_batch 0 (generate (fun i => 0x1.fffffffffffffp-1) 5)
     = Ok (generate (fun i => 0x1.fffffffffffffp-1) 5, repeat true 5, repeat true 5).
Proof.
  apply (main_angles_in_range (fun i => 0x1.fffffffffffffp-1) 5 0).
  intros i; split; reflexivity.
Defined.

(** X23: one pass of [main] with the Taylor strategy hands every batch the
    start of the flag arrays, so only the first four flags of each array are
    ever read: cell i of the output is decided by flag i mod 4, not by
    flag i. *)
Theorem pass_taylor_flags (k : nat) (out x : list float)
    (g0 g1 g2 g3 c0 c1 c2 c3 : bool) (gt ct : list bool) :
  length out = (4 * k)%nat -> length x = (4 * k)%nat ->
  pass
    (fun out xi =>
       sin4_taylor out xi (Some (g0 :: g1 :: g2 :: g3 :: gt))
         (Some (c0 :: c1 :: c2 :: c3 :: ct)))
    (4 * k) out x
  = Ok (lanes4 (fun v => taylor_lane v c0 g0) (fun v => taylor_lane v c1 g1)
          (fun v => taylor_lane v c2 g2) (fun v => taylor_lane v c3 g3) x).
Proof.
  intros Hout Hx; apply pass_lanes; auto.
  intros; apply sin4_taylor_selected.
Qed.

Lemma pass_taylor_flags_witness :
  pass
    (fun out xi =>
       sin4_taylor out xi
         (Some [true; false; true; true; false; false; false; false])
         (Some [true; true; false; true; false; false; false; false]))
    8 (repeat 0 8) [1; 1; 1; 1; 1; 1; 1; 1]
  = Ok [Spec.sin_poly 1; - Spec.sin_poly 1; Spec.cos_poly 1; Spec.sin_poly 1;
        Spec.sin_poly 1; - Spec.sin_poly 1; Spec.cos_poly 1; Spec.sin_poly 1].
Proof.
  exact (pass_taylor_flags 2 (repeat 0 8) [1; 1; 1; 1; 1; 1; 1; 1]
           true false true true true true false true
           [false; false; false; false] [false; false; false; false]
           eq_refl eq_refl).
Defined.

(** X24: on buffers of 4k cells one pass of [main] with the reference, the
    intrinsics or the vector strategy applies the strategy's function to
    every cell: the platform sine, x + c3 x^3 (or the platform sine when not
    compiled for AVX or SSE2), and the degree-11 sine polynomial. *)
Theorem pass_cells (sin : float -> float) (hw : isa) (k : nat) (out x : list float) :
  length out = (4 * k)%nat -> length x = (4 * k)%nat ->
  pass (sin4_reference sin) (4 * k) out x = Ok (map sin x)
  /\ pass (sin4_intrin sin hw) (4 * k) out x = Ok (map (intrin_lane sin hw) x)
  /\ pass sin4_vector (4 * k) out x = Ok (map Spec.sin_poly x).
Proof.
  intros Hout Hx; repeat split.
  - rewrite (pass_lanes _ sin sin sin sin (sin4_reference_lanes sin) k); auto.
    f_equal; now apply (lanes4_map sin k).
  - rewrite (pass_lanes _ _ _ _ _ (sin4_intrin_tail sin hw) k); auto.
    f_equal; now apply (lanes4_map _ k).
  - rewrite (pass_lanes _ _ _ _ _ sin4_vector_tail k); auto.
    f_equal; now apply (lanes4_map _ k).
Qed.

Lemma pass_cells_witness :
  pass (sin4_reference (fun v => v + 1)) 4 [0; 0; 0; 0] [1; 2; 3; 4] = Ok [2; 3; 4; 5]
  /\ pass (sin4_intrin (fun v => v + 1) SSE2) 4 [0; 0; 0; 0] [1; 2; 3; 4]
     = Ok (map Spec.sin_deg3 [1; 2; 3; 4])
  /\ pass sin4_vector 4 [0; 0; 0; 0] [1; 2; 3; 4] = Ok (map Spec.sin_poly [1; 2; 3; 4]).
Proof.
  exact (pass_cells (fun v => v + 1) SSE2 1 [0; 0; 0; 0] [1; 2; 3; 4] eq_refl eq_refl).
Defined.

(** X25: when N is not a multiple of four and the buffers hold N cells, a
    pass of [main] runs over the end of the buffers: its last call of the
    strategy finds fewer than four cells. *)
Theorem pass_needs_multiple_of_four (sin : float -> float) (hw : isa)
    (k j : nat) (out x : list float) :
  (0 < j < 4)%nat ->
  length out = (4 * k + j)%nat -> length x = (4 * k + j)%nat ->
  pass (sin4_reference sin) (4 * k + j) out x = Undefined
  /\ pass (fun out xi => sin4_taylor out xi None None) (4 * k + j) out x = Undefined
  /\ pass (sin4_intrin sin hw) (4 * k + j) out x = Undefined
  /\ pass sin4_vector (4 * k + j) out x = Undefined.
Proof.
  intros Hj Hout Hx.
  assert (Hshort : forall o v, (length v < 4)%nat ->
            sin4_reference sin o v = Undefined
            /\ sin4_taylor o v None None = Undefined
            /\ sin4_intrin sin hw o v = Undefined
            /\ sin4_vector o v = Undefined).
  { intros o v Hv.
    destruct v as [|v0 [|v1 [|v2 [|v3 vt]]]]; cbn [length] in Hv; try lia;
      destruct o as [|o0 [|o1 [|o2 [|o3 ot]]]];
      repeat split; try reflexivity; destruct hw; reflexivity. }
  repeat split.
  - apply (pass_overrun _ sin sin sin sin (sin4_reference_lanes sin)); auto.
    intros; now apply Hshort.
  - apply (pass_overrun _ _ _ _ _
             sin4_taylor_plain_tail); auto.
    intros; now apply Hshort.
  - apply (pass_overrun _ _ _ _ _ (sin4_intrin_tail sin hw)); auto.
    intros; now apply Hshort.
  - apply (pass_overrun _ _ _ _ _ sin4_vector_tail); auto.
    intros; now apply Hshort.
Qed.

Lemma pass_needs_multiple_of_four_witness :
  pass (sin4_reference (fun v => v + 1)) 6 (repeat 0 6) [1; 2; 3; 4; 5; 6] = Undefined
  /\ pass (fun out xi => sin4_taylor out xi None None) 6 (repeat 0 6)
       [1; 2; 3; 4; 5; 6] = Undefined
  /\ pass (sin4_intrin (fun v => v + 1) SSE2) 6 (repeat 0 6) [1; 2; 3; 4; 5; 6]
     = Undefined
  /\ pass sin4_vector 6 (repeat 0 6) [1; 2; 3; 4; 5; 6] = Undefined.
Proof.
  apply (pass_needs_multiple_of_four (fun v => v + 1) SSE2 1 2 (repeat 0 6)
           [1; 2; 3; 4; 5; 6]); [lia | reflexivity | reflexivity].
Defined.

(** X26: the 1000 repetitions of a pass in [main] leave the output buffer as
    one pass leaves it, for each of the four strategies. *)
Theorem repeated_is_one_pass (sin : float -> float) (hw : isa) (k : nat)
    (out x : list float) (sign_vec sin_cos_vec : list bool) :
  length out = (4 * k)%nat -> length x = (4 * k)%nat ->
  (4 <= length sign_vec)%nat -> (4 <= length sin_cos_vec)%nat ->
  repeated (sin4_reference sin) (4 * k) out x = pass (sin4_reference sin) (4 * k) out x
  /\ repeated (fun out xi => sin4_taylor out xi (Some sign_vec) (Some sin_cos_vec))
       (4 * k) out x
     = pass (fun out xi => sin4_taylor out xi (Some sign_vec) (Some sin_cos_vec))
         (4 * k) out x
  /\ repeated (sin4_intrin sin hw) (4 * k) out x = pass (sin4_intrin sin hw) (4 * k) out x
  /\ repeated sin4_vector (4 * k) out x = pass sin4_vector (4 * k) out x.
Proof.
  intros Hout Hx Hs Hc.
  destruct sign_vec as [|g0 [|g1 [|g2 [|g3 gt]]]]; cbn [length] in Hs; try lia.
  destruct sin_cos_vec as [|c0 [|c1 [|c2 [|c3 ct]]]]; cbn [length] in Hc; try lia.
  repeat split.
  - rewrite (repeated_lanes _ _ _ _ _ (sin4_reference_lanes sin) k),
      (pass_lanes _ _ _ _ _ (sin4_reference_lanes sin) k); auto.
  - rewrite (repeated_lanes _ _ _ _ _
               (fun o0 o1 o2 o3 ot x0 x1 x2 x3 xt =>
                  sin4_taylor_selected o0 o1 o2 o3 x0 x1 x2 x3 ot xt
                    g0 g1 g2 g3 c0 c1 c2 c3 gt ct) k); auto.
    rewrite (pass_lanes _ _ _ _ _
               (fun o0 o1 o2 o3 ot x0 x1 x2 x3 xt =>
                  sin4_taylor_selected o0 o1 o2 o3 x0 x1 x2 x3 ot xt
                    g0 g1 g2 g3 c0 c1 c2 c3 gt ct) k); auto.
  - rewrite (repeated_lanes _ _ _ _ _ (sin4_intrin_tail sin hw) k),
      (pass_lanes _ _ _ _ _ (sin4_intrin_tail sin hw) k); auto.
  - rewrite (repeated_lanes _ _ _ _ _ sin4_vector_tail k),
      (pass_lanes _ _ _ _ _ sin4_vector_tail k); auto.
Qed.

Lemma repeated_is_one_pass_witness :
  repeated (sin4_reference (fun v => v + 1)) 4 [0; 0; 0; 0] [1; 2; 3; 4]
  = pass (sin4_reference (fun v => v + 1)) 4 [0; 0; 0; 0] [1; 2; 3; 4]
  /\ repeated
       (fun out xi =>
          sin4_taylor out xi (Some [true; false; true; false])
            (Some [true; true; false; false]))
       4 [0; 0; 0; 0] [1; 2; 3; 4]
     = pass
         (fun out xi =>
            sin4_taylor out xi (Some [true; false; true; false])
              (Some [true; true; false; false]))
         4 [0; 0; 0; 0] [1; 2; 3; 4]
  /\ repeated (sin4_intrin (fun v => v + 1) AVX) 4 [0; 0; 0; 0] [1; 2; 3; 4]
     = pass (sin4_intrin (fun v => v + 1) AVX) 4 [0; 0; 0; 0] [1; 2; 3; 4]
  /\ repeated sin4_vector 4 [0; 0; 0; 0] [1; 2; 3; 4]
     = pass sin4_vector 4 [0; 0; 0; 0] [1; 2; 3; 4].
Proof.
  apply (repeated_is_one_pass (fun v => v + 1) AVX 1 [0; 0; 0; 0] [1; 2; 3; 4]
           [true; false; true; false] [true; true; false; false]);
    simpl; lia.
Defined.

(** X27: when [drand48] returns doubles d with 0 <= d < 1 and N is a
    multiple of four, [main] runs to its end and prints the same error for
    the Taylor strategy and for the vector strategy. *)
Theorem benchmark_taylor_vector (sin : float -> float) (hw : isa)
    (drand48 : nat -> float) (k fuel : nat) :
  (forall i, (0 <=? drand48 i) = true /\ (drand48 i <? 1) = true) ->
  exists e11 e3,
    benchmark sin hw drand48 (4 * k) fuel = Ok (e11, e3, e11).
Proof.
  intros Hd; pose proof (generate_forallb drand48 (4 * k) Hd) as Hx.
  rewrite (benchmark_errors sin hw drand48 k fuel Hx).
  set (x := generate drand48 (4 * k)).
  assert (Lx : length x = (4 * k)%nat) by apply generate_length.
  rewrite !err_unfold.
  destruct (err_loop_defined (map sin x) (map Spec.sin_poly x) (4 * k) 0 0)
    as [e11 ->]; rewrite ?length_map; try lia.
  destruct (err_loop_defined (map sin x) (map (intrin_lane sin hw) x) (4 * k) 0 0)
    as [e3 ->]; rewrite ?length_map; try lia.
  now exists e11, e3.
Qed.

Lemma benchmark_taylor_vector_witness :
  exists e11 e3,
    benchmark (fun v => v) AVX (fun i => 0.75) 4 0 = Ok (e11, e3, e11).
Proof.
  apply (benchmark_taylor_vector (fun v => v) AVX (fun i => 0.75) 1 0).
  intros i; split; reflexivity.
Defined.

(** X28: under the same conditions and compiled for neither AVX nor SSE2,
    [main] prints the error 0 for the intrinsics strategy, which then is the
    reference strategy. *)
Theorem benchmark_no_simd (sin : float -> float)
    (drand48 : nat -> float) (k fuel : nat) :
  (forall i, (0 <=? drand48 i) = true /\ (drand48 i <? 1) = true) ->
  exists e11, benchmark sin NoSIMD drand48 (4 * k) fuel = Ok (e11, 0, e11).
Proof.
  intros Hd; pose proof (generate_forallb drand48 (4 * k) Hd) as Hx.
  rewrite (benchmark_errors sin NoSIMD drand48 k fuel Hx).
  set (x := generate drand48 (4 * k)).
  assert (Lx : length x = (4 * k)%nat) by apply generate_length.
  cbn [intrin_lane]. rewrite !err_unfold.
  rewrite (err_loop_self (map sin x) (4 * k) 0) by (rewrite length_map; lia).
  destruct (err_loop_defined (map sin x) (map Spec.sin_poly x) (4 * k) 0 0)
    as [e11 ->]; rewrite ?length_map; try lia.
  now exists e11.
Qed.

Lemma benchmark_no_simd_witness :
  exists e11, benchmark (fun v => v) NoSIMD (fun i => 0.25) 8 0 = Ok (e11, 0, e11).
Proof.
  apply (benchmark_no_simd (fun v => v) (fun i => 0.25) 2 0).
  intros i; split; reflexivity.
Defined.

(** * The three errors of one batch *)

Lemma batch_errors_closed (sin : float -> float) (hw : isa) (fuel : nat)
    (x0 x1 x2 x3 : float) :
  let x := [x0; x1; x2; x3] in
  forallb in_range x = true ->
  batch_errors sin hw fuel x
  = (e11 <- err (map sin x) (map Spec.sin_poly x) 4 ;;
     e3 <- err (map sin x) (map (intrin_lane sin hw) x) 4 ;;
     Ok (e11, e3, e11)).
Proof.
  intros x Hx; unfold batch_errors.
  rewrite (reduce_batch_quiet fuel x (forallb_in_range_quiet x Hx)); cbn [bind].
  subst x; cbn [length repeat map].
  rewrite sin4_reference_lanes, sin4_taylor_selected, sin4_intrin_tail,
    sin4_vector_tail; cbn [bind taylor_lane].
  destruct (err _ [Spec.sin_poly x0; _; _; _] 4) as [e11| | ];
    cbn [bind]; reflexivity.
Qed.

(** C9 (amended): on a batch of four angles in [-M_PI/4, M_PI/4] the error of
    [sin4_taylor] and the error of [sin4_vector] against the reference are
    the same number e11, the error of the degree-11 sum against the
    platform's sine, and e11 is not negative.  The error of [sin4_intrin] is
    that of x + c3 x^3 when it is compiled for AVX or SSE2.  Compiled for
    neither, [sin4_intrin] is the reference strategy, line 99: its error is
    0 and so at most e11, the reverse of the order stated. *)
Theorem batch_error_order (sin : float -> float) (hw : isa) (fuel : nat)
    (x0 x1 x2 x3 : float) :
  let x := [x0; x1; x2; x3] in
  forallb in_range x = true ->
  exists e11 e3,
    batch_errors sin hw fuel x = Ok (e11, e3, e11)
    /\ err (map sin x) (map Spec.sin_poly x) 4 = Ok e11
    /\ (0 <=? e11) = true
    /\ match hw with
       | AVX | SSE2 => err (map sin x) (map Spec.sin_deg3 x) 4 = Ok e3
       | NoSIMD => e3 = 0 /\ (e3 <=? e11) = true
       end.
Proof.
  intros x Hx.
  pose proof (batch_errors_closed sin hw fuel x0 x1 x2 x3 Hx) as Hc.
  cbv zeta in Hc; fold x in Hc; rewrite Hc; clear Hc.
  assert (Lx : length x = 4%nat) by reflexivity.
  destruct (err_loop_defined (map sin x) (map Spec.sin_poly x) 4 0 0)
    as [e11 E11]; rewrite ?length_map; try lia.
  destruct (err_loop_defined (map sin x) (map (intrin_lane sin hw) x) 4 0 0)
    as [e3 E3]; rewrite ?length_map; try lia.
  destruct (err_loop_sound _ _ _ _ _ _ sound_zero E11) as [_ Hpos].
  rewrite !err_unfold, E11, E3; cbn [bind].
  exists e11, e3; repeat split; try assumption.
  destruct hw; cbn [intrin_lane] in E3; try exact E3.
  rewrite (err_loop_self (map sin x) 4 0) in E3 by (rewrite length_map; lia).
  injection E3 as <-. now split.
Qed.

Lemma batch_error_order_witness :
  forallb in_range [M_PI / 4; small_angle; 0; - (M_PI / 4)] = true
  /\ exists e11 e3,
       batch_errors sin_sample NoSIMD 1 [M_PI / 4; small_angle; 0; - (M_PI / 4)]
       = Ok (e11, e3, e11)
       /\ err (map sin_sample [M_PI / 4; small_angle; 0; - (M_PI / 4)])
            (map Spec.sin_poly [M_PI / 4; small_angle; 0; - (M_PI / 4)]) 4 = Ok e11
       /\ (0 <=? e11) = true
       /\ e3 = 0 /\ (e3 <=? e11) = true.
Proof.
  split; [reflexivity | ].
  apply (batch_error_order sin_sample NoSIMD 1 (M_PI / 4) small_angle 0 (- (M_PI / 4))).
  reflexivity.
Defined.

(** C9 (refuted as stated): the error of [sin4_intrin] is not always the
    largest of the three.  Compiled for neither AVX nor SSE2, it is 0 on the
    batch of four angles M_PI/4, where the degree-11 strategies are off by
    0x1.e784p-38, about 6.9e-12.  Compiled for AVX or for SSE2, it is 0 on
    the batch of four angles [small_angle], where x + c3 x^3 is the double
    the library returns and the degree-11 sum is the double above it. *)
Lemma intrin_error_not_largest :
  forallb in_range [M_PI / 4; M_PI / 4; M_PI / 4; M_PI / 4] = true
  /\ batch_errors sin_sample NoSIMD 1 [M_PI / 4; M_PI / 4; M_PI / 4; M_PI / 4]
     = Ok (0x1.e784p-38, 0, 0x1.e784p-38)
  /\ ~ stated_error_order sin_sample NoSIMD 1 [M_PI / 4; M_PI / 4; M_PI / 4; M_PI / 4]
  /\ forallb in_range [small_angle; small_angle; small_angle; small_angle] = true
  /\ batch_errors sin_sample AVX 1 [small_angle; small_angle; small_angle; small_angle]
     = Ok (0x1p-64, 0, 0x1p-64)
  /\ batch_errors sin_sample SSE2 1 [small_angle; small_angle; small_angle; small_angle]
     = Ok (0x1p-64, 0, 0x1p-64)
  /\ ~ stated_error_order sin_sample AVX 1 [small_angle; small_angle; small_angle; small_angle]
  /\ ~ stated_error_order sin_sample SSE2 1 [small_angle; small_angle; small_angle; small_angle].
Proof.
  assert (R : forall hw a e,
             batch_errors sin_sample hw 1 a = Ok (e, 0, e) -> (e <=? 0) = false ->
             ~ stated_error_order sin_sample hw 1 a).
  { intros hw a e E Hlt (et & ei & ev & E' & H1 & _).
    rewrite E in E'; injection E' as <- <- <-. congruence. }
  repeat split; try reflexivity;
    [ apply (R _ _ 0x1.e784p-38) | apply (R _ _ 0x1p-64) | apply (R _ _ 0x1p-64) ];
    reflexivity.
Qed.

(** Compiled for AVX or SSE2 the errors at M_PI/4 are in the stated order:
    about 2.5e-3 for x + c3 x^3 against 6.9e-12. *)
Lemma intrin_error_largest_at_quarter_pi :
  batch_errors sin_sample AVX 1 [M_PI / 4; M_PI / 4; M_PI / 4; M_PI / 4]
  = Ok (0x1.e784p-38, 0x1.41aaeffc67ep-9, 0x1.e784p-38)
  /\ batch_errors sin_sample SSE2 1 [M_PI / 4; M_PI / 4; M_PI / 4; M_PI / 4]
  = Ok (0x1.e784p-38, 0x1.41aaeffc67ep-9, 0x1.e784p-38).
Proof. split; reflexivity. Qed.
